(** * rclone_plus: the transfer orchestrator, embedded and verified

    A shallow embedding of the main-process services of the application
    ([SSHService], [RcloneService], [TransferService], with the parts of
    [ConfigService] they call) and the theorems that settle the claims
    C1..C10 of the specification against that code.  The last part proves
    further properties of these services, of [LoggerService] and
    [CryptoService], and of the stores of the window (X1..X27).

    Conventions of the embedding.
    - JavaScript numbers that hold byte counts, indices and percentages are
      integers in the code paths modelled here ([parseInt] results, array
      lengths, products of integers); they are modelled as [Z], exact below
      2^53.  The one real-valued expression, the job-level percentage of the
      split upload, is modelled over [Q].
    - A rejected promise or a thrown [Error] is [inl message]; a resolved
      promise is [inr value].  Stateful methods are functions in the monad
      [M] below, over the state of the three service singletons.
    - The remote hosts are an oracle ([World]): what a dial answers, what a
      command prints, what the clock and the random generator give.  Every
      theorem quantifies over it.
    - [logService] calls only write to the log and are left out. *)

From Stdlib Require Import ZArith QArith Qround List String Ascii Lia.
From Stdlib Require Import Sorting.Sorted Permutation DecimalString.
From Stdlib Require DecimalPos.
From stdpp Require Import base gmap strings list.

#[local] Open Scope Z_scope.
#[local] Open Scope list_scope.

(* ===================================================================== *)
(** * JavaScript built-ins used by the services                          *)
(* ===================================================================== *)

Module JS.

Definition isDigit (c : ascii) : bool :=
  let n := nat_of_ascii c in (Nat.leb 48 n) && (Nat.leb n 57).

Definition digitVal (c : ascii) : Z := Z.of_nat (nat_of_ascii c) - 48.

(** White space skipped by [parseInt] and removed by [trim] (the ASCII
    part of the ECMAScript WhiteSpace and LineTerminator classes). *)
Definition isSpace (c : ascii) : bool :=
  let n := nat_of_ascii c in
  (Nat.eqb n 32) || (Nat.leb 9 n && Nat.leb n 13).

Fixpoint trimStart (s : string) : string :=
  match s with
  | String c s' => if isSpace c then trimStart s' else s
  | EmptyString => EmptyString
  end.

Fixpoint digitsValue (s : string) (acc : option Z) : option Z :=
  match s with
  | String c s' =>
      if isDigit c
      then digitsValue s' (Some (10 * default 0 acc + digitVal c))
      else acc
  | EmptyString => acc
  end.

(** [parseInt(s, 10)]; [None] is NaN. *)
Definition parseInt (s : string) : option Z :=
  match trimStart s with
  | String "-" s' => Z.opp <$> digitsValue s' None
  | String "+" s' => digitsValue s' None
  | s' => digitsValue s' None
  end.

(** [parseInt(s, 10) || 0]: NaN and 0 are falsy. *)
Definition parseIntOr0 (s : string) : Z := default 0 (parseInt s).

(** [x || d] on numbers that are never NaN: 0 is falsy. *)
Definition numOr (x d : Z) : Z := if x =? 0 then d else x.

(** [String(n)] for an integer. *)
Definition toString (n : Z) : string := NilZero.string_of_int (Z.to_int n).

Fixpoint repeatChar (c : ascii) (n : nat) : string :=
  match n with
  | O => EmptyString
  | S n' => String c (repeatChar c n')
  end.

(** [s.padStart(w, c)] for a one-character filler. *)
Definition padStart (w : nat) (c : ascii) (s : string) : string :=
  repeatChar c (w - String.length s) +:+ s.

(** [s.startsWith(p)] *)
Definition startsWith (p s : string) : bool := String.prefix p s.

(** [a.slice(start, end)]: relative indices are clamped to the array, a
    negative one counts from its end. *)
Definition relIndex (len i : Z) : Z :=
  if i <? 0 then Z.max (len + i) 0 else Z.min i len.

Definition slice {A} (l : list A) (start end_ : Z) : list A :=
  let len := Z.of_nat (length l) in
  let k := relIndex len start in
  let e := relIndex len end_ in
  firstn (Z.to_nat (e - k)) (skipn (Z.to_nat k) l).

(** [Math.round(x)]: the integer nearest to x, ties towards +infinity. *)
Definition round (x : Q) : Z := Qfloor (x + (1 # 2))%Q.

(** [s.replace(pat, rep)] with a string pattern: the first occurrence. *)
Definition replaceFirst (pat rep s : string) : string :=
  match String.index 0 pat s with
  | Some k =>
      String.substring 0 k s +:+ rep
      +:+ String.substring (k + String.length pat)
                           (String.length s - (k + String.length pat)) s
  | None => s
  end.

(** [s.replace(/^\//, '')] *)
Definition stripLeadingSlash (s : string) : string :=
  match s with
  | String "/" s' => s'
  | _ => s
  end.

Definition trimEnd (s : string) : string :=
  String.rev (trimStart (String.rev s)).

(** [s.trim()] *)
Definition trim (s : string) : string := trimEnd (trimStart s).

(** [s.includes(p)] *)
Definition includes (p s : string) : bool :=
  match String.index 0 p s with Some _ => true | None => false end.

(** [s.split(c)] for a one-character separator. *)
Fixpoint splitOn (c : ascii) (s : string) : list string :=
  match s with
  | EmptyString => [EmptyString]
  | String a s' =>
      if Ascii.eqb a c then EmptyString :: splitOn c s'
      else match splitOn c s' with
           | w :: ws => String a w :: ws
           | [] => [String a EmptyString]
           end
  end.

(** A string is truthy when it is not empty. *)
Definition nonEmpty (s : string) : bool :=
  match s with EmptyString => false | _ => true end.

(** The double quote and the line feed, which the command strings embed. *)
Definition dq : string := String (ascii_of_nat 34) EmptyString.
Definition nl : string := String (ascii_of_nat 10) EmptyString.

(** ["${s}"] inside a template literal. *)
Definition quoted (s : string) : string := dq +:+ s +:+ dq.

(** [s.replace(/'/g, r)] *)
Fixpoint replaceQuotes (r s : string) : string :=
  match s with
  | EmptyString => EmptyString
  | String c s' =>
      if Ascii.eqb c "'" then r +:+ replaceQuotes r s'
      else String c (replaceQuotes r s')
  end.

(** [s.match(/(\d+)%/)] followed by [parseInt(m[1], 10)]: the value of the
    leftmost run of digits that a percent sign follows. *)
Fixpoint matchPercent (s : string) (run : option Z) : option Z :=
  match s with
  | EmptyString => None
  | String c s' =>
      if isDigit c then matchPercent s' (Some (10 * default 0 run + digitVal c))
      else if Ascii.eqb c "%" then
        match run with
        | Some n => Some n
        | None => matchPercent s' None
        end
      else matchPercent s' None
  end.

(** [a.join(sep)] *)
Fixpoint join (sep : string) (l : list string) : string :=
  match l with
  | [] => EmptyString
  | [x] => x
  | x :: l' => x +:+ sep +:+ join sep l'
  end.

(** [a.slice(start)]: up to the end of the array. *)
Definition sliceFrom {A} (l : list A) (start : Z) : list A :=
  slice l start (Z.of_nat (length l)).

(** [s || d] on strings: the empty string is falsy. *)
Definition strOr (s d : string) : string := if nonEmpty s then s else d.

End JS.

(* ===================================================================== *)
(** * Shared types (shared/types.ts)                                     *)
(* ===================================================================== *)

Inductive SSHAuthType := AuthPassword | AuthKey | AuthConfig.

Record SSHConfig := {
  srv_id : string;
  srv_name : string;
  srv_host : string;
  srv_port : Z;
  srv_username : string;
  srv_authType : SSHAuthType;
  srv_password : option string;
  srv_privateKeyPath : option string;
  srv_passphrase : option string;
}.

Inductive TransferItemStatus :=
  | Pending | Zipping | Uploading | Uploaded
  | ItemDownloading | ItemExtracting | Completed | Failed.

Record TransferItem := {
  item_id : string;
  fileName : string;
  sourcePath : string;
  drivePath : string;
  destinationPath : string;
  status : TransferItemStatus;
  progress : Z;
  speed : option string;
  error : option string;
  createdAt : Z;
  completedAt : option Z;
  retryCount : Z;
}.

(** The [_zipInfo] object that [prepareSourceFiles] attaches to the job;
    [actualParts] is added by [processItem]. *)
Record ZipInfo := {
  needsSplit : bool;
  limitMB : Z;
  baseZipName : string;
  baseZipPath : string;
  totalBytes : Z;
  actualParts : option Z;
}.

Record TransferJob := {
  job_id : string;
  job_name : string;
  sourceServerId : string;
  destinationServerIds : list string;
  sourceFolder : string;
  destinationFolder : string;
  driveFolder : string;
  zipSizeLimitMB : Z;
  deleteAfterUpload : bool;
  deleteFromDrive : bool;
  autoExtract : bool;
  items : list TransferItem;
  zipInfo : option ZipInfo;
}.

Inductive DestStatus :=
  | DPending | DDownloading | DExtracting | DCompleted | DFailed.

Record FileDestinationProgress := {
  serverId : string;
  serverName : string;
  dstatus : DestStatus;
  dprogress : Z;
  derror : option string;
}.

Record UploadedFileInfo := {
  file_id : string;
  ufileName : string;
  udrivePath : string;
  uploadedAt : Z;
  usize : string;
  destinations : list FileDestinationProgress;
}.

(* ===================================================================== *)
(** * The planner: the batching loop of [TransferService.processItem]    *)
(* ===================================================================== *)

Module Planner.

Record FileEntry := {
  size : Z;
  path : string;
  relativePath : string;
}.

(** The three variables of the loop: [batches], [currentBatch],
    [currentBatchSize]. *)
Record Loop := {
  batches : list (list FileEntry);
  currentBatch : list FileEntry;
  currentBatchSize : Z;
}.

Definition start : Loop :=
  {| batches := []; currentBatch := []; currentBatchSize := 0 |}.

(** [batches.push(currentBatch); currentBatch = []; currentBatchSize = 0] *)
Definition flush (st : Loop) : Loop :=
  {| batches := batches st ++ [currentBatch st];
     currentBatch := [];
     currentBatchSize := 0 |}.

(** One iteration of [for (const file of files)]. *)
Definition step (limitBytes : Z) (st : Loop) (file : FileEntry) : Loop :=
  if size file >? limitBytes then
    let st1 := if (0 <? length (currentBatch st))%nat then flush st else st in
    {| batches := batches st1 ++ [[file]];
       currentBatch := currentBatch st1;
       currentBatchSize := currentBatchSize st1 |}
  else
    let st1 :=
      if (currentBatchSize st + size file >? limitBytes)
         && (0 <? length (currentBatch st))%nat
      then flush st else st in
    {| batches := batches st1;
       currentBatch := currentBatch st1 ++ [file];
       currentBatchSize := currentBatchSize st1 + size file |}.

(** The loop followed by "don't forget the last batch". *)
Definition splitBatches (limitBytes : Z) (files : list FileEntry)
  : list (list FileEntry) :=
  let st := fold_left (step limitBytes) files start in
  if (0 <? length (currentBatch st))%nat
  then batches st ++ [currentBatch st]
  else batches st.

Definition totalSize (b : list FileEntry) : Z :=
  fold_right (fun f acc => size f + acc) 0 b.

(** One line of the [find ... stat --printf='%s %n\n'] listing. *)
Definition parseLine (sourceFolder line : string) : option FileEntry :=
  match String.index 0 " " line with
  | Some (S k) =>
      let fullPath := String.substring (S (S k)) (String.length line - S (S k)) line in
      Some {| size := JS.parseIntOr0 (String.substring 0 (S k) line);
              path := fullPath;
              relativePath :=
                JS.stripLeadingSlash (JS.replaceFirst sourceFolder EmptyString fullPath) |}
  | _ => None
  end.

End Planner.


(* ===================================================================== *)
(** * The environment and the state of the service singletons            *)
(* ===================================================================== *)

(** A chunk of output of a remote command, on stdout or on stderr. *)
Inductive Chunk := Stdout (data : string) | Stderr (data : string).

(** What [client.exec] does with a command: the callback gets an error, or
    the stream delivers its chunks and closes. *)
Inductive ExecOutcome :=
  | ExecError (message : string)
  | ExecClosed (chunks : list Chunk).

(** An entry of an SFTP [readdir] listing. *)
Record DirEntry := {
  filename : string;
  isDirectory : bool;
  attr_size : Z;
  attr_mtime : Z;
}.

(** The world outside the main process.  The first argument of an oracle
    is the number of consultations made before it, so the same command may
    answer differently each time. *)
Record World := {
  w_dial : nat -> SSHConfig -> option string;
  w_exec : nat -> string -> string -> ExecOutcome;
  w_sftp : nat -> string -> option string;
  w_fastPut : nat -> string -> string -> string -> option string;
  w_fastGet : nat -> string -> string -> string -> option string;
  w_readdir : nat -> string -> string -> string + list DirEntry;
  w_readKey : string -> string + string;
  w_now : nat -> Z;
  w_random : nat -> string;
  w_localConfig : option string;
  w_localeCompare : string -> string -> Z;
  w_formatBytes : Z -> string;
  w_matchSpeed : string -> option string;
}.

Record SSHConnection := {
  conn_id : string;
  conn_config : SSHConfig;
}.

Record JobState := {
  js_job : TransferJob;
  isPaused : bool;
  isCancelled : bool;
}.

(** What leaves the main process: commands that ran on a host, dials, file
    transfers, and the IPC messages sent to the windows. *)
Inductive Event :=
  | EvDial (config : SSHConfig)
  | EvExec (connectionId command : string)
  | EvPut (connectionId localPath remotePath : string)
  | EvGet (connectionId remotePath localPath : string)
  | EvReaddir (connectionId dirPath : string)
  | EvProgress (jobId itemId : string) (progress : Z) (st : TransferItemStatus)
  | EvFileUploaded (jobId : string) (file : UploadedFileInfo)
  | EvFileProgress (jobId : string) (file : UploadedFileInfo)
  | EvNotification (title body : string).

Record State := {
  connections : gmap string SSHConnection;
  activeJobs : gmap string JobState;
  downloadQueue : gmap string (list TransferItem);
  uploadedFiles : gmap string (list UploadedFileInfo);
  servers : list SSHConfig;
  jobs : list TransferJob;
  heap : gmap nat TransferJob;
  clock : nat;
  trace : list Event;
}.

(** [heap] holds the job objects that the running methods mutate in place:
    [startJob] works on the object it was called with, [retryItem] on the
    copy that the store returns.  A job object is named by its key; an item
    object is named by the key of its job and its index in [job.items]. *)

(** Computations that may throw: the result is [inl message] or [inr v],
    and the state reached is kept in both cases. *)
Definition M (A : Type) : Type := State -> (string + A) * State.

Definition ret {A} (a : A) : M A := fun s => (inr a, s).

Definition throw {A} (message : string) : M A := fun s => (inl message, s).

Definition bind {A B} (m : M A) (k : A -> M B) : M B :=
  fun s => match m s with
           | (inr a, s') => k a s'
           | (inl e, s') => (inl e, s')
           end.

(** [try { m } catch (e) { h e }] *)
Definition try_catch {A} (m : M A) (h : string -> M A) : M A :=
  fun s => match m s with
           | (inr a, s') => (inr a, s')
           | (inl e, s') => h e s'
           end.

Definition gets {A} (f : State -> A) : M A := fun s => (inr (f s), s).

Definition modify (f : State -> State) : M unit := fun s => (inr tt, f s).

Notation "x <- m ;; k" := (bind m (fun x => k))
  (at level 100, m at next level, right associativity).
Notation "m ;;; k" := (bind m (fun _ => k))
  (at level 100, right associativity).

Definition set_connections f (s : State) : State :=
  {| connections := f (connections s); activeJobs := activeJobs s;
     downloadQueue := downloadQueue s; uploadedFiles := uploadedFiles s;
     servers := servers s; jobs := jobs s; heap := heap s;
     clock := clock s; trace := trace s |}.

Definition set_activeJobs f (s : State) : State :=
  {| connections := connections s; activeJobs := f (activeJobs s);
     downloadQueue := downloadQueue s; uploadedFiles := uploadedFiles s;
     servers := servers s; jobs := jobs s; heap := heap s;
     clock := clock s; trace := trace s |}.

Definition set_downloadQueue f (s : State) : State :=
  {| connections := connections s; activeJobs := activeJobs s;
     downloadQueue := f (downloadQueue s); uploadedFiles := uploadedFiles s;
     servers := servers s; jobs := jobs s; heap := heap s;
     clock := clock s; trace := trace s |}.

Definition set_uploadedFiles f (s : State) : State :=
  {| connections := connections s; activeJobs := activeJobs s;
     downloadQueue := downloadQueue s; uploadedFiles := f (uploadedFiles s);
     servers := servers s; jobs := jobs s; heap := heap s;
     clock := clock s; trace := trace s |}.

Definition set_jobs f (s : State) : State :=
  {| connections := connections s; activeJobs := activeJobs s;
     downloadQueue := downloadQueue s; uploadedFiles := uploadedFiles s;
     servers := servers s; jobs := f (jobs s); heap := heap s;
     clock := clock s; trace := trace s |}.

Definition set_heap f (s : State) : State :=
  {| connections := connections s; activeJobs := activeJobs s;
     downloadQueue := downloadQueue s; uploadedFiles := uploadedFiles s;
     servers := servers s; jobs := jobs s; heap := f (heap s);
     clock := clock s; trace := trace s |}.

Definition set_clock f (s : State) : State :=
  {| connections := connections s; activeJobs := activeJobs s;
     downloadQueue := downloadQueue s; uploadedFiles := uploadedFiles s;
     servers := servers s; jobs := jobs s; heap := heap s;
     clock := f (clock s); trace := trace s |}.

Definition set_trace f (s : State) : State :=
  {| connections := connections s; activeJobs := activeJobs s;
     downloadQueue := downloadQueue s; uploadedFiles := uploadedFiles s;
     servers := servers s; jobs := jobs s; heap := heap s;
     clock := clock s; trace := f (trace s) |}.

(** Consult an oracle: read the counter and advance it. *)
Definition tick : M nat :=
  fun s => (inr (clock s), set_clock S s).

Definition emit (e : Event) : M unit :=
  modify (set_trace (fun t => t ++ [e])).

(** A loop whose body updates the variables [v] it closes over. *)
Fixpoint foldM {A V} (l : list A) (body : A -> V -> M V) (v : V) : M V :=
  match l with
  | [] => ret v
  | x :: l' => v' <- body x v ;; foldM l' body v'
  end.

(** A loop [for (let i = i0; ...; i++) { const x = l[i]; await body(i, x) }]. *)
Fixpoint forEachI {A} (l : list A) (body : nat -> A -> M unit) (i0 : nat) : M unit :=
  match l with
  | [] => ret tt
  | x :: l' => body i0 x ;;; forEachI l' body (S i0)
  end.

(** A loop [for (const x of l) { await body(x) }]. *)
Fixpoint forEach {A} (l : list A) (body : A -> M unit) : M unit :=
  match l with
  | [] => ret tt
  | x :: l' => body x ;;; forEach l' body
  end.

(** [await Promise.all(l.map(task))]: every task runs (here one after the
    other, in the order of the list); the result is the first rejection, if
    there is one. *)
Fixpoint promiseAll {A} (l : list A) (task : A -> M unit) : M unit :=
  match l with
  | [] => ret tt
  | x :: l' =>
      fun s => match task x s with
               | (inr _, s') => promiseAll l' task s'
               | (inl e, s') => (inl e, snd (promiseAll l' task s'))
               end
  end.

(** [{ success, error? }] *)
Record Result := {
  success : bool;
  res_error : option string;
}.

Definition ok : Result := {| success := true; res_error := None |}.
Definition failure (message : string) : Result :=
  {| success := false; res_error := Some message |}.

(** [{ stdout, stderr }] *)
Record ExecResult := {
  stdout : string;
  stderr : string;
}.

(* ===================================================================== *)
(** * SSHService (ssh.service.ts)                                        *)
(* ===================================================================== *)

Module SSHService.

Definition noConnection (connectionId : string) : string :=
  "No connection found with id: " +:+ connectionId.

Definition chunkText (c : Chunk) : string :=
  match c with Stdout d => d | Stderr d => d end.

Definition stdoutOf (chunks : list Chunk) : string :=
  fold_left (fun acc c => match c with Stdout d => acc +:+ d | Stderr _ => acc end)
            chunks EmptyString.

Definition stderrOf (chunks : list Chunk) : string :=
  fold_left (fun acc c => match c with Stderr d => acc +:+ d | Stdout _ => acc end)
            chunks EmptyString.

Definition closed (chunks : list Chunk) : ExecResult :=
  {| stdout := JS.trim (stdoutOf chunks); stderr := JS.trim (stderrOf chunks) |}.

Inductive ItemType := TFile | TDirectory.

Record ListItem := {
  name : string;
  type : ItemType;
  li_size : Z;
  modifyTime : Z;
}.

Record Listing := {
  l_items : list ListItem;
  total : Z;
  hasMore : bool;
}.

Record ListOptions := {
  opt_limit : option Z;
  opt_offset : option Z;
}.

Definition toItem (e : DirEntry) : ListItem :=
  {| name := filename e;
     type := if isDirectory e then TDirectory else TFile;
     li_size := attr_size e;
     modifyTime := attr_mtime e |}.

Definition sameType (a b : ItemType) : bool :=
  match a, b with
  | TFile, TFile | TDirectory, TDirectory => true
  | _, _ => false
  end.

(** [Array.prototype.sort(cmp)]: a stable sort; an element goes before the
    first one it does not compare greater than. *)
Fixpoint insertBy {A} (cmp : A -> A -> Z) (x : A) (l : list A) : list A :=
  match l with
  | [] => [x]
  | y :: l' => if cmp x y <=? 0 then x :: y :: l' else y :: insertBy cmp x l'
  end.

Definition sortBy {A} (cmp : A -> A -> Z) (l : list A) : list A :=
  fold_right (insertBy cmp) [] l.

Section WithWorld.
Variable W : World.

(** The comparator of [listDirectory]: directories first, then by name. *)
Definition compareItems (a b : ListItem) : Z :=
  if negb (sameType (type a) (type b))
  then match type a with TDirectory => -1 | TFile => 1 end
  else w_localeCompare W (name a) (name b).

Definition visible (e : DirEntry) : bool := negb (JS.startsWith "." (filename e)).

Definition allItems (entries : list DirEntry) : list ListItem :=
  sortBy compareItems (map toItem (filter (fun e => visible e = true) entries)).

Definition paginate (all : list ListItem) (limit offset : Z) : Listing :=
  {| l_items := JS.slice all offset (offset + limit);
     total := Z.of_nat (length all);
     hasMore := offset + limit <? Z.of_nat (length all) |}.

Definition effectiveLimit (options : option ListOptions) : Z :=
  JS.numOr (default 0 (options ≫= opt_limit)) 50.

Definition effectiveOffset (options : option ListOptions) : Z :=
  JS.numOr (default 0 (options ≫= opt_offset)) 0.

Definition connect (config : SSHConfig) : M Result :=
  has <- gets (fun s => connections s !! srv_id config) ;;
  match has with
  | Some _ => ret ok
  | None =>
      let keyError :=
        match srv_authType config, srv_password config, srv_privateKeyPath config with
        | AuthPassword, Some (String _ _), _ => None
        | AuthKey, _, Some (String a p) =>
            match w_readKey W (String a p) with
            | inl e => Some e
            | inr _ => None
            end
        | _, _, _ => None
        end in
      match keyError with
      | Some e => ret (failure e)
      | None =>
          k <- tick ;;
          emit (EvDial config) ;;;
          match w_dial W k config with
          | None =>
              modify (set_connections
                        (fun c => <[srv_id config :=
                                      {| conn_id := srv_id config;
                                         conn_config := config |}]> c)) ;;;
              ret ok
          | Some e =>
              modify (set_connections (fun c => delete (srv_id config) c)) ;;;
              ret (failure e)
          end
      end
  end.

Definition disconnect (id : string) : M unit :=
  modify (set_connections (fun c => delete id c)).

Definition exec (connectionId command : string) : M ExecResult :=
  connection <- gets (fun s => connections s !! connectionId) ;;
  match connection with
  | None => throw (noConnection connectionId)
  | Some _ =>
      k <- tick ;;
      match w_exec W k connectionId command with
      | ExecError e => throw e
      | ExecClosed chunks =>
          emit (EvExec connectionId command) ;;;
          ret (closed chunks)
      end
  end.

(** [onProgress] is called with every chunk, in the order of arrival. *)
Definition execWithProgress (connectionId command : string)
    (onProgress : string -> M unit) : M ExecResult :=
  connection <- gets (fun s => connections s !! connectionId) ;;
  match connection with
  | None => throw (noConnection connectionId)
  | Some _ =>
      k <- tick ;;
      match w_exec W k connectionId command with
      | ExecError e => throw e
      | ExecClosed chunks =>
          emit (EvExec connectionId command) ;;;
          forEach chunks (fun c => onProgress (chunkText c)) ;;;
          ret (closed chunks)
      end
  end.

Definition uploadFile (connectionId localPath remotePath : string) : M unit :=
  connection <- gets (fun s => connections s !! connectionId) ;;
  match connection with
  | None => throw (noConnection connectionId)
  | Some _ =>
      k <- tick ;;
      match w_sftp W k connectionId with
      | Some e => throw e
      | None =>
          emit (EvPut connectionId localPath remotePath) ;;;
          match w_fastPut W k connectionId localPath remotePath with
          | Some e => throw e
          | None => ret tt
          end
      end
  end.

Definition downloadFile (connectionId remotePath localPath : string) : M unit :=
  connection <- gets (fun s => connections s !! connectionId) ;;
  match connection with
  | None => throw (noConnection connectionId)
  | Some _ =>
      k <- tick ;;
      match w_sftp W k connectionId with
      | Some e => throw e
      | None =>
          emit (EvGet connectionId remotePath localPath) ;;;
          match w_fastGet W k connectionId remotePath localPath with
          | Some e => throw e
          | None => ret tt
          end
      end
  end.

Definition listDirectory (connectionId dirPath : string)
    (options : option ListOptions) : M Listing :=
  connection <- gets (fun s => connections s !! connectionId) ;;
  match connection with
  | None => throw (noConnection connectionId)
  | Some _ =>
      let limit := effectiveLimit options in
      let offset := effectiveOffset options in
      k <- tick ;;
      match w_sftp W k connectionId with
      | Some e => throw e
      | None =>
          emit (EvReaddir connectionId dirPath) ;;;
          match w_readdir W k connectionId dirPath with
          | inl e => throw e
          | inr entries => ret (paginate (allItems entries) limit offset)
          end
      end
  end.

(** [testConnection]: the session is not closed on success. *)
Definition testConnection (config : SSHConfig) : M Result := connect config.

Definition appendKeyCommand (publicKey : string) : string :=
  "mkdir -p ~/.ssh && chmod 700 ~/.ssh && echo " +:+ JS.quoted publicKey
  +:+ " >> ~/.ssh/authorized_keys && chmod 600 ~/.ssh/authorized_keys".

Definition copyPublicKeyToServer (config : SSHConfig) (publicKey : string) : M Result :=
  try_catch
    (result <- connect config ;;
     if negb (success result) then ret result
     else
       exec (srv_id config) (appendKeyCommand publicKey) ;;;
       disconnect (srv_id config) ;;;
       ret ok)
    (fun message => ret (failure message)).

Definition getConnection (id : string) : M (option SSHConnection) :=
  gets (fun s => connections s !! id).

Definition isConnected (id : string) : M bool :=
  gets (fun s => bool_decide (is_Some (connections s !! id))).

End WithWorld.

End SSHService.

(* ===================================================================== *)
(** * LoggerService (logger.service.ts)                                  *)
(* ===================================================================== *)

Module LoggerService.

Inductive LogLevel := LInfo | LWarn | LError | LDebug.

Record LogEntry := {
  log_id : string;
  timestamp : Z;
  level : LogLevel;
  message : string;
  details : option string;
  log_jobId : option string;
  log_serverId : option string;
}.

(** The state of the singleton: the entries kept in memory, the entries
    sent to the windows since the start, and the number of consultations
    of the clock. *)
Record Logger := {
  logs : list LogEntry;
  sent : list LogEntry;
  log_clock : nat;
}.

Definition maxLogs : Z := 1000.

Definition start : Logger := {| logs := []; sent := []; log_clock := 0 |}.

Section WithWorld.
Variable W : World.

Definition generateId (k : nat) : string :=
  "log_" +:+ JS.toString (w_now W k) +:+ "_" +:+ w_random W k.

Definition log (level : LogLevel) (message : string)
    (details jobId serverId : option string) (s : Logger) : Logger :=
  let entry := {| log_id := generateId (log_clock s);
                  timestamp := w_now W (S (log_clock s));
                  level := level;
                  message := message;
                  details := details;
                  log_jobId := jobId;
                  log_serverId := serverId |} in
  let pushed := logs s ++ [entry] in
  {| logs := if Z.of_nat (length pushed) >? maxLogs
             then JS.sliceFrom pushed (- maxLogs)
             else pushed;
     sent := sent s ++ [entry];
     log_clock := S (S (log_clock s)) |}.

Definition info := log LInfo.
Definition warn := log LWarn.
Definition error := log LError.
Definition debug := log LDebug.

End WithWorld.

Definition getAllLogs (s : Logger) : list LogEntry := logs s.

Definition getLogsByJob (jobId : string) (s : Logger) : list LogEntry :=
  filter (fun l => log_jobId l = Some jobId) (logs s).

Definition getLogsByServer (serverId : string) (s : Logger) : list LogEntry :=
  filter (fun l => log_serverId l = Some serverId) (logs s).

Definition clearLogs (s : Logger) : Logger :=
  {| logs := []; sent := sent s; log_clock := log_clock s |}.

End LoggerService.

(* ===================================================================== *)
(** * CryptoService (crypto.service.ts)                                  *)
(* ===================================================================== *)

Module CryptoService.

(** Electron's [safeStorage] and the base64 codec of [Buffer]. *)
Record Platform := {
  isEncryptionAvailable : bool;
  encryptString : string -> string;
  decryptString : string -> string;
  toBase64 : string -> string;
  fromBase64 : string -> string;
}.

Definition encrypt (P : Platform) (data : string) : string :=
  if negb (isEncryptionAvailable P) then toBase64 P data
  else toBase64 P (encryptString P data).

Definition decrypt (P : Platform) (encryptedData : string) : string :=
  if negb (isEncryptionAvailable P) then fromBase64 P encryptedData
  else decryptString P (fromBase64 P encryptedData).

End CryptoService.

(* ===================================================================== *)
(** * ConfigService (config.service.ts): servers and jobs                *)
(* ===================================================================== *)

Module ConfigService.

Definition getServerById (id : string) : M (option SSHConfig) :=
  gets (fun s => List.find (fun c => String.eqb (srv_id c) id) (servers s)).

Definition getJobById (id : string) : M (option TransferJob) :=
  gets (fun s => List.find (fun j => String.eqb (job_id j) id) (jobs s)).

(** [findIndex] *)
Fixpoint findIndex {A} (p : A -> bool) (l : list A) : option nat :=
  match l with
  | [] => None
  | x :: l' => if p x then Some O else S <$> findIndex p l'
  end.

Definition saveJob (job : TransferJob) : M unit :=
  modify (set_jobs (fun js =>
    match findIndex (fun j => String.eqb (job_id j) (job_id job)) js with
    | Some existingIndex => <[existingIndex := job]> js
    | None => js ++ [job]
    end)).

Definition getJobs : M (list TransferJob) := gets jobs.

Definition deleteJob (id : string) : M unit :=
  modify (set_jobs (fun js => filter (fun j => job_id j <> id) js)).

(** ** The server entries, as the store keeps them

    [servers] of the state is what [getServers] returns.  The functions
    below work on the array kept under the key ['servers'] of the store,
    in which the password and the passphrase are encrypted. *)

(** [x ? f(x) : undefined]: an empty string is falsy. *)
Definition whenSet (f : string -> string) (x : option string) : option string :=
  match x with
  | Some (String a s) => Some (f (String a s))
  | _ => None
  end.

(** [{ ...server, password: ..., passphrase: ... }] *)
Definition withSecrets (f : string -> string) (server : SSHConfig) : SSHConfig :=
  {| srv_id := srv_id server; srv_name := srv_name server; srv_host := srv_host server;
     srv_port := srv_port server; srv_username := srv_username server;
     srv_authType := srv_authType server;
     srv_password := whenSet f (srv_password server);
     srv_privateKeyPath := srv_privateKeyPath server;
     srv_passphrase := whenSet f (srv_passphrase server) |}.

Section Servers.
Variable P : CryptoService.Platform.

Definition getServers (stored : list SSHConfig) : list SSHConfig :=
  map (withSecrets (CryptoService.decrypt P)) stored.

Definition saveServer (server : SSHConfig) (stored : list SSHConfig) : list SSHConfig :=
  let encryptedServer := withSecrets (CryptoService.encrypt P) server in
  match findIndex (fun s => String.eqb (srv_id s) (srv_id server)) stored with
  | Some existingIndex => <[existingIndex := encryptedServer]> stored
  | None => stored ++ [encryptedServer]
  end.

Definition deleteServer (id : string) (stored : list SSHConfig) : list SSHConfig :=
  filter (fun s => srv_id s <> id) stored.

(** [getServerById] on the stored array. *)
Definition storedServerById (id : string) (stored : list SSHConfig) : option SSHConfig :=
  List.find (fun s => String.eqb (srv_id s) id) (getServers stored).

End Servers.

End ConfigService.

(* ===================================================================== *)
(** * RcloneService (rclone.service.ts): the object-store driver         *)
(* ===================================================================== *)

Module RcloneService.

Record Installed := {
  installed : bool;
  version : option string;
}.

Definition installCommand : string := "curl https://rclone.org/install.sh | sudo bash".

Definition userInstall : string :=
  JS.nl +:+ "          mkdir -p ~/bin &&" +:+ JS.nl
  +:+ "          cd /tmp &&" +:+ JS.nl
  +:+ "          curl -O https://downloads.rclone.org/rclone-current-linux-amd64.zip &&" +:+ JS.nl
  +:+ "          unzip -o rclone-current-linux-amd64.zip &&" +:+ JS.nl
  +:+ "          cp rclone-*-linux-amd64/rclone ~/bin/ &&" +:+ JS.nl
  +:+ "          chmod +x ~/bin/rclone &&" +:+ JS.nl
  +:+ "          rm -rf rclone-*" +:+ JS.nl
  +:+ "        ".

Definition addToPath : string :=
  "echo 'export PATH=" +:+ JS.quoted "$HOME/bin:$PATH" +:+ "' >> ~/.bashrc".

Definition uploadCommand (sourcePath remoteName remotePath : string) : string :=
  "rclone copyto " +:+ JS.quoted sourcePath +:+ " "
  +:+ JS.quoted (remoteName +:+ ":" +:+ remotePath) +:+ " --progress --stats 1s 2>&1".

Definition downloadCommand (remoteName remotePath destPath : string) : string :=
  "rclone copyto " +:+ JS.quoted (remoteName +:+ ":" +:+ remotePath) +:+ " "
  +:+ JS.quoted destPath +:+ " --progress --stats 1s 2>&1".

Definition deleteCommand (remoteName remotePath : string) : string :=
  "rclone deletefile " +:+ JS.quoted (remoteName +:+ ":" +:+ remotePath) +:+ " 2>&1".

Definition listCommand (remoteName remotePath : string) : string :=
  "rclone ls " +:+ JS.quoted (remoteName +:+ ":" +:+ remotePath).

Definition catConfigCommand : string := "cat ~/.config/rclone/rclone.conf 2>/dev/null".

(** ** The remotes of an rclone configuration file *)

Record Remote := {
  remote_name : string;
  remote_type : string;
}.

(** The rest of a string after its opening bracket, when it is
    [[^\]]*\]] up to the end of the string: the text before the bracket. *)
Fixpoint untilBracket (s : string) : option string :=
  match s with
  | EmptyString => None
  | String c s' =>
      if Ascii.eqb c "]"
      then match s' with EmptyString => Some EmptyString | _ => None end
      else String c <$> untilBracket s'
  end.

(** [trimmed.match(/^\[([^\]]+)\]$/)]: the first group. *)
Definition matchSection (trimmed : string) : option string :=
  match trimmed with
  | String "[" rest =>
      match untilBracket rest with
      | Some (String a inner) => Some (String a inner)
      | _ => None
      end
  | _ => None
  end.

(** One iteration of [for (const line of lines)]; the variables of the
    loop are [remotes] and [currentRemote]. *)
Definition remoteStep (st : list Remote * option string) (line : string)
  : list Remote * option string :=
  let '(remotes, currentRemote) := st in
  let trimmed := JS.trim line in
  match matchSection trimmed with
  | Some remoteName => (remotes, Some remoteName)
  | None =>
      match currentRemote with
      | Some current =>
          if JS.startsWith "type = " trimmed
          then (remotes ++ [{| remote_name := current;
                               remote_type :=
                                 JS.trim (JS.replaceFirst "type = " EmptyString trimmed) |}],
                None)
          else (remotes, currentRemote)
      | None => (remotes, currentRemote)
      end
  end.

Definition parseRemotes (content : string) : list Remote :=
  fst (fold_left remoteStep (JS.splitOn (ascii_of_nat 10) content) ([], None)).

Record ServerConfig := {
  hasConfig : bool;
  remotes : list Remote;
  configPath : option string;
}.

Section WithWorld.
Variable W : World.

Definition checkInstalled (connectionId : string) : M Installed :=
  try_catch
    (result <- SSHService.exec W connectionId "rclone version 2>/dev/null | head -1" ;;
     if JS.nonEmpty (stdout result)
     then ret {| installed := true;
                 version := Some (JS.trim (JS.replaceFirst "rclone " EmptyString
                                                            (stdout result))) |}
     else ret {| installed := false; version := None |})
    (fun _ => ret {| installed := false; version := None |}).

Definition install (connectionId : string) : M Result :=
  try_catch
    (result <- SSHService.exec W connectionId installCommand ;;
     (if JS.nonEmpty (stderr result) && JS.includes "error" (stderr result)
      then SSHService.exec W connectionId userInstall ;;;
           SSHService.exec W connectionId addToPath ;;;
           ret tt
      else ret tt) ;;;
     check <- checkInstalled connectionId ;;
     if installed check
     then ret ok
     else ret (failure "Installation verification failed"))
    (fun message => ret (failure message)).

Definition copyConfigToServer (connectionId : string) : M Result :=
  try_catch
    (match w_localConfig W with
     | None => ret (failure "Local rclone config not found. Please configure rclone first.")
     | Some configContent =>
         SSHService.exec W connectionId "mkdir -p ~/.config/rclone" ;;;
         let escapedContent := JS.replaceQuotes "'\''" configContent in
         SSHService.exec W connectionId
           ("echo '" +:+ escapedContent +:+ "' > ~/.config/rclone/rclone.conf") ;;;
         ret ok
     end)
    (fun message => ret (failure message)).

(** The chunk handler shared by [upload] and [download]. *)
Definition parseProgress (onProgress : Z -> string -> M unit) (data : string) : M unit :=
  match JS.matchPercent data None with
  | Some percent => onProgress percent (default EmptyString (w_matchSpeed W data))
  | None => ret tt
  end.

Definition upload (connectionId sourcePath remoteName remotePath : string)
    (onProgress : Z -> string -> M unit) : M Result :=
  try_catch
    (SSHService.execWithProgress W connectionId
       (uploadCommand sourcePath remoteName remotePath)
       (parseProgress onProgress) ;;;
     ret ok)
    (fun message => ret (failure message)).

Definition download (connectionId remoteName remotePath destPath : string)
    (onProgress : Z -> string -> M unit) : M Result :=
  try_catch
    (SSHService.execWithProgress W connectionId
       (downloadCommand remoteName remotePath destPath)
       (parseProgress onProgress) ;;;
     ret ok)
    (fun message => ret (failure message)).

Definition delete (connectionId remoteName remotePath : string) : M Result :=
  try_catch
    (result <- SSHService.exec W connectionId (deleteCommand remoteName remotePath) ;;
     if JS.nonEmpty (stderr result) && JS.includes "error" (stderr result)
     then ret (failure (stderr result))
     else ret ok)
    (fun message => ret (failure message)).

Definition noConfig : ServerConfig :=
  {| hasConfig := false; remotes := []; configPath := None |}.

Definition checkServerConfig (connectionId : string) : M ServerConfig :=
  try_catch
    (configCheck <- SSHService.exec W connectionId catConfigCommand ;;
     if negb (JS.nonEmpty (stdout configCheck))
        || negb (JS.nonEmpty (JS.trim (stdout configCheck)))
     then ret noConfig
     else ret {| hasConfig := true;
                 remotes := parseRemotes (stdout configCheck);
                 configPath := Some "~/.config/rclone/rclone.conf" |})
    (fun _ => ret noConfig).

(** The local configuration file is read as in [copyConfigToServer]. *)
Definition listLocalRemotes : list Remote :=
  match w_localConfig W with
  | None => []
  | Some content => parseRemotes content
  end.

(** [result.stdout.split('\n').filter(Boolean)] *)
Definition list (connectionId remoteName remotePath : string) : M (list string) :=
  try_catch
    (result <- SSHService.exec W connectionId (listCommand remoteName remotePath) ;;
     ret (filter (fun l => JS.nonEmpty l = true)
                 (JS.splitOn (ascii_of_nat 10) (stdout result))))
    (fun _ => ret []).

End WithWorld.

End RcloneService.

(* ===================================================================== *)
(** * TransferService (transfer.service.ts): the orchestrator            *)
(* ===================================================================== *)

Module TransferService.

Definition remoteName : string := "gdrive".

(** ** Field updates of the mutable objects *)

Definition withStatus (st : TransferItemStatus) (i : TransferItem) : TransferItem :=
  {| item_id := item_id i; fileName := fileName i; sourcePath := sourcePath i;
     drivePath := drivePath i; destinationPath := destinationPath i;
     status := st; progress := progress i; speed := speed i; error := error i;
     createdAt := createdAt i; completedAt := completedAt i;
     retryCount := retryCount i |}.

Definition withProgress (p : Z) (i : TransferItem) : TransferItem :=
  {| item_id := item_id i; fileName := fileName i; sourcePath := sourcePath i;
     drivePath := drivePath i; destinationPath := destinationPath i;
     status := status i; progress := p; speed := speed i; error := error i;
     createdAt := createdAt i; completedAt := completedAt i;
     retryCount := retryCount i |}.

Definition withSpeed (v : option string) (i : TransferItem) : TransferItem :=
  {| item_id := item_id i; fileName := fileName i; sourcePath := sourcePath i;
     drivePath := drivePath i; destinationPath := destinationPath i;
     status := status i; progress := progress i; speed := v; error := error i;
     createdAt := createdAt i; completedAt := completedAt i;
     retryCount := retryCount i |}.

Definition withError (e : option string) (i : TransferItem) : TransferItem :=
  {| item_id := item_id i; fileName := fileName i; sourcePath := sourcePath i;
     drivePath := drivePath i; destinationPath := destinationPath i;
     status := status i; progress := progress i; speed := speed i; error := e;
     createdAt := createdAt i; completedAt := completedAt i;
     retryCount := retryCount i |}.

Definition withCompletedAt (t : option Z) (i : TransferItem) : TransferItem :=
  {| item_id := item_id i; fileName := fileName i; sourcePath := sourcePath i;
     drivePath := drivePath i; destinationPath := destinationPath i;
     status := status i; progress := progress i; speed := speed i; error := error i;
     createdAt := createdAt i; completedAt := t;
     retryCount := retryCount i |}.

Definition withRetryCount (n : Z) (i : TransferItem) : TransferItem :=
  {| item_id := item_id i; fileName := fileName i; sourcePath := sourcePath i;
     drivePath := drivePath i; destinationPath := destinationPath i;
     status := status i; progress := progress i; speed := speed i; error := error i;
     createdAt := createdAt i; completedAt := completedAt i;
     retryCount := n |}.

Definition withItems (l : list TransferItem) (j : TransferJob) : TransferJob :=
  {| job_id := job_id j; job_name := job_name j; sourceServerId := sourceServerId j;
     destinationServerIds := destinationServerIds j; sourceFolder := sourceFolder j;
     destinationFolder := destinationFolder j; driveFolder := driveFolder j;
     zipSizeLimitMB := zipSizeLimitMB j; deleteAfterUpload := deleteAfterUpload j;
     deleteFromDrive := deleteFromDrive j; autoExtract := autoExtract j;
     items := l; zipInfo := zipInfo j |}.

Definition withZipInfo (z : option ZipInfo) (j : TransferJob) : TransferJob :=
  {| job_id := job_id j; job_name := job_name j; sourceServerId := sourceServerId j;
     destinationServerIds := destinationServerIds j; sourceFolder := sourceFolder j;
     destinationFolder := destinationFolder j; driveFolder := driveFolder j;
     zipSizeLimitMB := zipSizeLimitMB j; deleteAfterUpload := deleteAfterUpload j;
     deleteFromDrive := deleteFromDrive j; autoExtract := autoExtract j;
     items := items j; zipInfo := z |}.

Definition withActualParts (n : Z) (z : ZipInfo) : ZipInfo :=
  {| needsSplit := needsSplit z; limitMB := limitMB z; baseZipName := baseZipName z;
     baseZipPath := baseZipPath z; totalBytes := totalBytes z;
     actualParts := Some n |}.

Definition withSlot (st : DestStatus) (p : Z) (e : option string)
    (d : FileDestinationProgress) : FileDestinationProgress :=
  {| serverId := serverId d; serverName := serverName d; dstatus := st;
     dprogress := p; derror := e |}.

Definition withDestinations (l : list FileDestinationProgress)
    (f : UploadedFileInfo) : UploadedFileInfo :=
  {| file_id := file_id f; ufileName := ufileName f; udrivePath := udrivePath f;
     uploadedAt := uploadedAt f; usize := usize f; destinations := l |}.

(** A new reference for a job object. *)
Definition alloc (job : TransferJob) : M nat :=
  fun s => let r := fresh (dom (heap s)) in
           (inr r, set_heap (fun h => <[r := job]> h) s).

Definition readJob (r : nat) : M TransferJob :=
  o <- gets (fun s => heap s !! r) ;;
  match o with
  | Some job => ret job
  | None => throw "TypeError: the job object is not allocated"
  end.

Definition readItem (r idx : nat) : M TransferItem :=
  job <- readJob r ;;
  match items job !! idx with
  | Some item => ret item
  | None => throw "TypeError: the item object is not allocated"
  end.

(** An assignment to fields of the job object [r]. *)
Definition updJob (r : nat) (f : TransferJob -> TransferJob) : M unit :=
  modify (set_heap (fun h => alter f r h)).

(** An assignment to fields of the item object [(r, idx)]. *)
Definition updItem (r idx : nat) (f : TransferItem -> TransferItem) : M unit :=
  updJob r (fun job => withItems (alter f idx (items job)) job).

(** ** Naming and progress arithmetic of [processItem] *)

(** [String(i + 1).padStart(3, '0')] *)
Definition partNum (i : nat) : string :=
  JS.padStart 3 "0" (JS.toString (Z.of_nat i + 1)).

Definition partFileName (baseName : string) (nBatches i : nat) : string :=
  if (nBatches =? 1)%nat
  then baseName +:+ ".zip"
  else baseName +:+ ".part" +:+ partNum i +:+ ".zip".

(** [Math.round((i / batches.length) * 100)] *)
Definition partStartPercent (i nBatches : nat) : Z :=
  JS.round ((inject_Z (Z.of_nat i) / inject_Z (Z.of_nat nBatches)) * 100)%Q.

(** [Math.round(((i + percent / 100) / batches.length) * 100)] *)
Definition overallPercent (i nBatches : nat) (percent : Z) : Z :=
  JS.round (((inject_Z (Z.of_nat i) + inject_Z percent / 100)
             / inject_Z (Z.of_nat nBatches)) * 100)%Q.

(** ** Remote commands *)

Definition duCommand (folder : string) : string :=
  "du -sb " +:+ JS.quoted folder +:+ " | cut -f1".

Definition findCommand (folder : string) : string :=
  "find " +:+ JS.quoted folder
  +:+ " -type f -exec stat --printf='%s %n\n' {} \; 2>/dev/null".

Definition fileListCommand (fileListPath fileListContent : string) : string :=
  "cat > " +:+ JS.quoted fileListPath +:+ " << 'FILELIST'" +:+ JS.nl
  +:+ fileListContent +:+ JS.nl +:+ "FILELIST".

Definition zipListCommand (folder partPath fileListPath : string) : string :=
  "cd " +:+ JS.quoted folder +:+ " && zip -rv " +:+ JS.quoted partPath
  +:+ " -@ < " +:+ JS.quoted fileListPath +:+ " 2>&1".

Definition zipAllCommand (folder zipPath : string) : string :=
  "cd " +:+ JS.quoted folder +:+ " && zip -rv " +:+ JS.quoted zipPath +:+ " . 2>&1".

Definition rmCommand (path : string) : string := "rm -f " +:+ JS.quoted path.

Definition statCommand (path : string) : string := "stat -c%s " +:+ JS.quoted path.

Definition unzipToCommand (archive folder : string) : string :=
  "unzip -o " +:+ JS.quoted archive +:+ " -d " +:+ JS.quoted folder.

Definition mvCommand (from to : string) : string :=
  "mv " +:+ JS.quoted from +:+ " " +:+ JS.quoted to.

Definition bulkUnzipCommand (folder baseName : string) : string :=
  "cd " +:+ JS.quoted folder +:+ " && unzip -o " +:+ JS.quoted (baseName +:+ ".part*.zip").

Definition bulkRmCommand (folder baseName : string) : string :=
  "cd " +:+ JS.quoted folder +:+ " && rm " +:+ JS.quoted (baseName +:+ ".part*.zip").

Definition pkillCommand (pattern : string) : string :=
  "pkill -f " +:+ JS.quoted pattern +:+ " 2>/dev/null || true".

(** ** The polling schedule of the download worker

    The upload worker and the download worker of [startJob] run
    interleaved.  What the download worker reads at the head of each
    iteration of its loop is given by a [Tick]: the upload worker is still
    running and has published its first [k] parts, or it has finished, or
    the operator has just asked for cancellation. *)
Inductive Tick :=
  | PartsVisible (k : nat)
  | UploadComplete
  | CancelRequested.

Inductive LoopExit := ExitCancelled | ExitAllProcessed.

(** How far the worker got with the ticks it was given. *)
Inductive WorkerResult :=
  | StillPolling
  | Finished (reason : LoopExit) (processedFiles : gset string).

Section WithWorld.
Variable W : World.

Definition now : M Z := k <- tick ;; ret (w_now W k).

Definition generateId : M string :=
  k <- tick ;;
  ret ("item_" +:+ JS.toString (w_now W k) +:+ "_" +:+ w_random W k).

Definition broadcastProgress (jobId itemId : string) (progress : Z)
    (st : TransferItemStatus) : M unit :=
  emit (EvProgress jobId itemId progress st).

Definition broadcastFileUploaded (jobId : string) (fileInfo : UploadedFileInfo) : M unit :=
  modify (set_uploadedFiles (fun m =>
    let files := default [] (m !! jobId) in
    match ConfigService.findIndex
            (fun f => String.eqb (file_id f) (file_id fileInfo)) files with
    | Some existingIndex => <[jobId := <[existingIndex := fileInfo]> files]> m
    | None => <[jobId := files ++ [fileInfo]]> m
    end)) ;;;
  emit (EvFileUploaded jobId fileInfo).

(** The update of [fileInfo.destinations.find(d => d.serverId === serverId)]. *)
Fixpoint updateSlot (sid : string) (st : DestStatus) (p : Z) (e : option string)
    (l : list FileDestinationProgress) : list FileDestinationProgress :=
  match l with
  | [] => []
  | d :: l' =>
      if String.eqb (serverId d) sid
      then withSlot st p (match e with
                          | Some (String a m) => Some (String a m)
                          | _ => derror d
                          end) d :: l'
      else d :: updateSlot sid st p e l'
  end.

Definition broadcastFileDestinationProgress (jobId fileId sid : string)
    (st : DestStatus) (p : Z) (e : option string) : M unit :=
  files <- gets (fun s => default [] (uploadedFiles s !! jobId)) ;;
  match ConfigService.findIndex (fun f => String.eqb (file_id f) fileId) files,
        List.find (fun f => String.eqb (file_id f) fileId) files with
  | Some i, Some fileInfo =>
      let fileInfo' := withDestinations (updateSlot sid st p e (destinations fileInfo))
                                        fileInfo in
      modify (set_uploadedFiles (fun m =>
                alter (fun fs => <[i := fileInfo']> fs) jobId m)) ;;;
      emit (EvFileProgress jobId fileInfo')
  | _, _ => ret tt
  end.

Definition prepareDestinationServer (job : TransferJob) (destServerId : string) : M unit :=
  destServer <- ConfigService.getServerById destServerId ;;
  match destServer with
  | None => ret tt
  | Some destServer =>
      try_catch
        (SSHService.connect W destServer ;;;
         rcloneCheck <- RcloneService.checkInstalled W (srv_id destServer) ;;
         (if negb (RcloneService.installed rcloneCheck)
          then RcloneService.install W (srv_id destServer) ;;; ret tt
          else ret tt) ;;;
         RcloneService.copyConfigToServer W (srv_id destServer) ;;;
         ret tt)
        (fun e => throw e)
  end.

(** The fields of [job] that the download side reads ([id],
    [destinationServerIds], [destinationFolder], [autoExtract],
    [deleteFromDrive], [_zipInfo.needsSplit], [_zipInfo.baseZipName]) are not
    assigned after [prepareSourceFiles]; the download side takes the job as
    it is when the download worker starts. *)
Definition downloadFileToDestination (job : TransferJob) (file : UploadedFileInfo)
    (destServerId : string) : M unit :=
  destServer <- ConfigService.getServerById destServerId ;;
  match destServer with
  | None => ret tt
  | Some destServer =>
      try_catch
        (broadcastFileDestinationProgress (job_id job) (file_id file) destServerId
           DDownloading 0 None ;;;
         let downloadPath := "/tmp/" +:+ ufileName file in
         RcloneService.download W (srv_id destServer) remoteName (udrivePath file)
           downloadPath
           (fun percent _ =>
              broadcastFileDestinationProgress (job_id job) (file_id file)
                destServerId DDownloading percent None) ;;;
         let isSplitPart := default false (needsSplit <$> zipInfo job) in
         (if autoExtract job && negb isSplitPart
          then
            broadcastFileDestinationProgress (job_id job) (file_id file)
              destServerId DExtracting 100 None ;;;
            SSHService.exec W (srv_id destServer)
              (unzipToCommand downloadPath (destinationFolder job)) ;;;
            SSHService.exec W (srv_id destServer) (rmCommand downloadPath) ;;;
            ret tt
          else
            let destZipPath := destinationFolder job +:+ "/" +:+ ufileName file in
            SSHService.exec W (srv_id destServer)
              (mvCommand downloadPath destZipPath) ;;;
            ret tt) ;;;
         (if deleteFromDrive job
          then RcloneService.delete W (srv_id destServer) remoteName
                 (udrivePath file) ;;; ret tt
          else ret tt) ;;;
         broadcastFileDestinationProgress (job_id job) (file_id file) destServerId
           DCompleted 100 None)
        (fun errorMsg =>
           broadcastFileDestinationProgress (job_id job) (file_id file)
             destServerId DFailed 0 (Some errorMsg))
  end.

Definition newItem (id : string) (job : TransferJob) (baseZipName baseZipPath : string)
    (created : Z) : TransferItem :=
  {| item_id := id;
     fileName := baseZipName +:+ ".zip";
     sourcePath := baseZipPath;
     drivePath := driveFolder job +:+ "/" +:+ baseZipName +:+ ".zip";
     destinationPath := destinationFolder job;
     status := Pending;
     progress := 0;
     speed := None;
     error := None;
     createdAt := created;
     completedAt := None;
     retryCount := 0 |}.

(** Sets [job._zipInfo] and returns the items. *)
Definition prepareSourceFiles (r : nat) (connectionId : string) : M (list TransferItem) :=
  job <- readJob r ;;
  sizeResult <- SSHService.exec W connectionId (duCommand (sourceFolder job)) ;;
  let totalBytes := JS.parseIntOr0 (stdout sizeResult) in
  let limitBytes := zipSizeLimitMB job * 1024 * 1024 in
  timestamp <- now ;;
  let baseZipName := "transfer_" +:+ JS.toString timestamp in
  let baseZipPath := "/tmp/" +:+ baseZipName +:+ ".zip" in
  updJob r (withZipInfo (Some {| needsSplit := totalBytes >? limitBytes;
                                 limitMB := zipSizeLimitMB job;
                                 baseZipName := baseZipName;
                                 baseZipPath := baseZipPath;
                                 totalBytes := totalBytes;
                                 actualParts := None |})) ;;;
  if totalBytes <=? limitBytes
  then
    id <- generateId ;;
    created <- now ;;
    ret [newItem id job baseZipName baseZipPath created]
  else
    id <- generateId ;;
    created <- now ;;
    ret [newItem id job baseZipName baseZipPath created].

(** The fresh [destinations] of a part that has just been uploaded. *)
Definition pendingSlot (destId : string) : M FileDestinationProgress :=
  destServer <- ConfigService.getServerById destId ;;
  ret {| serverId := destId;
         serverName := match destServer with
                       | Some srv => if JS.nonEmpty (srv_name srv)
                                     then srv_name srv else "Unknown"
                       | None => "Unknown"
                       end;
         dstatus := DPending;
         dprogress := 0;
         derror := None |}.

Fixpoint pendingSlots (destIds : list string) : M (list FileDestinationProgress) :=
  match destIds with
  | [] => ret []
  | d :: ds => x <- pendingSlot d ;; xs <- pendingSlots ds ;; ret (x :: xs)
  end.

(** [stat -c%s] of an archive; 0 when the command is rejected. *)
Definition zipSizeOf (connectionId path : string) : M Z :=
  try_catch
    (sizeResult <- SSHService.exec W connectionId (statCommand path) ;;
     ret (JS.parseIntOr0 (stdout sizeResult)))
    (fun _ => ret 0).

(** The listing of the source folder, parsed into [files]. *)
Definition parseListing (sourceFolder out : string) : list Planner.FileEntry :=
  omap (Planner.parseLine sourceFolder)
       (filter (fun l => JS.nonEmpty (JS.trim l) = true) (JS.splitOn (ascii_of_nat 10) out)).

(** The progress callback of the upload of batch [i], called with the
    percentage and the speed that rclone reports for the part. *)
Definition onPartProgress (r idx : nat) (job : TransferJob) (itemId : string)
    (nBatches i : nat) (percent : Z) (speed : string) : M unit :=
  let overallPercent := overallPercent i nBatches percent in
  updItem r idx (fun it => withSpeed (Some speed) (withProgress overallPercent it)) ;;;
  broadcastProgress (job_id job) itemId overallPercent Uploading.

(** Zip, upload and publish batch [i] of the split path. *)
Definition processBatch (r idx : nat) (job : TransferJob) (sourceId itemId baseName : string)
    (nBatches i : nat) (batch : list Planner.FileEntry) : M unit :=
  let partNum := partNum i in
  let partFileName := partFileName baseName nBatches i in
  let partPath := "/tmp/" +:+ partFileName in
  let drivePath := driveFolder job +:+ "/" +:+ partFileName in
  let fileListPath := "/tmp/" +:+ baseName +:+ "_batch" +:+ partNum +:+ ".txt" in
  let fileListContent := JS.join JS.nl (map Planner.relativePath batch) in
  SSHService.exec W sourceId (fileListCommand fileListPath fileListContent) ;;;
  SSHService.execWithProgress W sourceId
    (zipListCommand (sourceFolder job) partPath fileListPath) (fun _ => ret tt) ;;;
  SSHService.exec W sourceId (rmCommand fileListPath) ;;;
  zipSize <- zipSizeOf sourceId partPath ;;
  updItem r idx (withStatus Uploading) ;;;
  broadcastProgress (job_id job) itemId (partStartPercent i nBatches) Uploading ;;;
  RcloneService.upload W sourceId partPath remoteName drivePath
    (onPartProgress r idx job itemId nBatches i) ;;;
  uploaded <- now ;;
  slots <- pendingSlots (destinationServerIds job) ;;
  broadcastFileUploaded (job_id job)
    {| file_id := itemId +:+ "_part" +:+ partNum;
       ufileName := partFileName;
       udrivePath := drivePath;
       uploadedAt := uploaded;
       usize := w_formatBytes W zipSize;
       destinations := slots |} ;;;
  if deleteAfterUpload job
  then SSHService.exec W sourceId (rmCommand partPath) ;;; ret tt
  else ret tt.

(** The streaming path of [processItem] ([needsSplit] is true). *)
Definition processSplit (r idx : nat) (job : TransferJob) (sourceId itemId : string)
    (limitBytes : Z) : M unit :=
  filesResult <- SSHService.exec W sourceId (findCommand (sourceFolder job)) ;;
  let files := parseListing (sourceFolder job) (stdout filesResult) in
  let batches := Planner.splitBatches limitBytes files in
  updJob r (fun j => withZipInfo
                       (withActualParts (Z.of_nat (length batches)) <$> zipInfo j) j) ;;;
  let baseName := default EmptyString (baseZipName <$> zipInfo job) in
  forEachI batches (processBatch r idx job sourceId itemId baseName (length batches)) O.

(** The single-archive path of [processItem]. *)
Definition processSingle (r idx : nat) (job : TransferJob) (sourceId : string)
    (item : TransferItem) : M unit :=
  SSHService.execWithProgress W sourceId
    (zipAllCommand (sourceFolder job) (sourcePath item)) (fun _ => ret tt) ;;;
  zipSize <- zipSizeOf sourceId (sourcePath item) ;;
  updItem r idx (fun it => withProgress 0 (withStatus Uploading it)) ;;;
  broadcastProgress (job_id job) (item_id item) 0 Uploading ;;;
  RcloneService.upload W sourceId (sourcePath item) remoteName (drivePath item)
    (fun percent speed =>
       updItem r idx (fun it => withSpeed (Some speed) (withProgress percent it)) ;;;
       broadcastProgress (job_id job) (item_id item) percent Uploading) ;;;
  uploaded <- now ;;
  slots <- pendingSlots (destinationServerIds job) ;;
  broadcastFileUploaded (job_id job)
    {| file_id := item_id item;
       ufileName := fileName item;
       udrivePath := drivePath item;
       uploadedAt := uploaded;
       usize := w_formatBytes W zipSize;
       destinations := slots |} ;;;
  if deleteAfterUpload job
  then SSHService.exec W sourceId (rmCommand (sourcePath item)) ;;; ret tt
  else ret tt.

(** [processItem(job, item)], on the job object [r] and its item [idx]. *)
Definition processItem (r idx : nat) : M unit :=
  job <- readJob r ;;
  item <- readItem r idx ;;
  try_catch
    (sourceServer <- ConfigService.getServerById (sourceServerId job) ;;
     match sourceServer with
     | None => ret tt
     | Some sourceServer =>
         let needsSplit := default false (needsSplit <$> zipInfo job) in
         let limitMB := JS.numOr (default 0 (limitMB <$> zipInfo job))
                                 (zipSizeLimitMB job) in
         let limitBytes := limitMB * 1024 * 1024 in
         updItem r idx (withStatus Zipping) ;;;
         broadcastProgress (job_id job) (item_id item) 0 Zipping ;;;
         (if needsSplit
          then processSplit r idx job (srv_id sourceServer) (item_id item) limitBytes
          else processSingle r idx job (srv_id sourceServer) item) ;;;
         updItem r idx (fun it => withProgress 100 (withStatus Uploaded it)) ;;;
         broadcastProgress (job_id job) (item_id item) 100 Uploaded ;;;
         saved <- readJob r ;;
         ConfigService.saveJob saved
     end)
    (fun message =>
       updItem r idx (fun it => withError (Some message) (withStatus Failed it)) ;;;
       failed <- readItem r idx ;;
       broadcastProgress (job_id job) (item_id item) (progress failed) Failed).

Definition setPaused (b : bool) (js : JobState) : JobState :=
  {| js_job := js_job js; isPaused := b; isCancelled := isCancelled js |}.

Definition setCancelled (js : JobState) : JobState :=
  {| js_job := js_job js; isPaused := isPaused js; isCancelled := true |}.

Definition pauseJob (jobId : string) : M unit :=
  modify (set_activeJobs (alter (setPaused true) jobId)).

Definition resumeJob (jobId : string) : M unit :=
  modify (set_activeJobs (alter (setPaused false) jobId)).

Definition cancelJob (jobId : string) : M unit :=
  jobState <- gets (fun s => activeJobs s !! jobId) ;;
  match jobState with
  | None => ret tt
  | Some jobState =>
      modify (set_activeJobs (alter setCancelled jobId)) ;;;
      let job := js_job jobState in
      try_catch
        (if JS.nonEmpty (sourceServerId job)
         then SSHService.exec W (sourceServerId job) (pkillCommand "zip.*transfer_") ;;;
              SSHService.exec W (sourceServerId job) (pkillCommand "rclone.*copyto") ;;;
              ret tt
         else ret tt)
        (fun _ => ret tt) ;;;
      forEach (destinationServerIds job)
        (fun destId =>
           try_catch
             (SSHService.exec W destId (pkillCommand "rclone.*copyto") ;;;
              SSHService.exec W destId (pkillCommand "unzip") ;;;
              ret tt)
             (fun _ => ret tt))
  end.

(** The upload worker of [startJob].  A paused job waits at the head of the
    loop until it is resumed; the wait is not modelled. *)
Definition uploadWorker (r : nat) (jobId : string) (items : list TransferItem) : M unit :=
  foldM items
    (fun _ '(i, stop) =>
       if stop : bool then ret (S i, true)
       else
         jobState <- gets (fun s => activeJobs s !! jobId) ;;
         match jobState with
         | None => ret (S i, true)
         | Some js =>
             if isCancelled js then ret (S i, true)
             else
               processItem r i ;;;
               item <- readItem r i ;;
               (match status item with
                | Uploaded =>
                    modify (set_downloadQueue (fun q =>
                              <[jobId := default [] (q !! jobId) ++ [item]]> q))
                | _ => ret tt
                end) ;;;
               ret (S i, false)
         end)
    (O, false) ;;;
  ret tt.

(** One part on every destination, then [processedFiles.add(file.id)]. *)
Definition processFile (job : TransferJob) (file : UploadedFileInfo)
    (processedFiles : gset string) : M (gset string) :=
  promiseAll (destinationServerIds job) (downloadFileToDestination job file) ;;;
  ret (processedFiles ∪ {[file_id file]}).

(** The [while (true)] loop of the download worker, one iteration per tick. *)
Fixpoint downloadLoop (job : TransferJob) (ticks : list Tick)
    (processedFiles : gset string) : M (option LoopExit * gset string) :=
  match ticks with
  | [] => ret (None, processedFiles)
  | t :: ticks' =>
      (match t with CancelRequested => cancelJob (job_id job) | _ => ret tt end) ;;;
      jobState <- gets (fun s => activeJobs s !! job_id job) ;;
      if match jobState with None => true | Some js => isCancelled js end
      then ret (Some ExitCancelled, processedFiles)
      else
        published <- gets (fun s => default [] (uploadedFiles s !! job_id job)) ;;
        let uploadComplete := match t with UploadComplete => true | _ => false end in
        let uploadedFiles := match t with
                             | PartsVisible k => firstn k published
                             | _ => published
                             end in
        if uploadComplete
           && (length uploadedFiles <=? size processedFiles)%nat
           && (0 <? length uploadedFiles)%nat
        then ret (Some ExitAllProcessed, processedFiles)
        else
          let pendingFiles :=
            filter (fun f => file_id f ∉ processedFiles) uploadedFiles in
          processedFiles' <-
            foldM pendingFiles (processFile job) processedFiles ;;
          downloadLoop job ticks' processedFiles'
  end.

(** Step 4b of [startJob]: one unzip over all parts on a destination. *)
Definition bulkExtractOn (job : TransferJob) (baseName destId : string) : M unit :=
  destServer <- ConfigService.getServerById destId ;;
  match destServer with
  | None => ret tt
  | Some destServer =>
      try_catch
        (SSHService.exec W (srv_id destServer)
           (bulkUnzipCommand (destinationFolder job) baseName) ;;;
         SSHService.exec W (srv_id destServer)
           (bulkRmCommand (destinationFolder job) baseName) ;;;
         ret tt)
        (fun _ => ret tt)
  end.

Definition bulkExtract (job : TransferJob) : M unit :=
  if autoExtract job && default false (needsSplit <$> zipInfo job)
  then promiseAll (destinationServerIds job)
         (bulkExtractOn job (default EmptyString (baseZipName <$> zipInfo job)))
  else ret tt.

(** "Mark main item as completed". *)
Definition markCompleted (r : nat) (jobId : string) (items : list TransferItem) : M unit :=
  forEachI items
    (fun i item =>
       completed <- now ;;
       updItem r i (fun it => withCompletedAt (Some completed) (withStatus Completed it)) ;;;
       broadcastProgress jobId (item_id item) 100 Completed)
    O.

(** The download worker of [startJob], for as long as [ticks] lasts. *)
Definition downloadWorker (r : nat) (items : list TransferItem) (ticks : list Tick)
    : M WorkerResult :=
  job <- readJob r ;;
  out <- downloadLoop job ticks ∅ ;;
  match out with
  | (None, _) => ret StillPolling
  | (Some reason, processedFiles) =>
      bulkExtract job ;;;
      markCompleted r (job_id job) items ;;;
      ret (Finished reason processedFiles)
  end.

Definition register (r : nat) (job : TransferJob) : M unit :=
  modify (set_activeJobs (fun m =>
            <[job_id job := {| js_job := job; isPaused := false;
                               isCancelled := false |}]> m)) ;;;
  modify (set_downloadQueue (fun q => <[job_id job := []]> q)).

Definition unregister (jobId : string) : M unit :=
  modify (set_activeJobs (delete jobId)) ;;;
  modify (set_downloadQueue (delete jobId)) ;;;
  modify (set_uploadedFiles (delete jobId)).

(** [startJob(job)].  The result is [false] when the ticks ran out while
    the download worker was still polling: the method has not returned
    yet, and its [finally] block has not run.  The two workers are composed
    one after the other: what the upload worker sends out comes first in
    the trace, and the ticks say how much of its work each poll of the
    download worker sees.  The notification goes to the first window; one
    window is assumed to be open. *)
Definition startJob (job : TransferJob) (ticks : list Tick) : M bool :=
  r <- alloc job ;;
  register r job ;;;
  returned <-
    try_catch
      (sourceServer <- ConfigService.getServerById (sourceServerId job) ;;
       match sourceServer with
       | None => throw ("Source server not found: " +:+ sourceServerId job)
       | Some sourceServer =>
           SSHService.connect W sourceServer ;;;
           rcloneCheck <- RcloneService.checkInstalled W (srv_id sourceServer) ;;
           (if negb (RcloneService.installed rcloneCheck)
            then RcloneService.install W (srv_id sourceServer) ;;; ret tt
            else ret tt) ;;;
           RcloneService.copyConfigToServer W (srv_id sourceServer) ;;;
           items <- prepareSourceFiles r (srv_id sourceServer) ;;
           updJob r (withItems items) ;;;
           saved <- readJob r ;;
           ConfigService.saveJob saved ;;;
           promiseAll (destinationServerIds job) (prepareDestinationServer job) ;;;
           uploadWorker r (job_id job) items ;;;
           result <- downloadWorker r items ticks ;;
           match result with
           | StillPolling => ret false
           | Finished _ _ =>
               emit (EvNotification "Transfer Complete"
                       ("Job " +:+ JS.quoted (job_name job)
                        +:+ " has completed successfully.")) ;;;
               ret true
           end
       end)
      (fun _ => ret true) ;;
  if returned : bool
  then unregister (job_id job) ;;; ret true
  else ret false.

Definition retryItem (jobId itemId : string) : M unit :=
  job <- ConfigService.getJobById jobId ;;
  match job with
  | None => ret tt
  | Some job =>
      match ConfigService.findIndex (fun i => String.eqb (item_id i) itemId) (items job),
            List.find (fun i => String.eqb (item_id i) itemId) (items job) with
      | Some idx, Some item =>
          match status item with
          | Failed =>
              r <- alloc job ;;
              updItem r idx
                (fun it => withRetryCount (retryCount it + 1)
                             (withError None (withStatus Pending it))) ;;;
              processItem r idx
          | _ => ret tt
          end
      | _, _ => ret tt
      end
  end.

End WithWorld.

End TransferService.

(* ===================================================================== *)
(** * Reading a trace                                                    *)
(* ===================================================================== *)

Module Trace.

(** The file names of the parts published, in order. *)
Definition published (tr : list Event) : list string :=
  omap (fun e => match e with
                 | EvFileUploaded _ f => Some (ufileName f)
                 | _ => None
                 end) tr.

(** The commands that ran on a host, in order. *)
Definition commandsOn (id : string) (tr : list Event) : list string :=
  omap (fun e => match e with
                 | EvExec i c => if String.eqb i id then Some c else None
                 | _ => None
                 end) tr.

(** The states that a destination slot of a part went through, as
    broadcast to the windows. *)
Definition slotHistory (fileName sid : string) (tr : list Event)
  : list (DestStatus * option string) :=
  omap (fun e => match e with
                 | EvFileProgress _ f =>
                     if String.eqb (ufileName f) fileName
                     then (fun d => (dstatus d, derror d))
                            <$> List.find (fun d => String.eqb (serverId d) sid)
                                          (destinations f)
                     else None
                 | _ => None
                 end) tr.



End Trace.

(* ===================================================================== *)
(** * The stores of the windows (renderer/stores)                        *)
(* ===================================================================== *)

(** The stores are replaced as a whole by [set]: each action is a function
    from the state of its store to the next one.  An identifier that an
    action creates ([createTabId]) is an argument of the action. *)

Module TabStore.

Record DestinationConfig := {
  dest_id : string;
  dest_serverId : string;
  dest_destinationFolder : string;
  dest_rcloneConfigId : string;
}.

Record TransferConfig := {
  cfg_name : string;
  cfg_sourceServerId : string;
  cfg_sourceFolder : string;
  cfg_sourceRcloneConfigId : string;
  cfg_destinations : list DestinationConfig;
  cfg_driveFolder : string;
  cfg_driveRemoteName : string;
  cfg_zipSizeLimitMB : Z;
  cfg_deleteAfterUpload : bool;
  cfg_deleteFromDrive : bool;
  cfg_autoExtract : bool;
}.

Definition DEFAULT_TRANSFER_CONFIG : TransferConfig :=
  {| cfg_name := EmptyString;
     cfg_sourceServerId := EmptyString;
     cfg_sourceFolder := EmptyString;
     cfg_sourceRcloneConfigId := EmptyString;
     cfg_destinations := [];
     cfg_driveFolder := "rclone-transfer";
     cfg_driveRemoteName := "gdrive";
     cfg_zipSizeLimitMB := 1024;
     cfg_deleteAfterUpload := false;
     cfg_deleteFromDrive := true;
     cfg_autoExtract := true |}.

Record TransferTab := {
  tab_id : string;
  tab_name : string;
  tab_jobId : option string;
  isActive : bool;
}.

Record TabState := {
  tabs : list TransferTab;
  activeTabId : string;
  tabConfigs : gmap string TransferConfig;
}.

(** [Partial<TransferTab>] *)
Record TabUpdates := {
  upd_id : option string;
  upd_name : option string;
  upd_jobId : option string;
  upd_isActive : option bool;
}.

Definition initial (initialTabId : string) : TabState :=
  {| tabs := [{| tab_id := initialTabId; tab_name := "Transfer 1";
                 tab_jobId := None; isActive := true |}];
     activeTabId := initialTabId;
     tabConfigs := {[initialTabId := DEFAULT_TRANSFER_CONFIG]} |}.

(** [{ ...t, isActive: b }] *)
Definition withActive (b : bool) (t : TransferTab) : TransferTab :=
  {| tab_id := tab_id t; tab_name := tab_name t; tab_jobId := tab_jobId t;
     isActive := b |}.

Definition addTab (newId : string) (state : TabState) : TabState :=
  let newTab :=
    {| tab_id := newId;
       tab_name := "Transfer " +:+ JS.toString (Z.of_nat (length (tabs state)) + 1);
       tab_jobId := None;
       isActive := false |} in
  {| tabs := map (withActive false) (tabs state) ++ [withActive true newTab];
     activeTabId := tab_id newTab;
     tabConfigs := <[tab_id newTab := DEFAULT_TRANSFER_CONFIG]> (tabConfigs state) |}.

(** [newTabId] is the identifier created when the last tab is removed. *)
Definition removeTab (newTabId id : string) (state : TabState) : TabState :=
  let newTabs := filter (fun t => tab_id t <> id) (tabs state) in
  let remainingConfigs := delete id (tabConfigs state) in
  match newTabs with
  | [] =>
      {| tabs := [{| tab_id := newTabId; tab_name := "Transfer 1";
                     tab_jobId := None; isActive := true |}];
         activeTabId := newTabId;
         tabConfigs := {[newTabId := DEFAULT_TRANSFER_CONFIG]} |}
  | first :: rest =>
      if String.eqb (activeTabId state) id
      then {| tabs := withActive true first :: rest;
              activeTabId := tab_id first;
              tabConfigs := remainingConfigs |}
      else {| tabs := newTabs;
              activeTabId := activeTabId state;
              tabConfigs := remainingConfigs |}
  end.

Definition setActiveTab (id : string) (state : TabState) : TabState :=
  {| tabs := map (fun t => withActive (String.eqb (tab_id t) id) t) (tabs state);
     activeTabId := id;
     tabConfigs := tabConfigs state |}.

(** [{ ...t, ...updates }] *)
Definition merge (updates : TabUpdates) (t : TransferTab) : TransferTab :=
  {| tab_id := default (tab_id t) (upd_id updates);
     tab_name := default (tab_name t) (upd_name updates);
     tab_jobId := match upd_jobId updates with
                  | Some j => Some j
                  | None => tab_jobId t
                  end;
     isActive := default (isActive t) (upd_isActive updates) |}.

Definition updateTab (id : string) (updates : TabUpdates) (state : TabState) : TabState :=
  {| tabs := map (fun t => if String.eqb (tab_id t) id then merge updates t else t)
                 (tabs state);
     activeTabId := activeTabId state;
     tabConfigs := tabConfigs state |}.

Definition getTabConfig (id : string) (state : TabState) : TransferConfig :=
  default DEFAULT_TRANSFER_CONFIG (tabConfigs state !! id).

Definition setTabConfig (id : string) (config : TransferConfig) (state : TabState)
  : TabState :=
  {| tabs := tabs state;
     activeTabId := activeTabId state;
     tabConfigs := <[id := config]> (tabConfigs state) |}.

Definition saveSession (state : TabState) : gmap string TransferConfig :=
  tabConfigs state.

(** [{ ...state.tabConfigs, ...configs }] *)
Definition loadSession (configs : gmap string TransferConfig) (state : TabState)
  : TabState :=
  {| tabs := tabs state;
     activeTabId := activeTabId state;
     tabConfigs := configs ∪ tabConfigs state |}.

(** [tabs.find(t => t.isActive) || tabs[0]] of [TabContainer]. *)
Definition activeTab (state : TabState) : option TransferTab :=
  match List.find isActive (tabs state) with
  | Some t => Some t
  | None => head (tabs state)
  end.

End TabStore.

Module LogStore.

(** [[...state.logs.slice(-1999), entry]] *)
Definition addLog (entry : LoggerService.LogEntry) (logs : list LoggerService.LogEntry)
  : list LoggerService.LogEntry :=
  JS.sliceFrom logs (-1999) ++ [entry].

Definition clearLogs (logs : list LoggerService.LogEntry) : list LoggerService.LogEntry :=
  [].

Definition clearLogsForJob (jobId : string) (logs : list LoggerService.LogEntry)
  : list LoggerService.LogEntry :=
  filter (fun l => LoggerService.log_jobId l <> Some jobId) logs.

Definition getLogsForServer (serverId : string) (logs : list LoggerService.LogEntry)
  : list LoggerService.LogEntry :=
  filter (fun l => LoggerService.log_serverId l = Some serverId) logs.

End LogStore.

Module UploadedFilesStore.

Definition addFile (jobId : string) (file : UploadedFileInfo)
    (files : gmap string (list UploadedFileInfo)) : gmap string (list UploadedFileInfo) :=
  let jobFiles := default [] (files !! jobId) in
  match ConfigService.findIndex (fun f => String.eqb (file_id f) (file_id file)) jobFiles with
  | Some existingIndex => <[jobId := <[existingIndex := file]> jobFiles]> files
  | None => <[jobId := jobFiles ++ [file]]> files
  end.

Definition updateFile (jobId : string) (file : UploadedFileInfo)
    (files : gmap string (list UploadedFileInfo)) : gmap string (list UploadedFileInfo) :=
  let jobFiles := default [] (files !! jobId) in
  match ConfigService.findIndex (fun f => String.eqb (file_id f) (file_id file)) jobFiles with
  | Some existingIndex => <[jobId := <[existingIndex := file]> jobFiles]> files
  | None => files
  end.

Definition clearFilesForJob (jobId : string)
    (files : gmap string (list UploadedFileInfo)) : gmap string (list UploadedFileInfo) :=
  delete jobId files.

Definition getFilesForJob (jobId : string)
    (files : gmap string (list UploadedFileInfo)) : list UploadedFileInfo :=
  default [] (files !! jobId).

(** The subscriptions of [TransferPanel]: [onFileUploaded] adds the file,
    [onFileProgress] updates it. *)
Definition receive (files : gmap string (list UploadedFileInfo)) (e : Event)
  : gmap string (list UploadedFileInfo) :=
  match e with
  | EvFileUploaded jobId file => addFile jobId file files
  | EvFileProgress jobId file => updateFile jobId file files
  | _ => files
  end.

End UploadedFilesStore.

(* ===================================================================== *)
(** * The path browser (PathBrowserModal.tsx)                            *)
(* ===================================================================== *)

Module PathBrowser.


(** The part of the state of the modal that a listing updates. *)
Record Browser := {
  items : list SSHService.ListItem;
  totalItems : Z;
  hasMore : bool;
}.

(** [handleNavigate] on a directory of that name. *)
Definition navigate (currentPath name : string) : string :=
  if String.eqb currentPath "/"
  then "/" +:+ name
  else currentPath +:+ "/" +:+ name.

(** [handleGoUp] *)
Definition goUp (currentPath : string) : string :=
  JS.strOr (JS.join "/" (JS.slice (JS.splitOn "/" currentPath) 0 (-1))) "/".


(** What [loadDirectory] does with the answer. *)
Definition receive (append : bool) (result : SSHService.Listing) (b : Browser) : Browser :=
  {| items := if append then items b ++ SSHService.l_items result
              else SSHService.l_items result;
     totalItems := SSHService.total result;
     hasMore := SSHService.hasMore result |}.


End PathBrowser.

(* ===================================================================== *)
(** * A concrete installation, for running the model                     *)
(* ===================================================================== *)

Module Scenario.

Definition host (id : string) : SSHConfig :=
  {| srv_id := id; srv_name := id; srv_host := id +:+ ".example.org";
     srv_port := 22; srv_username := "ops"; srv_authType := AuthPassword;
     srv_password := Some "secret"; srv_privateKeyPath := None;
     srv_passphrase := None |}.

Definition prints (text : string) : ExecOutcome := ExecClosed [Stdout text].

(** A toy collation: by the first letter, upper and lower case alike. *)
Definition letterRank (a : string) : Z :=
  match a with
  | EmptyString => 0
  | String c _ =>
      let n := Z.of_nat (nat_of_ascii c) in
      if (97 <=? n) && (n <=? 122) then n - 32 else n
  end.

Definition collate (a b : string) : Z := letterRank a - letterRank b.

(** The remote hosts.  The size query prints [du] and the listing of the
    source folder prints [listing].  The host [dest-2] has no rclone and the
    install script does not change that: there the shell answers every
    rclone command with "command not found".  With [mvRejected], [dest-1]
    rejects every [mv]. *)
Definition remote (du listing : string) (mvRejected : bool)
    (k : nat) (id cmd : string) : ExecOutcome :=
  if String.prefix "du " cmd then prints du
  else if String.prefix "find " cmd then prints listing
  else if String.prefix "stat " cmd then prints "1400"
  else if String.prefix "rclone version" cmd
  then (if String.eqb id "dest-2" then prints EmptyString else prints "rclone v1.65.0")
  else if String.prefix "rclone " cmd && String.eqb id "dest-2"
  then prints "bash: line 1: rclone: command not found"
  else if String.prefix "rclone copyto" cmd then prints "Transferred: 50%, 1.5 MB/s"
  else if mvRejected && String.prefix "mv " cmd && String.eqb id "dest-1"
  then ExecError "Channel open failure"
  else prints EmptyString.

Definition entry (name : string) (dir : bool) : DirEntry :=
  {| filename := name; isDirectory := dir; attr_size := 4096; attr_mtime := 1700000000 |}.

(** What [readdir] answers on every host. *)
Definition folder : list DirEntry :=
  [entry "notes.txt" false; entry ".cache" true; entry "src" true;
   entry "Archive" true; entry "build.log" false].

Definition world (du listing : string) (mvRejected : bool) : World :=
  {| w_dial := fun _ _ => None;
     w_exec := remote du listing mvRejected;
     w_sftp := fun _ _ => None;
     w_fastPut := fun _ _ _ _ => None;
     w_fastGet := fun _ _ _ _ => None;
     w_readdir := fun _ _ _ => inr folder;
     w_readKey := fun _ => inr "key";
     w_now := fun k => 1700000000000 + Z.of_nat k;
     w_random := fun _ => "k3j9x2abc";
     w_localConfig := Some "[gdrive]";
     w_localeCompare := collate;
     w_formatBytes := fun z => JS.toString z +:+ " B";
     w_matchSpeed := fun _ => None |}.

Definition twoFiles : string :=
  "1500 /data/a" +:+ JS.nl +:+ "1500 /data/b" +:+ JS.nl.

(** Two files of 1500 bytes; every command is accepted. *)
Definition calm : World := world "3000" twoFiles false.

(** The same, but [dest-1] rejects every [mv]. *)
Definition flaky : World := world "3000" twoFiles true.

(** One file of 2 GiB. *)
Definition oneBigFile : World :=
  world "2147483648" ("2147483648 /data/big.iso" +:+ JS.nl) false.

Definition idle : State :=
  {| connections := ∅; activeJobs := ∅; downloadQueue := ∅; uploadedFiles := ∅;
     servers := [host "source"; host "dest-1"; host "dest-2"];
     jobs := []; heap := ∅; clock := 0; trace := [] |}.

(** A job with a limit of 0 MiB, so that every file is its own part. *)
Definition job : TransferJob :=
  {| job_id := "job-1"; job_name := "nightly"; sourceServerId := "source";
     destinationServerIds := ["dest-1"; "dest-2"];
     sourceFolder := "/data"; destinationFolder := "/srv/in"; driveFolder := "transfer";
     zipSizeLimitMB := 0; deleteAfterUpload := true; deleteFromDrive := false;
     autoExtract := true; items := []; zipInfo := None |}.

Definition connected (id : string) (s : State) : State :=
  set_connections (fun c => <[id := {| conn_id := id; conn_config := host id |}]> c) s.

(** The same job with the default limit of 1024 MiB. *)
Definition bigJob : TransferJob :=
  {| job_id := "job-1"; job_name := "nightly"; sourceServerId := "source";
     destinationServerIds := ["dest-1"; "dest-2"];
     sourceFolder := "/data"; destinationFolder := "/srv/in"; driveFolder := "transfer";
     zipSizeLimitMB := 1024; deleteAfterUpload := true; deleteFromDrive := false;
     autoExtract := true; items := []; zipInfo := None |}.

(** The job once [prepareSourceFiles] has found it too large for one
    archive. *)
Definition splitJob : TransferJob :=
  {| job_id := "job-1"; job_name := "nightly"; sourceServerId := "source";
     destinationServerIds := ["dest-1"; "dest-2"];
     sourceFolder := "/data"; destinationFolder := "/srv/in"; driveFolder := "transfer";
     zipSizeLimitMB := 0; deleteAfterUpload := true; deleteFromDrive := false;
     autoExtract := true; items := [];
     zipInfo := Some {| needsSplit := true; limitMB := 0;
                        baseZipName := "transfer_1700000000005";
                        baseZipPath := "/tmp/transfer_1700000000005.zip";
                        totalBytes := 3000; actualParts := Some 1%Z |} |}.

Definition slot (id : string) : FileDestinationProgress :=
  {| serverId := id; serverName := id; dstatus := DPending; dprogress := 0;
     derror := None |}.

Definition part1 : UploadedFileInfo :=
  {| file_id := "item-1_part001";
     ufileName := "transfer_1700000000005.part001.zip";
     udrivePath := "transfer/transfer_1700000000005.part001.zip";
     uploadedAt := 1700000000020; usize := "1400 B";
     destinations := [slot "dest-1"; slot "dest-2"] |}.

(** The job is running, both destinations are connected and the first part
    has been published. *)
Definition staged : State :=
  {| connections :=
       <["dest-1" := {| conn_id := "dest-1"; conn_config := host "dest-1" |}]>
         (<["dest-2" := {| conn_id := "dest-2"; conn_config := host "dest-2" |}]> ∅);
     activeJobs := {["job-1" := {| js_job := splitJob; isPaused := false;
                                   isCancelled := false |}]};
     downloadQueue := ∅;
     uploadedFiles := {["job-1" := [part1]]};
     servers := [host "source"; host "dest-1"; host "dest-2"];
     jobs := []; heap := {[0%nat := splitJob]}; clock := 30; trace := [] |}.

(** An archive whose upload failed, and the job that holds it in the
    store. *)
Definition failedItem : TransferItem :=
  {| item_id := "item-1"; fileName := "transfer_1700000000005.zip";
     sourcePath := "/tmp/transfer_1700000000005.zip";
     drivePath := "transfer/transfer_1700000000005.zip";
     destinationPath := "/srv/in"; status := Failed; progress := 40;
     speed := None; error := Some "Channel open failure";
     createdAt := 1700000000007; completedAt := None; retryCount := 0 |}.

Definition failedJob : TransferJob :=
  {| job_id := "job-1"; job_name := "nightly"; sourceServerId := "source";
     destinationServerIds := ["dest-1"; "dest-2"];
     sourceFolder := "/data"; destinationFolder := "/srv/in"; driveFolder := "transfer";
     zipSizeLimitMB := 1024; deleteAfterUpload := true; deleteFromDrive := false;
     autoExtract := true; items := [failedItem];
     zipInfo := Some {| needsSplit := false; limitMB := 1024;
                        baseZipName := "transfer_1700000000005";
                        baseZipPath := "/tmp/transfer_1700000000005.zip";
                        totalBytes := 3000; actualParts := None |} |}.

Definition afterFailure : State :=
  set_jobs (fun _ => [failedJob]) (connected "source" idle).

(** The state in which the job object is allocated and the source host is
    connected. *)
Definition loaded : State :=
  set_heap (fun h => <[0%nat := job]> h) (connected "source" idle).

End Scenario.

(* ===================================================================== *)
(** * Part II: verification                                              *)
(* ===================================================================== *)

(** ** The planner *)

Section PlannerFacts.
Import Planner.
Variable B : Z.

(** A batch within the limit, or a batch of one file. *)
Definition admissible (b : list FileEntry) : Prop :=
  totalSize b <= B \/ length b = 1%nat.

(** The loop invariant behind C1: what has been flushed is admissible, and
    the open batch is empty with size 0, or its recorded size is its real
    size and is within the limit. *)
Definition bounded (st : Loop) : Prop :=
  Forall admissible (batches st)
  /\ ((currentBatch st = [] /\ currentBatchSize st = 0)
      \/ (currentBatch st <> [] /\ totalSize (currentBatch st) = currentBatchSize st
          /\ currentBatchSize st <= B)).

Lemma totalSize_snoc b f : totalSize (b ++ [f]) = totalSize b + size f.
Proof.
  induction b as [|x b IH]; simpl; [lia|]. rewrite IH. lia.
Qed.

Lemma nonempty_ltb {A} (l : list A) : (0 <? length l)%nat = true <-> l <> [].
Proof.
  destruct l as [|x l]; split; intros H.
  - discriminate H.
  - exfalso. apply H. reflexivity.
  - discriminate.
  - reflexivity.
Qed.

Lemma empty_ltb {A} (l : list A) : (0 <? length l)%nat = false <-> l = [].
Proof.
  destruct l as [|x l]; split; intros H.
  - reflexivity.
  - reflexivity.
  - discriminate H.
  - discriminate H.
Qed.

Lemma bounded_start : bounded start.
Proof. split; [constructor | left; split; reflexivity]. Qed.

Lemma bounded_flush st : bounded st -> currentBatch st <> [] -> bounded (flush st).
Proof.
  intros [Hb Hc] Hne. split; simpl.
  - apply Forall_app. split; [exact Hb|]. constructor; [|constructor].
    destruct Hc as [[He _]|(_ & Ht & Hle)]; [contradiction|]. left. lia.
  - left. split; reflexivity.
Qed.

Lemma bounded_step st f : bounded st -> bounded (step B st f).
Proof.
  intros Hst. unfold step.
  destruct (size f >? B) eqn:Hbig.
  - (* an oversized file: flush what is open, emit [file] *)
    destruct (0 <? length (currentBatch st))%nat eqn:Hne.
    + apply nonempty_ltb in Hne. pose proof (bounded_flush st Hst Hne) as [Hb Hc].
      split; simpl in *.
      * apply Forall_app. split; [exact Hb|]. constructor; [right; reflexivity|constructor].
      * left. split; reflexivity.
    + destruct Hst as [Hb Hc]. split; simpl.
      * apply Forall_app. split; [exact Hb|]. constructor; [right; reflexivity|constructor].
      * exact Hc.
  - (* a file that fits in an empty batch *)
    assert (Hfit : size f <= B) by lia.
    destruct ((currentBatchSize st + size f >? B) && (0 <? length (currentBatch st))%nat)
      eqn:Hfl.
    + apply andb_true_iff in Hfl as [_ Hne]. apply nonempty_ltb in Hne.
      pose proof (bounded_flush st Hst Hne) as [Hb _].
      split; simpl in *; [exact Hb|].
      right. split; [discriminate|]. split; lia.
    + destruct Hst as [Hb Hc]. split; simpl; [exact Hb|].
      right. split; [now destruct (currentBatch st)|].
      rewrite totalSize_snoc.
      destruct Hc as [[He Hz]|(Hne & Ht & Hle)].
      * rewrite He, Hz. simpl. lia.
      * apply andb_false_iff in Hfl as [Hfl|Hfl].
        -- split; lia.
        -- apply empty_ltb in Hfl. contradiction.
Qed.

Lemma bounded_fold files : forall st, bounded st -> bounded (fold_left (step B) files st).
Proof.
  induction files as [|f files IH]; intros st Hst; simpl; [exact Hst|].
  apply IH, bounded_step, Hst.
Qed.

(** The list of flushed batches only grows. *)
Lemma batches_step_mono st f b : In b (batches st) -> In b (batches (step B st f)).
Proof.
  intros Hin. unfold step.
  destruct (size f >? B); simpl.
  - destruct (0 <? length (currentBatch st))%nat; simpl;
      repeat (apply in_or_app; left); exact Hin.
  - destruct ((currentBatchSize st + size f >? B) && (0 <? length (currentBatch st))%nat);
      simpl; [apply in_or_app; left|]; exact Hin.
Qed.

Lemma batches_fold_mono files : forall st b,
  In b (batches st) -> In b (batches (fold_left (step B) files st)).
Proof.
  induction files as [|f files IH]; intros st b Hin; simpl; [exact Hin|].
  apply IH, batches_step_mono, Hin.
Qed.

Lemma oversized_step st f : size f > B -> In [f] (batches (step B st f)).
Proof.
  intros Hbig. unfold step.
  replace (size f >? B) with true by (symmetry; apply Z.gtb_lt; lia).
  simpl. apply in_or_app. right. left. reflexivity.
Qed.

Lemma oversized_fold files : forall st f,
  In f files -> size f > B -> In [f] (batches (fold_left (step B) files st)).
Proof.
  induction files as [|x files IH]; intros st f Hin Hbig; simpl; [destruct Hin|].
  destruct Hin as [->|Hin].
  - apply batches_fold_mono, oversized_step, Hbig.
  - apply IH; assumption.
Qed.

(** The invariant behind C2: flushed batches and the open one, in order,
    are the files read so far; no flushed batch is empty. *)
Lemma concat_step st f :
  concat (batches (step B st f)) ++ currentBatch (step B st f)
  = (concat (batches st) ++ currentBatch st) ++ [f].
Proof.
  unfold step.
  destruct (size f >? B).
  - destruct (0 <? length (currentBatch st))%nat eqn:Hne; simpl.
    + rewrite !concat_app. simpl. rewrite !app_nil_r. reflexivity.
    + apply empty_ltb in Hne. rewrite Hne, concat_app. simpl.
      rewrite !app_nil_r. reflexivity.
  - destruct ((currentBatchSize st + size f >? B) && (0 <? length (currentBatch st))%nat);
      simpl.
    + rewrite concat_app. simpl. rewrite !app_nil_r. reflexivity.
    + rewrite app_assoc. reflexivity.
Qed.

Lemma concat_fold files : forall st,
  let st' := fold_left (step B) files st in
  concat (batches st') ++ currentBatch st' = (concat (batches st) ++ currentBatch st) ++ files.
Proof.
  induction files as [|f files IH]; intros st; simpl.
  - rewrite app_nil_r. reflexivity.
  - rewrite IH, concat_step, <- app_assoc. reflexivity.
Qed.

Lemma nonempty_step st f :
  Forall (fun b => b <> []) (batches st) ->
  Forall (fun b => b <> []) (batches (step B st f)).
Proof.
  intros Hb. unfold step.
  destruct (size f >? B).
  - destruct (0 <? length (currentBatch st))%nat eqn:Hne; simpl.
    + apply nonempty_ltb in Hne.
      apply Forall_app; split; [apply Forall_app; split; [exact Hb|]|].
      * constructor; [exact Hne|constructor].
      * constructor; [discriminate|constructor].
    + apply Forall_app; split; [exact Hb|]. constructor; [discriminate|constructor].
  - destruct ((currentBatchSize st + size f >? B) && (0 <? length (currentBatch st))%nat)
      eqn:Hfl; simpl; [|exact Hb].
    apply andb_true_iff in Hfl as [_ Hne]. apply nonempty_ltb in Hne.
    apply Forall_app; split; [exact Hb|]. constructor; [exact Hne|constructor].
Qed.

Lemma nonempty_fold files : forall st,
  Forall (fun b => b <> []) (batches st) ->
  Forall (fun b => b <> []) (batches (fold_left (step B) files st)).
Proof.
  induction files as [|f files IH]; intros st Hb; simpl; [exact Hb|].
  apply IH, nonempty_step, Hb.
Qed.

End PlannerFacts.

(** Scenario 3 of the specification: files of 800 MiB, 2 GiB and 100 MiB
    under a limit of 1024 MiB give the batches [a], [b], [c]. *)
Example oversized_file_in_the_middle :
  let MiB := 1024 * 1024 in
  let file name n := {| Planner.size := n * MiB; Planner.path := "/data/" +:+ name;
                        Planner.relativePath := name |} in
  map (map Planner.relativePath)
      (Planner.splitBatches (1024 * MiB) [file "a" 800; file "b" 2048; file "c" 100])
  = [["a"]; ["b"]; ["c"]].
Proof. reflexivity. Qed.

(** C1.  Whatever the list of files and the limit [B], every batch that the
    splitting loop produces has total size at most [B] or holds exactly one
    file, and a file larger than [B] is a batch by itself. *)
Theorem C1_batches_within_limit_or_singleton (B : Z) (files : list Planner.FileEntry) :
  Forall (fun b => Planner.totalSize b <= B \/ length b = 1%nat)
         (Planner.splitBatches B files)
  /\ (forall f, In f files -> Planner.size f > B ->
                In [f] (Planner.splitBatches B files)).
Proof.
  pose proof (bounded_fold B files Planner.start (bounded_start B)) as [Hb Hc].
  unfold Planner.splitBatches. split.
  - destruct (0 <? length _)%nat eqn:Hne; [|exact Hb].
    apply nonempty_ltb in Hne. apply Forall_app. split; [exact Hb|].
    constructor; [|constructor].
    destruct Hc as [[He _]|(_ & Ht & Hle)]; [contradiction|]. left. lia.
  - intros f Hin Hbig.
    pose proof (oversized_fold B files Planner.start f Hin Hbig) as H.
    destruct (0 <? length _)%nat; [apply in_or_app; left|]; exact H.
Qed.

(** C2.  The batches, concatenated in the order they were produced, are the
    input list itself: no file is lost, repeated or moved across a batch
    boundary; and no batch is empty. *)
Theorem C2_batches_partition_in_order (B : Z) (files : list Planner.FileEntry) :
  concat (Planner.splitBatches B files) = files
  /\ Forall (fun b => b <> []) (Planner.splitBatches B files).
Proof.
  pose proof (concat_fold B files Planner.start) as Hc. simpl in Hc.
  assert (Hn : Forall (fun b : list Planner.FileEntry => b <> [])
                      (Planner.batches (fold_left (Planner.step B) files Planner.start)))
    by (apply nonempty_fold; constructor).
  unfold Planner.splitBatches. split.
  - destruct (0 <? length _)%nat eqn:Hne.
    + rewrite concat_app. simpl. rewrite app_nil_r. exact Hc.
    + apply empty_ltb in Hne. rewrite Hne, app_nil_r in Hc. exact Hc.
  - destruct (0 <? length _)%nat eqn:Hne; [|exact Hn].
    apply nonempty_ltb in Hne. apply Forall_app. split; [exact Hn|].
    constructor; [exact Hne|constructor].
Qed.

(** ** Single archive or split: [prepareSourceFiles] *)

(** C5.  When the size query answers, [prepareSourceFiles] returns, and it
    sets [needsSplit = false] and yields the one item
    [transfer_<epoch_ms>.zip] exactly when [totalBytes <= limitBytes]; a
    folder of exactly the limit is not split. *)
Theorem C5_single_archive_iff_within_limit
    (W : World) (r : nat) (connectionId : string) (s : State) (job : TransferJob)
    (c : SSHConnection) (chunks : list Chunk) :
  heap s !! r = Some job ->
  connections s !! connectionId = Some c ->
  w_exec W (clock s) connectionId (TransferService.duCommand (sourceFolder job))
    = ExecClosed chunks ->
  let total := JS.parseIntOr0 (stdout (SSHService.closed chunks)) in
  let limit := zipSizeLimitMB job * 1024 * 1024 in
  let base := "transfer_" +:+ JS.toString (w_now W (S (clock s))) in
  exists items s' zi,
    TransferService.prepareSourceFiles W r connectionId s = (inr items, s')
    /\ heap s' !! r = Some (TransferService.withZipInfo (Some zi) job)
    /\ totalBytes zi = total
    /\ baseZipName zi = base
    /\ ((needsSplit zi = false
         /\ exists item, items = [item] /\ fileName item = base +:+ ".zip")
        <-> total <= limit)
    /\ (total = limit -> needsSplit zi = false /\ length items = 1%nat).
Proof.
  intros Hh Hc He total limit base.
  unfold TransferService.prepareSourceFiles, TransferService.readJob, SSHService.exec,
    TransferService.now, TransferService.generateId, TransferService.updJob,
    bind, gets, tick, emit, modify, ret.
  rewrite Hh, Hc. simpl. rewrite He. simpl.
  assert (Ht : JS.parseIntOr0 (JS.trim (SSHService.stdoutOf chunks)) = total)
    by reflexivity.
  clearbody total. rewrite !Ht. fold limit. fold base.
  assert (Hheap : forall z (s0 : State), heap s0 = heap s ->
            alter (TransferService.withZipInfo (Some z)) r (heap s0) !! r
            = Some (TransferService.withZipInfo (Some z) job)).
  { intros z s0 ->. rewrite lookup_alter_eq, Hh. reflexivity. }
  destruct (total <=? limit) eqn:Hle.
  - apply Z.leb_le in Hle.
    eexists _, _, _. split; [reflexivity|]. simpl.
    split; [apply (Hheap _ s); reflexivity|].
    split; [reflexivity|]. split; [reflexivity|]. split.
    + split; [intros _; exact Hle|]. intros _. split.
      * simpl. rewrite Z.gtb_ltb. apply Z.ltb_ge. exact Hle.
      * eexists. split; reflexivity.
    + intros _. split; [|reflexivity]. simpl. rewrite Z.gtb_ltb. apply Z.ltb_ge. exact Hle.
  - apply Z.leb_gt in Hle.
    eexists _, _, _. split; [reflexivity|]. simpl.
    split; [apply (Hheap _ s); reflexivity|].
    split; [reflexivity|]. split; [reflexivity|]. split.
    + split; [|lia]. intros [Hns _]. simpl in Hns.
      rewrite Z.gtb_ltb in Hns. apply Z.ltb_ge in Hns. exact Hns.
    + intros Heq. lia.
Qed.

Lemma C5_witness :
  exists items s',
    TransferService.prepareSourceFiles Scenario.calm 0 "source" Scenario.loaded
    = (inr items, s')
    /\ length items = 1%nat.
Proof.
  destruct (C5_single_archive_iff_within_limit Scenario.calm 0 "source"
              Scenario.loaded Scenario.job
              {| conn_id := "source"; conn_config := Scenario.host "source" |}
              [Stdout "3000"])
    as (items & s' & zi & Hrun & _ & _ & _ & Hiff & _).
  - reflexivity.
  - reflexivity.
  - reflexivity.
  - exists items, s'. split; [exact Hrun|].
    vm_compute in Hrun. injection Hrun as <- _. reflexivity.
Defined.

(** ** Naming of the parts *)

Lemma partFileName_split (base : string) (n i : nat) :
  n <> 1%nat ->
  TransferService.partFileName base n i
  = base +:+ ".part" +:+ TransferService.partNum i +:+ ".zip".
Proof.
  intros Hn. unfold TransferService.partFileName.
  destruct (Nat.eqb_spec n 1); [contradiction|reflexivity].
Qed.

Lemma partNum_three_digits (i : nat) :
  (i < 999)%nat -> String.length (TransferService.partNum i) = 3%nat.
Proof.
  intros Hi.
  assert (H : forallb (fun k => Nat.eqb (String.length (TransferService.partNum k)) 3)
                      (seq 0 999) = true) by (vm_compute; reflexivity).
  rewrite forallb_forall in H.
  apply Nat.eqb_eq, H, in_seq. lia.
Qed.

(** C6 (the code departs from the claim).  In a split run whose batching
    yields one batch the archive is named [<base>.zip], not
    [<base>.part001.zip]: the name follows the number of batches, not
    [needsSplit].  On a source folder holding one file of 2 GiB, with the
    limit at 1024 MiB, the job records [needsSplit = true], publishes
    [transfer_1700000000005.zip], and then runs the bulk extraction over
    [transfer_1700000000005.part*.zip] on the destination. *)
Theorem C6_single_batch_of_split_run_is_named_plain :
  (forall base i, TransferService.partFileName base 1 i = base +:+ ".zip")
  /\ let run := TransferService.startJob Scenario.oneBigFile Scenario.bigJob
                  [TransferService.UploadComplete; TransferService.UploadComplete]
                  Scenario.idle in
     fst run = inr true
     /\ (needsSplit <$> (List.head (jobs (snd run)) ≫= zipInfo)) = Some true
     /\ Trace.published (trace (snd run)) = ["transfer_1700000000005.zip"]
     /\ In (TransferService.bulkUnzipCommand "/srv/in" "transfer_1700000000005")
           (Trace.commandsOn "dest-1" (trace (snd run))).
Proof.
  split; [reflexivity|].
  vm_compute. repeat split. do 5 right. left. reflexivity.
Qed.

(** ** The job-level percentage of the split upload *)











(** ** The connection pool *)

(** C10.  When the pool holds no session for an id, [exec],
    [execWithProgress], [uploadFile], [downloadFile] and [listDirectory]
    reject with "No connection found with id: <id>" and leave the whole
    state, the pool included, as it was: nothing is dialed or evicted. *)
Theorem C10_no_session_rejects_and_keeps_pool (W : World) (id : string) (s : State) :
  connections s !! id = None ->
  SSHService.noConnection id = "No connection found with id: " +:+ id
  /\ (forall cmd, SSHService.exec W id cmd s = (inl (SSHService.noConnection id), s))
  /\ (forall cmd onProgress,
        SSHService.execWithProgress W id cmd onProgress s
        = (inl (SSHService.noConnection id), s))
  /\ (forall localPath remotePath,
        SSHService.uploadFile W id localPath remotePath s
        = (inl (SSHService.noConnection id), s))
  /\ (forall remotePath localPath,
        SSHService.downloadFile W id remotePath localPath s
        = (inl (SSHService.noConnection id), s))
  /\ (forall dirPath options,
        SSHService.listDirectory W id dirPath options s
        = (inl (SSHService.noConnection id), s)).
Proof.
  intros Hnone.
  split; [reflexivity|].
  repeat split; intros;
    unfold SSHService.exec, SSHService.execWithProgress, SSHService.uploadFile,
      SSHService.downloadFile, SSHService.listDirectory, bind, gets, throw;
    rewrite Hnone; reflexivity.
Qed.

Lemma C10_witness :
  SSHService.exec Scenario.calm "dest-1" "ls" Scenario.idle
  = (inl "No connection found with id: dest-1", Scenario.idle).
Proof.
  destruct (C10_no_session_rejects_and_keeps_pool Scenario.calm "dest-1" Scenario.idle)
    as (_ & Hexec & _).
  - reflexivity.
  - exact (Hexec "ls").
Defined.

(** ** The directory listing *)

Section SortFacts.
Context {A : Type} (cmp : A -> A -> Z).


Hypothesis cmp_total : forall a b, cmp a b <= 0 \/ cmp b a <= 0.
Hypothesis cmp_trans : forall a b c, cmp a b <= 0 -> cmp b c <= 0 -> cmp a c <= 0.






End SortFacts.

Section SliceFacts.
Context {A : Type}.



End SliceFacts.

Section ListingFacts.
Variable W : World.

Hypothesis collation_total :
  forall a b, w_localeCompare W a b <= 0 \/ w_localeCompare W b a <= 0.
Hypothesis collation_trans :
  forall a b c, w_localeCompare W a b <= 0 -> w_localeCompare W b c <= 0 ->
                w_localeCompare W a c <= 0.




End ListingFacts.




(** ** Reasoning about computations in [M]

    [preserves R m]: running [m] from any state leads to a state related to
    it by [R], whether [m] returns or throws.  For a preorder [R] this is
    closed under the combinators of [M]. *)

Definition preserves {A} (R : State -> State -> Prop) (m : M A) : Prop :=
  forall s, R s (snd (m s)).

(** [returns m]: [m] never throws. *)
Definition returns {A} (m : M A) : Prop :=
  forall s, exists a, fst (m s) = inr a.

Section Combinators.
Context (R : State -> State -> Prop) `{!PreOrder R}.

Lemma pres_ret {A} (a : A) : preserves R (ret a).
Proof. intros s. simpl. reflexivity. Qed.

Lemma pres_throw {A} (e : string) : preserves R (@throw A e).
Proof. intros s. simpl. reflexivity. Qed.

Lemma pres_gets {A} (f : State -> A) : preserves R (gets f).
Proof. intros s. simpl. reflexivity. Qed.

Lemma pres_bind {A B} (m : M A) (k : A -> M B) :
  preserves R m -> (forall a, preserves R (k a)) -> preserves R (bind m k).
Proof.
  intros Hm Hk s. unfold bind. specialize (Hm s).
  destruct (m s) as [[e|a] s']; simpl in *; [exact Hm|].
  etransitivity; [exact Hm|apply Hk].
Qed.

Lemma pres_try_catch {A} (m : M A) (h : string -> M A) :
  preserves R m -> (forall e, preserves R (h e)) -> preserves R (try_catch m h).
Proof.
  intros Hm Hh s. unfold try_catch. specialize (Hm s).
  destruct (m s) as [[e|a] s']; simpl in *; [|exact Hm].
  etransitivity; [exact Hm|apply Hh].
Qed.

Lemma pres_forEach {A} (l : list A) (body : A -> M unit) :
  (forall x, preserves R (body x)) -> preserves R (forEach l body).
Proof.
  intros Hb. induction l as [|x l IH]; simpl; [apply pres_ret|].
  apply pres_bind; [apply Hb|intros _; exact IH].
Qed.

Lemma pres_forEachI {A} (l : list A) (body : nat -> A -> M unit) (i0 : nat) :
  (forall i x, preserves R (body i x)) -> preserves R (forEachI l body i0).
Proof.
  intros Hb. revert i0. induction l as [|x l IH]; intros i0; simpl; [apply pres_ret|].
  apply pres_bind; [apply Hb|intros _; apply IH].
Qed.

Lemma pres_foldM {A V} (l : list A) (body : A -> V -> M V) (v : V) :
  (forall x v, preserves R (body x v)) -> preserves R (foldM l body v).
Proof.
  intros Hb. revert v. induction l as [|x l IH]; intros v; simpl; [apply pres_ret|].
  apply pres_bind; [apply Hb|intros v'; apply IH].
Qed.

Lemma pres_promiseAll {A} (l : list A) (task : A -> M unit) :
  (forall x, preserves R (task x)) -> preserves R (promiseAll l task).
Proof.
  intros Ht. induction l as [|x l IH]; simpl; [apply pres_ret|].
  intros s. specialize (Ht x s).
  destruct (task x s) as [[e|a] s']; simpl in *;
    (etransitivity; [exact Ht|apply IH]).
Qed.

End Combinators.

Section Returning.

Lemma returns_ret {A} (a : A) : returns (ret a).
Proof. intros s. exists a. reflexivity. Qed.

Lemma returns_gets {A} (f : State -> A) : returns (gets f).
Proof. intros s. eexists. reflexivity. Qed.

Lemma returns_modify (f : State -> State) : returns (modify f).
Proof. intros s. exists tt. reflexivity. Qed.

Lemma returns_tick : returns tick.
Proof. intros s. eexists. reflexivity. Qed.

Lemma returns_bind {A B} (m : M A) (k : A -> M B) :
  returns m -> (forall a, returns (k a)) -> returns (bind m k).
Proof.
  intros Hm Hk s. unfold bind. destruct (Hm s) as [a Ha].
  destruct (m s) as [[e|a'] s']; simpl in Ha; [discriminate|]. apply Hk.
Qed.

(** A [try] whose handler returns, returns. *)
Lemma returns_try_catch {A} (m : M A) (h : string -> M A) :
  (forall e, returns (h e)) -> returns (try_catch m h).
Proof.
  intros Hh s. unfold try_catch.
  destruct (m s) as [[e|a] s']; [apply Hh|exists a; reflexivity].
Qed.

Lemma returns_forEachI {A} (l : list A) (body : nat -> A -> M unit) (i0 : nat) :
  (forall i x, returns (body i x)) -> returns (forEachI l body i0).
Proof.
  intros Hb. revert i0. induction l as [|x l IH]; intros i0; simpl; [apply returns_ret|].
  apply returns_bind; [apply Hb|intros _; apply IH].
Qed.

Lemma returns_promiseAll {A} (l : list A) (task : A -> M unit) :
  (forall x, returns (task x)) -> returns (promiseAll l task).
Proof.
  intros Ht. induction l as [|x l IH]; simpl; [apply returns_ret|].
  intros s. destruct (Ht x s) as [a Ha].
  destruct (task x s) as [[e|a'] s']; simpl in Ha; [discriminate|]. apply IH.
Qed.

End Returning.

(** The head constant of an application. *)
Ltac head_of t := match t with ?f _ => head_of f | _ => t end.

(** Decompose a goal [preserves R m] along the structure of [m]; [base]
    settles the primitive steps for the relation at hand. *)
Ltac pres_go base :=
  repeat (intros; cbv beta zeta;
    first
      [ match goal with |- PreOrder _ => exact _ end
      | progress base
      | apply pres_ret | apply pres_throw | apply pres_gets
      | apply pres_bind | apply pres_try_catch
      | apply pres_forEach | apply pres_forEachI | apply pres_foldM
      | apply pres_promiseAll
      | match goal with
        | |- preserves _ (if ?b then _ else _) => destruct b
        | |- preserves _ (match ?x with _ => _ end) => destruct x
        | |- preserves _ ?m => let h := head_of m in unfold h
        end ]).

(** ** The events of a computation *)

(** [emits Q]: the trace grew by events that satisfy [Q]. *)
Definition emits (Q : Event -> Prop) (s s' : State) : Prop :=
  exists evs, trace s' = trace s ++ evs /\ Forall Q evs.

#[local] Instance emits_preorder (Q : Event -> Prop) : PreOrder (emits Q).
Proof.
  split.
  - intros s. exists []. split; [symmetry; apply app_nil_r|constructor].
  - intros s1 s2 s3 (e1 & H1 & Q1) (e2 & H2 & Q2).
    exists (e1 ++ e2). split; [rewrite H2, H1, app_assoc; reflexivity|].
    apply Forall_app. split; assumption.
Qed.

Lemma emits_quiet {A} (Q : Event -> Prop) (m : M A) :
  (forall s, trace (snd (m s)) = trace s) -> preserves (emits Q) m.
Proof.
  intros H s. exists []. split; [rewrite H, app_nil_r; reflexivity|constructor].
Qed.

Lemma emits_emit (Q : Event -> Prop) (e : Event) : Q e -> preserves (emits Q) (emit e).
Proof.
  intros HQ s. exists [e]. split; [reflexivity|]. constructor; [exact HQ|constructor].
Qed.

Lemma emits_weaken {A} (Q Q' : Event -> Prop) (m : M A) :
  (forall e, Q e -> Q' e) -> preserves (emits Q) m -> preserves (emits Q') m.
Proof.
  intros HQ Hm s. destruct (Hm s) as (evs & Ht & Hall).
  exists evs. split; [exact Ht|]. eapply Forall_impl; eauto.
Qed.

(** The steps that leave the trace alone. *)
Ltac quiet_step :=
  idtac;
  match goal with
  | |- preserves (emits _) (modify (set_connections _)) => apply emits_quiet; reflexivity
  | |- preserves (emits _) (modify (set_activeJobs _)) => apply emits_quiet; reflexivity
  | |- preserves (emits _) (modify (set_downloadQueue _)) => apply emits_quiet; reflexivity
  | |- preserves (emits _) (modify (set_uploadedFiles _)) => apply emits_quiet; reflexivity
  | |- preserves (emits _) (modify (set_jobs _)) => apply emits_quiet; reflexivity
  | |- preserves (emits _) (modify (set_heap _)) => apply emits_quiet; reflexivity
  | |- preserves (emits _) tick => apply emits_quiet; reflexivity
  | |- preserves (emits _) (TransferService.alloc _) => apply emits_quiet; reflexivity
  end.

(** Every computation only extends the trace. *)
Ltac grows_step :=
  first [ quiet_step | apply emits_emit; exact I ].

Lemma pendingSlots_quiet (Q : Event -> Prop) (destIds : list string) :
  preserves (emits Q) (TransferService.pendingSlots destIds).
Proof.
  induction destIds as [|d ds IH]; simpl;
    pres_go ltac:(first [quiet_step | exact IH]).
Qed.

(** ** The download worker of a split run *)





Section SplitRun.
Variable W : World.
Variable job : TransferJob.
Hypothesis autoExtract_on : autoExtract job = true.
Hypothesis split_on : needsSplit <$> zipInfo job = Some true.




End SplitRun.




(** *** The parts published for a job keep their ids *)

Definition publishedIds (jobId : string) (s : State) : list string :=
  file_id <$> default [] (uploadedFiles s !! jobId).

Definition sameIds (jobId : string) (s s' : State) : Prop :=
  publishedIds jobId s' = publishedIds jobId s.

#[local] Instance sameIds_preorder (jobId : string) : PreOrder (sameIds jobId).
Proof.
  split.
  - intros s. reflexivity.
  - intros s1 s2 s3 H1 H2. unfold sameIds in *. congruence.
Qed.


Lemma findIndex_find {A} (p : A -> bool) (l : list A) (i : nat) (x : A) :
  ConfigService.findIndex p l = Some i -> List.find p l = Some x -> l !! i = Some x.
Proof.
  revert i. induction l as [|y l IH]; intros i Hi Hx; simpl in *; [discriminate|].
  destruct (p y).
  - injection Hi as <-. exact Hx.
  - destruct (ConfigService.findIndex p l) as [j|]; simpl in Hi; [|discriminate].
    injection Hi as <-. simpl. apply IH; [reflexivity|exact Hx].
Qed.

Lemma fmap_insert_same {A B} (f : A -> B) (l : list A) (i : nat) (x x' : A) :
  l !! i = Some x -> f x' = f x -> f <$> <[i := x']> l = f <$> l.
Proof.
  intros Hl Hf. rewrite list_fmap_insert, Hf.
  apply list_insert_id. rewrite list_lookup_fmap, Hl. reflexivity.
Qed.






(** *** The download side never throws *)

Ltac returns_go :=
  repeat (intros; cbv beta zeta;
    first
      [ apply returns_ret | apply returns_gets | apply returns_modify
      | apply returns_tick | apply returns_try_catch | apply returns_bind
      | apply returns_promiseAll | apply returns_forEachI
      | match goal with
        | |- returns (if ?b then _ else _) => destruct b
        | |- returns (match ?x with _ => _ end) => destruct x
        | |- returns ?m => let h := head_of m in unfold h
        end ]).

Lemma downloadFileToDestination_returns (W : World) (job : TransferJob)
    (file : UploadedFileInfo) (d : string) :
  returns (TransferService.downloadFileToDestination W job file d).
Proof.
  unfold TransferService.downloadFileToDestination. returns_go.
Qed.


Lemma bind_run {A B} (m : M A) (k : A -> M B) (s s1 : State) (a : A) :
  m s = (inr a, s1) -> bind m k s = k a s1.
Proof. intros H. unfold bind. rewrite H. reflexivity. Qed.

(** Running a computation that returns. *)
Lemma returns_run {A} (m : M A) (s : State) :
  returns m -> exists a s1, m s = (inr a, s1).
Proof.
  intros H. destruct (H s) as [a Ha]. destruct (m s) as [[e|a'] s1]; simpl in Ha.
  - discriminate.
  - injection Ha as ->. eauto.
Qed.

Section Coverage.
Variable W : World.
Variable job : TransferJob.

#[local] Abbreviation ids := (publishedIds (job_id job)).




End Coverage.





Lemma readJob_run (r : nat) (s : State) (job : TransferJob) :
  heap s !! r = Some job -> TransferService.readJob r s = (inr job, s).
Proof.
  intros H. unfold TransferService.readJob, bind, gets. rewrite H. reflexivity.
Qed.




(** ** Preparing a destination *)

(** A [try] returns when its body does. *)
Lemma returns_try_body {A} (m : M A) (h : string -> M A) :
  returns m -> returns (try_catch m h).
Proof.
  intros Hm s. unfold try_catch. destruct (Hm s) as [a Ha].
  destruct (m s) as [[e|a'] s']; simpl in Ha; [discriminate|]. exists a'. reflexivity.
Qed.

Lemma connect_returns (W : World) (config : SSHConfig) :
  returns (SSHService.connect W config).
Proof. unfold SSHService.connect. returns_go. Qed.

Lemma checkInstalled_returns (W : World) (id : string) :
  returns (RcloneService.checkInstalled W id).
Proof. unfold RcloneService.checkInstalled. returns_go. Qed.

Lemma install_returns (W : World) (id : string) : returns (RcloneService.install W id).
Proof. unfold RcloneService.install. returns_go. Qed.

Lemma copyConfigToServer_returns (W : World) (id : string) :
  returns (RcloneService.copyConfigToServer W id).
Proof. unfold RcloneService.copyConfigToServer. returns_go. Qed.

Lemma prepareDestinationServer_returns (W : World) (job : TransferJob) (d : string) :
  returns (TransferService.prepareDestinationServer W job d).
Proof.
  unfold TransferService.prepareDestinationServer.
  apply returns_bind; [apply returns_gets|]. intros [destServer|]; [|apply returns_ret].
  apply returns_try_body.
  apply returns_bind; [apply connect_returns|]. intros _.
  apply returns_bind; [apply checkInstalled_returns|]. intros rcloneCheck.
  apply returns_bind.
  { destruct (negb _); [|apply returns_ret].
    apply returns_bind; [apply install_returns|]. intros _. apply returns_ret. }
  intros _.
  apply returns_bind; [apply copyConfigToServer_returns|]. intros _. apply returns_ret.
Qed.

(** [sameFiles]: the published parts and their slots are as they were. *)
Definition sameFiles (s s' : State) : Prop := uploadedFiles s' = uploadedFiles s.

#[local] Instance sameFiles_preorder : PreOrder sameFiles.
Proof.
  split.
  - intros s. reflexivity.
  - intros s1 s2 s3 H1 H2. unfold sameFiles in *. congruence.
Qed.

Ltac files_step :=
  idtac;
  match goal with
  | |- preserves sameFiles (modify (set_connections _)) => intros ?; reflexivity
  | |- preserves sameFiles (modify (set_activeJobs _)) => intros ?; reflexivity
  | |- preserves sameFiles (modify (set_downloadQueue _)) => intros ?; reflexivity
  | |- preserves sameFiles (modify (set_jobs _)) => intros ?; reflexivity
  | |- preserves sameFiles (modify (set_heap _)) => intros ?; reflexivity
  | |- preserves sameFiles (modify (set_trace _)) => intros ?; reflexivity
  | |- preserves sameFiles tick => intros ?; reflexivity
  | |- preserves sameFiles (emit _) => intros ?; reflexivity
  end.

Lemma prepareDestinationServer_files (W : World) (job : TransferJob) (d : string) :
  preserves sameFiles (TransferService.prepareDestinationServer W job d).
Proof.
  unfold TransferService.prepareDestinationServer. pres_go files_step.
Qed.

(** *** The slots of the other destinations *)

(** The parts published for a job, each with its slots for the host [d']. *)
Definition slotsFor (d' jobId : string) (s : State)
  : list (string * list FileDestinationProgress) :=
  (fun f => (file_id f,
             filter (fun x => serverId x = d') (destinations f)))
    <$> default [] (uploadedFiles s !! jobId).

(** [keepsOthers d]: only slots of the host [d] may have changed. *)
Definition keepsOthers (d : string) (s s' : State) : Prop :=
  forall d' jobId, d' <> d -> slotsFor d' jobId s' = slotsFor d' jobId s.

#[local] Instance keepsOthers_preorder (d : string) : PreOrder (keepsOthers d).
Proof.
  split.
  - intros s d' jobId _. reflexivity.
  - intros s1 s2 s3 H1 H2 d' jobId Hne.
    rewrite (H2 d' jobId Hne). apply H1, Hne.
Qed.

Lemma keepsOthers_quiet {A} (d : string) (m : M A) :
  (forall s, uploadedFiles (snd (m s)) = uploadedFiles s) -> preserves (keepsOthers d) m.
Proof.
  intros H s d' jobId _. unfold slotsFor. rewrite H. reflexivity.
Qed.

Lemma filter_updateSlot (d d' : string) (st : DestStatus) (p : Z) (e : option string)
    (l : list FileDestinationProgress) :
  d' <> d ->
  filter (fun x => serverId x = d') (TransferService.updateSlot d st p e l)
  = filter (fun x => serverId x = d') l.
Proof.
  intros Hne. induction l as [|x l IH]; simpl; [reflexivity|].
  destruct (String.eqb_spec (serverId x) d) as [Heq|Hneq].
  - rewrite !filter_cons. simpl.
    destruct (decide (serverId x = d')) as [Hd|Hd]; [congruence|reflexivity].
  - rewrite !filter_cons, IH. reflexivity.
Qed.

Lemma broadcastFileDestinationProgress_others (d j fileId : string)
    (st : DestStatus) (p : Z) (e : option string) :
  preserves (keepsOthers d)
    (TransferService.broadcastFileDestinationProgress j fileId d st p e).
Proof.
  intros s d' jobId Hne.
  unfold TransferService.broadcastFileDestinationProgress, bind, gets.
  destruct (ConfigService.findIndex _ _) as [i|] eqn:Hi; [|reflexivity].
  destruct (List.find _ _) as [fileInfo|] eqn:Hf; [|reflexivity].
  simpl. unfold slotsFor. simpl.
  destruct (decide (j = jobId)) as [->|Hj].
  - rewrite lookup_alter_eq.
    destruct (uploadedFiles s !! jobId) as [fs|] eqn:Hfs; simpl in *; [|reflexivity].
    eapply fmap_insert_same; [eapply findIndex_find; eassumption|].
    simpl. rewrite filter_updateSlot by exact Hne. reflexivity.
  - rewrite lookup_alter_ne by exact Hj. reflexivity.
Qed.

Ltac others_quiet_step :=
  idtac;
  match goal with
  | |- preserves (keepsOthers _) (modify (set_connections _)) => apply keepsOthers_quiet; reflexivity
  | |- preserves (keepsOthers _) (modify (set_activeJobs _)) => apply keepsOthers_quiet; reflexivity
  | |- preserves (keepsOthers _) (modify (set_downloadQueue _)) => apply keepsOthers_quiet; reflexivity
  | |- preserves (keepsOthers _) (modify (set_jobs _)) => apply keepsOthers_quiet; reflexivity
  | |- preserves (keepsOthers _) (modify (set_heap _)) => apply keepsOthers_quiet; reflexivity
  | |- preserves (keepsOthers _) (modify (set_trace _)) => apply keepsOthers_quiet; reflexivity
  | |- preserves (keepsOthers _) tick => apply keepsOthers_quiet; reflexivity
  | |- preserves (keepsOthers _) (emit _) => apply keepsOthers_quiet; reflexivity
  end.

Ltac others_step :=
  first [ apply broadcastFileDestinationProgress_others | others_quiet_step ].

Lemma downloadFileToDestination_others (W : World) (job : TransferJob)
    (file : UploadedFileInfo) (d : string) :
  preserves (keepsOthers d) (TransferService.downloadFileToDestination W job file d).
Proof.
  unfold TransferService.downloadFileToDestination. pres_go others_step.
Qed.

(** *** A download is attempted *)

(** The trace only grows. *)
Abbreviation grows := (emits (fun _ => True)).

Lemma grows_in (s s' : State) (e : Event) :
  grows s s' -> In e (trace s) -> In e (trace s').
Proof.
  intros (evs & -> & _) Hin. apply in_or_app. left. exact Hin.
Qed.

Lemma in_bind {A B} (m : M A) (k : A -> M B) (s : State) (e : Event) :
  In e (trace (snd (m s))) -> (forall a, preserves grows (k a)) ->
  In e (trace (snd (bind m k s))).
Proof.
  intros Hin Hk. unfold bind. destruct (m s) as [[x|a] s1]; simpl in *; [exact Hin|].
  eapply grows_in; [apply Hk|exact Hin].
Qed.

Lemma in_try_catch {A} (m : M A) (h : string -> M A) (s : State) (e : Event) :
  In e (trace (snd (m s))) -> (forall x, preserves grows (h x)) ->
  In e (trace (snd (try_catch m h s))).
Proof.
  intros Hin Hh. unfold try_catch. destruct (m s) as [[x|a] s1]; simpl in *; [|exact Hin].
  eapply grows_in; [apply Hh|exact Hin].
Qed.

Lemma broadcastFileDestinationProgress_run (j fileId d : string) (st : DestStatus)
    (p : Z) (e : option string) (s : State) :
  exists s1,
    TransferService.broadcastFileDestinationProgress j fileId d st p e s = (inr tt, s1)
    /\ connections s1 = connections s /\ clock s1 = clock s /\ servers s1 = servers s.
Proof.
  unfold TransferService.broadcastFileDestinationProgress, bind, gets.
  destruct (ConfigService.findIndex _ _) as [i|]; [|eexists; repeat split].
  destruct (List.find _ _) as [fileInfo|]; eexists; repeat split.
Qed.

Lemma execWithProgress_emits (W : World) (id cmd : string) (onProgress : string -> M unit)
    (s : State) (c : SSHConnection) (chunks : list Chunk) :
  connections s !! id = Some c ->
  w_exec W (clock s) id cmd = ExecClosed chunks ->
  (forall data, preserves grows (onProgress data)) ->
  In (EvExec id cmd) (trace (snd (SSHService.execWithProgress W id cmd onProgress s))).
Proof.
  intros Hc Hx Hcb. unfold SSHService.execWithProgress.
  unfold bind at 1, gets at 1. rewrite Hc.
  unfold bind at 1, tick at 1. simpl. rewrite Hx.
  apply in_bind.
  - simpl. apply in_or_app. right. left. reflexivity.
  - intros _. pres_go ltac:(first [apply Hcb | grows_step]).
Qed.

Lemma downloadFileToDestination_attempts (W : World) (job : TransferJob)
    (file : UploadedFileInfo) (d : string) (s : State)
    (srv : SSHConfig) (c : SSHConnection) (chunks : list Chunk) :
  let cmd := RcloneService.downloadCommand TransferService.remoteName (udrivePath file)
               ("/tmp/" +:+ ufileName file) in
  List.find (fun x => String.eqb (srv_id x) d) (servers s) = Some srv ->
  connections s !! srv_id srv = Some c ->
  w_exec W (clock s) (srv_id srv) cmd = ExecClosed chunks ->
  In (EvExec (srv_id srv) cmd)
     (trace (snd (TransferService.downloadFileToDestination W job file d s))).
Proof.
  intros cmd Hsrv Hc Hx. unfold TransferService.downloadFileToDestination.
  unfold bind at 1, ConfigService.getServerById, gets at 1. rewrite Hsrv.
  apply in_try_catch; [|intros x; pres_go grows_step].
  destruct (broadcastFileDestinationProgress_run (job_id job) (file_id file) d
              DDownloading 0 None s) as (s1 & Hrun & Hc1 & Hk1 & _).
  rewrite (bind_run _ _ _ _ _ Hrun).
  apply in_bind; [|intros x; pres_go grows_step].
  unfold RcloneService.download.
  apply in_try_catch; [|intros x; pres_go grows_step].
  apply in_bind; [|intros x; pres_go grows_step].
  eapply execWithProgress_emits.
  - rewrite Hc1. exact Hc.
  - rewrite Hk1. exact Hx.
  - intros data. pres_go grows_step.
Qed.

(** C3, as the code has it.  [connect], the rclone check, [install] and
    [copyConfigToServer] report a failure in their result and never throw,
    and [prepareDestinationServer] does not look at the results: preparing
    a destination always resolves and marks no slot, so does the preparation
    of all destinations, and the job goes on.  Downloads are then attempted
    on every destination whose host record exists: on a host with a session
    that accepts it, the rclone download command is run.  Handling a part on
    one destination changes no slot of another destination. *)
Theorem C3_preparation_failure_is_not_recorded
    (W : World) (job : TransferJob) (d : string) (file : UploadedFileInfo) (s : State)
    (srv : SSHConfig) (c : SSHConnection) (chunks : list Chunk) :
  let cmd := RcloneService.downloadCommand TransferService.remoteName (udrivePath file)
               ("/tmp/" +:+ ufileName file) in
  let handled := snd (TransferService.downloadFileToDestination W job file d s) in
  List.find (fun x => String.eqb (srv_id x) d) (servers s) = Some srv ->
  connections s !! srv_id srv = Some c ->
  w_exec W (clock s) (srv_id srv) cmd = ExecClosed chunks ->
  (exists s1,
     TransferService.prepareDestinationServer W job d s = (inr tt, s1)
     /\ uploadedFiles s1 = uploadedFiles s)
  /\ (exists s2,
        promiseAll (destinationServerIds job)
          (TransferService.prepareDestinationServer W job) s = (inr tt, s2)
        /\ uploadedFiles s2 = uploadedFiles s)
  /\ In (EvExec (srv_id srv) cmd) (trace handled)
  /\ (forall d' jobId, d' <> d -> slotsFor d' jobId handled = slotsFor d' jobId s).
Proof.
  intros cmd handled Hsrv Hc Hx. split; [|split; [|split]].
  - destruct (returns_run _ s (prepareDestinationServer_returns W job d))
      as ([] & s1 & Hrun).
    exists s1. split; [exact Hrun|].
    pose proof (prepareDestinationServer_files W job d s) as Hf.
    rewrite Hrun in Hf. exact Hf.
  - assert (Hret : returns (promiseAll (destinationServerIds job)
                              (TransferService.prepareDestinationServer W job))).
    { apply returns_promiseAll. intros x. apply prepareDestinationServer_returns. }
    destruct (returns_run _ s Hret) as ([] & s2 & Hrun).
    exists s2. split; [exact Hrun|].
    assert (Hf : preserves sameFiles
                   (promiseAll (destinationServerIds job)
                      (TransferService.prepareDestinationServer W job))).
    { apply pres_promiseAll; [exact _|]. intros x. apply prepareDestinationServer_files. }
    specialize (Hf s). rewrite Hrun in Hf. exact Hf.
  - eapply downloadFileToDestination_attempts; eassumption.
  - intros d' jobId Hne. apply (downloadFileToDestination_others W job file d s), Hne.
Qed.

Lemma C3_witness :
  In (EvExec "dest-2"
        (RcloneService.downloadCommand "gdrive"
           "transfer/transfer_1700000000005.part001.zip"
           "/tmp/transfer_1700000000005.part001.zip"))
     (trace (snd (TransferService.downloadFileToDestination Scenario.calm
                    Scenario.splitJob Scenario.part1 "dest-2" Scenario.staged))).
Proof.
  destruct (C3_preparation_failure_is_not_recorded Scenario.calm Scenario.splitJob
              "dest-2" Scenario.part1 Scenario.staged (Scenario.host "dest-2")
              {| conn_id := "dest-2"; conn_config := Scenario.host "dest-2" |}
              [Stdout "bash: line 1: rclone: command not found"])
    as (_ & _ & Hin & _).
  - reflexivity.
  - reflexivity.
  - reflexivity.
  - exact Hin.
Defined.

(** The install on [dest-2] fails.  The job runs to its end all the same;
    the download command runs on [dest-2]; the slot of [dest-2] for the
    first part is never failed and ends as completed. *)
Lemma C3_counterexample :
  let run := TransferService.startJob Scenario.calm Scenario.job
               [TransferService.PartsVisible 1; TransferService.UploadComplete;
                TransferService.UploadComplete] Scenario.idle in
  let history := Trace.slotHistory "transfer_1700000000005.part001.zip" "dest-2"
                   (trace (snd run)) in
  fst (RcloneService.install Scenario.calm "dest-2"
         (Scenario.connected "dest-2" Scenario.idle))
    = inr (failure "Installation verification failed")
  /\ fst run = inr true
  /\ In (RcloneService.downloadCommand "gdrive"
           "transfer/transfer_1700000000005.part001.zip"
           "/tmp/transfer_1700000000005.part001.zip")
        (Trace.commandsOn "dest-2" (trace (snd run)))
  /\ forallb (fun x => match fst x with DFailed => false | _ => true end) history = true
  /\ List.last history (DPending, None) = (DCompleted, None).
Proof.
  vm_compute. repeat split. do 5 right. left. reflexivity.
Qed.

(** ** Retrying an item *)

(** The item that a retry applies to: the first item of the stored job with
    the given id, when its status is [failed]. *)
Definition retryTarget (jobId itemId : string) (s : State)
  : option (TransferJob * nat * TransferItem) :=
  match List.find (fun j => String.eqb (job_id j) jobId) (jobs s) with
  | None => None
  | Some job =>
      match ConfigService.findIndex (fun i => String.eqb (item_id i) itemId) (items job),
            List.find (fun i => String.eqb (item_id i) itemId) (items job) with
      | Some idx, Some item =>
          match status item with
          | Failed => Some (job, idx, item)
          | _ => None
          end
      | _, _ => None
      end
  end.

(** [onlyItem r idx]: of all job objects only [r] may have changed, and in
    it only the item [idx] (and fields of the job other than [items]), and
    not the retry count of that item. *)
Definition onlyItem (r idx : nat) (s s' : State) : Prop :=
  (forall r', r' <> r -> heap s' !! r' = heap s !! r')
  /\ match heap s !! r with
     | Some job =>
         exists job',
           heap s' !! r = Some job'
           /\ length (items job') = length (items job)
           /\ (forall j, j <> idx -> items job' !! j = items job !! j)
           /\ retryCount <$> items job' !! idx = retryCount <$> items job !! idx
     | None => heap s' !! r = None
     end.

#[local] Instance onlyItem_preorder (r idx : nat) : PreOrder (onlyItem r idx).
Proof.
  split.
  - intros s. split; [reflexivity|].
    destruct (heap s !! r) as [job|] eqn:H; [|reflexivity].
    exists job. repeat split; reflexivity.
  - intros s1 s2 s3 [Ho1 H1] [Ho2 H2]. split.
    + intros r' Hne. rewrite Ho2, Ho1 by exact Hne. reflexivity.
    + destruct (heap s1 !! r) as [j1|].
      * destruct H1 as (j2 & Hj2 & Hl2 & Hi2 & Hc2). rewrite Hj2 in H2.
        destruct H2 as (j3 & Hj3 & Hl3 & Hi3 & Hc3).
        exists j3. split; [exact Hj3|]. split; [congruence|]. split.
        -- intros j Hj. rewrite Hi3, Hi2 by exact Hj. reflexivity.
        -- congruence.
      * rewrite H1 in H2. exact H2.
Qed.

Lemma onlyItem_quiet {A} (r idx : nat) (m : M A) :
  (forall s, heap (snd (m s)) = heap s) -> preserves (onlyItem r idx) m.
Proof.
  intros H s. unfold onlyItem. rewrite (H s). split; [reflexivity|].
  destruct (heap s !! r) as [job|]; [|reflexivity].
  exists job. repeat split; reflexivity.
Qed.

Lemma onlyItem_updJob (r idx : nat) (f : TransferJob -> TransferJob) :
  (forall j, items (f j) = items j) ->
  preserves (onlyItem r idx) (TransferService.updJob r f).
Proof.
  intros Hf s. unfold TransferService.updJob, modify. simpl. split.
  - intros r' Hne. apply lookup_alter_ne. congruence.
  - destruct (heap s !! r) as [job|] eqn:Hh; simpl; rewrite lookup_alter_eq, Hh; simpl;
      [|reflexivity].
    exists (f job). rewrite Hf. repeat split; reflexivity.
Qed.

Lemma onlyItem_updItem (r idx : nat) (f : TransferItem -> TransferItem) :
  (forall it, retryCount (f it) = retryCount it) ->
  preserves (onlyItem r idx) (TransferService.updItem r idx f).
Proof.
  intros Hf s. unfold TransferService.updItem, TransferService.updJob, modify. simpl.
  split.
  - intros r' Hne. apply lookup_alter_ne. congruence.
  - destruct (heap s !! r) as [job|] eqn:Hh; simpl; rewrite lookup_alter_eq, Hh; simpl;
      [|reflexivity].
    eexists. split; [reflexivity|]. simpl. split; [apply length_alter|]. split.
    + intros j Hj. apply list_lookup_alter_ne. congruence.
    + rewrite list_lookup_alter_eq. destruct (items job !! idx); simpl; [|reflexivity].
      rewrite Hf. reflexivity.
Qed.

Ltac item_quiet_step :=
  idtac;
  match goal with
  | |- preserves (onlyItem _ _) (modify (set_connections _)) => apply onlyItem_quiet; reflexivity
  | |- preserves (onlyItem _ _) (modify (set_activeJobs _)) => apply onlyItem_quiet; reflexivity
  | |- preserves (onlyItem _ _) (modify (set_downloadQueue _)) => apply onlyItem_quiet; reflexivity
  | |- preserves (onlyItem _ _) (modify (set_uploadedFiles _)) => apply onlyItem_quiet; reflexivity
  | |- preserves (onlyItem _ _) (modify (set_jobs _)) => apply onlyItem_quiet; reflexivity
  | |- preserves (onlyItem _ _) (modify (set_trace _)) => apply onlyItem_quiet; reflexivity
  | |- preserves (onlyItem _ _) tick => apply onlyItem_quiet; reflexivity
  | |- preserves (onlyItem _ _) (emit _) => apply onlyItem_quiet; reflexivity
  end.

Ltac item_step :=
  first [ apply onlyItem_updItem; intros; reflexivity
        | apply onlyItem_updJob; intros; reflexivity
        | item_quiet_step ].

Lemma pendingSlots_item (r idx : nat) (destIds : list string) :
  preserves (onlyItem r idx) (TransferService.pendingSlots destIds).
Proof.
  induction destIds as [|d ds IH]; simpl;
    pres_go ltac:(first [item_step | exact IH]).
Qed.

(** [processItem] works on its item only. *)
Lemma processItem_item (W : World) (r idx : nat) :
  preserves (onlyItem r idx) (TransferService.processItem W r idx).
Proof.
  unfold TransferService.processItem.
  pres_go ltac:(first [apply pendingSlots_item | item_step]).
Qed.

Lemma list_alter_insert {A} (f : A -> A) (l : list A) (i : nat) (x : A) :
  l !! i = Some x -> alter f i l = <[i := f x]> l.
Proof.
  revert i. induction l as [|y l IH]; intros [|i] H; simpl in *; try discriminate.
  - injection H as ->. reflexivity.
  - f_equal. apply IH, H.
Qed.

Lemma retryItem_cases (W : World) (jobId itemId : string) (s : State) :
  TransferService.retryItem W jobId itemId s
  = match List.find (fun j => String.eqb (job_id j) jobId) (jobs s) with
    | None => (inr tt, s)
    | Some job =>
        match ConfigService.findIndex (fun i => String.eqb (item_id i) itemId) (items job),
              List.find (fun i => String.eqb (item_id i) itemId) (items job) with
        | Some idx, Some item =>
            match status item with
            | Failed =>
                (r <- TransferService.alloc job ;;
                 TransferService.updItem r idx
                   (fun it => TransferService.withRetryCount (retryCount it + 1)
                                (TransferService.withError None
                                   (TransferService.withStatus Pending it))) ;;;
                 TransferService.processItem W r idx) s
            | _ => (inr tt, s)
            end
        | _, _ => (inr tt, s)
        end
    end.
Proof.
  unfold TransferService.retryItem, ConfigService.getJobById.
  unfold bind at 1, gets at 1. cbv beta.
  destruct (List.find _ (jobs s)) as [job|]; [|reflexivity].
  destruct (ConfigService.findIndex _ (items job)) as [idx|]; [|reflexivity].
  destruct (List.find _ (items job)) as [item|]; [|reflexivity].
  destruct (status item); reflexivity.
Qed.

(** C8.  When the stored job has an item of that id whose status is
    [failed], [retryItem] sets the status of that item to [pending], clears
    its error, adds 1 to its retry count and runs [processItem] once, on
    that item of the job object it loaded: afterwards the retry count is
    the old one plus 1 and the other items of the object, and every other
    job object, are as they were.  In every other case (no such job, no
    such item, another status) [retryItem] returns and changes nothing. *)
Theorem C8_retry_resets_and_reprocesses_one_item
    (W : World) (jobId itemId : string) (s : State) :
  match retryTarget jobId itemId s with
  | None => TransferService.retryItem W jobId itemId s = (inr tt, s)
  | Some (job, idx, item) =>
      let r := fresh (dom (heap s)) in
      let reset := TransferService.withRetryCount (retryCount item + 1)
                     (TransferService.withError None
                        (TransferService.withStatus Pending item)) in
      let loaded :=
        set_heap (fun h => <[r := TransferService.withItems
                                     (<[idx := reset]> (items job)) job]> h) s in
      let final := snd (TransferService.retryItem W jobId itemId s) in
      heap s !! r = None
      /\ items job !! idx = Some item
      /\ status item = Failed
      /\ status reset = Pending /\ error reset = None
      /\ retryCount reset = retryCount item + 1
      /\ TransferService.retryItem W jobId itemId s
         = TransferService.processItem W r idx loaded
      /\ exists after,
           heap final !! r = Some after
           /\ length (items after) = length (items job)
           /\ (forall j, j <> idx -> items after !! j = items job !! j)
           /\ retryCount <$> items after !! idx = Some (retryCount item + 1)
           /\ (forall r', r' <> r -> heap final !! r' = heap s !! r')
  end.
Proof.
  rewrite !retryItem_cases. unfold retryTarget.
  destruct (List.find _ (jobs s)) as [job|]; [|reflexivity].
  destruct (ConfigService.findIndex _ (items job)) as [idx|] eqn:Hidx; [|reflexivity].
  destruct (List.find _ (items job)) as [item|] eqn:Hitem; [|reflexivity].
  pose proof (findIndex_find _ _ _ _ Hidx Hitem) as Hlook.
  destruct (status item) eqn:Hst; try reflexivity.
  set (r := fresh (dom (heap s))).
  set (reset := TransferService.withRetryCount (retryCount item + 1)
                  (TransferService.withError None
                     (TransferService.withStatus Pending item))).
  set (loaded := set_heap _ s).
  assert (Hfresh : heap s !! r = None).
  { apply not_elem_of_dom. unfold r. apply is_fresh. }
  assert (Hrun : (r0 <- TransferService.alloc job ;;
                  TransferService.updItem r0 idx
                    (fun it => TransferService.withRetryCount (retryCount it + 1)
                                 (TransferService.withError None
                                    (TransferService.withStatus Pending it))) ;;;
                  TransferService.processItem W r0 idx) s
                 = TransferService.processItem W r idx loaded).
  { unfold bind, TransferService.alloc, TransferService.updItem,
      TransferService.updJob, modify. simpl. fold r. f_equal.
    unfold loaded, set_heap. simpl. f_equal.
    apply map_eq. intros k. destruct (decide (k = r)) as [->|Hk].
    - rewrite lookup_alter_eq, !lookup_insert_eq. simpl.
      rewrite (list_alter_insert _ _ _ _ Hlook). reflexivity.
    - rewrite lookup_alter_ne, !lookup_insert_ne by congruence. reflexivity. }
  split; [exact Hfresh|]. split; [exact Hlook|]. split; [exact Hst|].
  split; [reflexivity|]. split; [reflexivity|]. split; [reflexivity|].
  split; [exact Hrun|].
  rewrite Hrun.
  destruct (processItem_item W r idx loaded) as [Hothers Hitem'].
  assert (Hload : heap loaded !! r
                  = Some (TransferService.withItems (<[idx := reset]> (items job)) job)).
  { unfold loaded. simpl. apply lookup_insert_eq. }
  rewrite Hload in Hitem'. destruct Hitem' as (after & Hafter & Hlen & Hrest & Hcount).
  simpl in Hlen, Hrest, Hcount.
  exists after. split; [exact Hafter|]. split; [rewrite Hlen; apply length_insert|].
  split; [|split].
  - intros j Hj. rewrite Hrest by exact Hj. apply list_lookup_insert_ne. congruence.
  - rewrite Hcount, list_lookup_insert_eq; [reflexivity|].
    eapply lookup_lt_Some, Hlook.
  - intros r' Hr'. rewrite Hothers by exact Hr'. unfold loaded. simpl.
    apply lookup_insert_ne. congruence.
Qed.

(** A retry of the archive whose upload failed: the item is reprocessed and
    ends as uploaded, with a retry count of 1. *)
Example retry_of_failed_upload :
  let final := snd (TransferService.retryItem Scenario.calm "job-1" "item-1"
                      Scenario.afterFailure) in
  retryTarget "job-1" "item-1" Scenario.afterFailure
    = Some (Scenario.failedJob, 0%nat, Scenario.failedItem)
  /\ ((fun it => (status it, error it, retryCount it))
        <$> (heap final !! 0%nat ≫= fun j => items j !! 0%nat))
     = Some (Uploaded, None, 1)
  /\ Trace.published (trace final) = ["transfer_1700000000005.zip"].
Proof. vm_compute. repeat split. Qed.

(** ** The ids of the published parts are distinct

    [broadcastFileUploaded] replaces the entry that has the id of the new
    part, or appends the part when no entry has it: the ids of the parts
    published for a job stay distinct, which is what the download worker's
    count of processed parts relies on. *)

Lemma findIndex_Some {A} (p : A -> bool) (l : list A) (i : nat) :
  ConfigService.findIndex p l = Some i -> exists x, l !! i = Some x /\ p x = true.
Proof.
  revert i. induction l as [|y l IH]; intros i Hi; simpl in *; [discriminate|].
  destruct (p y) eqn:Hp.
  - injection Hi as <-. exists y. split; [reflexivity|exact Hp].
  - destruct (ConfigService.findIndex p l) as [j|]; simpl in Hi; [|discriminate].
    injection Hi as <-. apply IH. reflexivity.
Qed.

Lemma findIndex_None {A} (p : A -> bool) (l : list A) :
  ConfigService.findIndex p l = None -> Forall (fun x => p x = false) l.
Proof.
  induction l as [|y l IH]; intros Hi; simpl in *; [constructor|].
  destruct (p y) eqn:Hp; [discriminate|].
  destruct (ConfigService.findIndex p l) as [j|]; simpl in Hi; [discriminate|].
  constructor; [exact Hp|apply IH; reflexivity].
Qed.


(** ** Two runs for the record *)

(** A cancellation while the first part is still waiting: the loop of the
    download worker breaks with nothing processed, and the bulk extraction
    runs all the same. *)
Example cancelled_run_still_extracts :
  let run := TransferService.downloadWorker Scenario.calm 0 []
               [TransferService.CancelRequested] Scenario.staged in
  fst run = inr (TransferService.Finished TransferService.ExitCancelled ∅)
  /\ Trace.commandsOn "dest-1" (trace (snd run))
     = [TransferService.pkillCommand "rclone.*copyto";
        TransferService.pkillCommand "unzip";
        TransferService.bulkUnzipCommand "/srv/in" "transfer_1700000000005";
        TransferService.bulkRmCommand "/srv/in" "transfer_1700000000005"].
Proof. vm_compute. split; reflexivity. Qed.

(** A retry has no target exactly when the store has no job of that id, or
    the job has no item of that id, or the item is not failed. *)
Lemma retryTarget_None_iff (jobId itemId : string) (s : State) :
  retryTarget jobId itemId s = None
  <-> List.find (fun j => String.eqb (job_id j) jobId) (jobs s) = None
      \/ exists job,
           List.find (fun j => String.eqb (job_id j) jobId) (jobs s) = Some job
           /\ (List.find (fun i => String.eqb (item_id i) itemId) (items job) = None
               \/ exists item,
                    List.find (fun i => String.eqb (item_id i) itemId) (items job)
                    = Some item
                    /\ status item <> Failed).
Proof.
  unfold retryTarget.
  destruct (List.find _ (jobs s)) as [job|]; [|split; [left; reflexivity|reflexivity]].
  destruct (List.find _ (items job)) as [item|] eqn:Hitem.
  - assert (Hidx : exists idx,
               ConfigService.findIndex (fun i => String.eqb (item_id i) itemId) (items job)
               = Some idx).
    { clear -Hitem. induction (items job) as [|y l IH]; simpl in *; [discriminate|].
      destruct (String.eqb (item_id y) itemId); [eauto|].
      destruct (IH Hitem) as [idx ->]. simpl. eauto. }
    destruct Hidx as [idx ->].
    split.
    + intros H. right. exists job. split; [reflexivity|]. right. exists item.
      split; [exact Hitem|]. destruct (status item); congruence.
    + intros [H|(job' & Hj & [H|(item' & Hi & Hst)])]; try discriminate.
      * injection Hj as <-. congruence.
      * injection Hj as <-. rewrite Hitem in Hi. injection Hi as <-.
        destruct (status item); congruence.
  - split; [|intros _; destruct (ConfigService.findIndex _ _); reflexivity].
    intros _. right. exists job. split; [reflexivity|]. left. exact Hitem.
Qed.

(* ===================================================================== *)
(** * Further properties of the services and of the window stores        *)
(* ===================================================================== *)

(** ** Decimal numerals: [String(n)] and [parseInt] *)

(** The value of a numeral read after the digits that gave [acc]. *)
Fixpoint horner (d : Decimal.uint) (acc : Z) : Z :=
  match d with
  | Decimal.Nil => acc
  | Decimal.D0 d => horner d (10 * acc + 0)
  | Decimal.D1 d => horner d (10 * acc + 1)
  | Decimal.D2 d => horner d (10 * acc + 2)
  | Decimal.D3 d => horner d (10 * acc + 3)
  | Decimal.D4 d => horner d (10 * acc + 4)
  | Decimal.D5 d => horner d (10 * acc + 5)
  | Decimal.D6 d => horner d (10 * acc + 6)
  | Decimal.D7 d => horner d (10 * acc + 7)
  | Decimal.D8 d => horner d (10 * acc + 8)
  | Decimal.D9 d => horner d (10 * acc + 9)
  end.

Lemma app_cons (c : ascii) (s t : string) : String c s +:+ t = String c (s +:+ t).
Proof. reflexivity. Qed.

Lemma app_empty_l (t : string) : EmptyString +:+ t = t.
Proof. reflexivity. Qed.

Lemma app_assoc_s (s t u : string) : (s +:+ t) +:+ u = s +:+ (t +:+ u).
Proof. induction s as [|c s IH]; [reflexivity|]. rewrite !app_cons, IH. reflexivity. Qed.

Lemma app_empty_r (s : string) : s +:+ EmptyString = s.
Proof. induction s as [|c s IH]; [reflexivity|]. rewrite app_cons, IH. reflexivity. Qed.


Lemma digitsValue_numeral (d : Decimal.uint) (rest : string) : forall acc,
  JS.digitsValue (NilEmpty.string_of_uint d +:+ rest) (Some acc)
  = JS.digitsValue rest (Some (horner d acc)).
Proof.
  induction d; intros acc; simpl; try reflexivity; apply IHd.
Qed.

Lemma horner_of_uint_acc (d : Decimal.uint) : forall acc,
  Z.pos (Pos.of_uint_acc d acc) = horner d (Z.pos acc).
Proof.
  induction d; intros acc; simpl; try reflexivity;
    rewrite IHd; f_equal; lia.
Qed.

Lemma horner_of_uint (d : Decimal.uint) : Z.of_N (Pos.of_uint d) = horner d 0.
Proof.
  induction d; simpl; try reflexivity; try exact IHd;
    rewrite horner_of_uint_acc; reflexivity.
Qed.

Lemma horner_to_uint (p : positive) : horner (Pos.to_uint p) 0 = Z.pos p.
Proof.
  rewrite <- horner_of_uint, DecimalPos.Unsigned.of_to. reflexivity.
Qed.

Lemma to_uint_nonnil (p : positive) : Pos.to_uint p <> Decimal.Nil.
Proof.
  intros H. pose proof (horner_to_uint p) as Hp. rewrite H in Hp. discriminate.
Qed.

(** The string starts with a digit. *)
Definition headDigit (s : string) : bool :=
  match s with String c _ => JS.isDigit c | EmptyString => false end.

(** The string does not go on with a digit. *)
Definition stops (s : string) : bool := negb (headDigit s).

Lemma digitsValue_stops (s : string) (acc : option Z) :
  stops s = true -> JS.digitsValue s acc = acc.
Proof.
  destruct s as [|c s]; [reflexivity|]. unfold stops. simpl.
  destruct (JS.isDigit c); [discriminate|reflexivity].
Qed.

Lemma digit_not_space (c : ascii) : JS.isDigit c = true -> JS.isSpace c = false.
Proof.
  destruct c as [[] [] [] [] [] [] [] []]; try discriminate; reflexivity.
Qed.

Lemma digit_not_sign (c : ascii) :
  JS.isDigit c = true -> c <> "-"%char /\ c <> "+"%char.
Proof.
  intros H. split; intros ->; discriminate.
Qed.

Lemma parseInt_headDigit (s : string) :
  headDigit s = true -> JS.parseInt s = JS.digitsValue s (Some 0).
Proof.
  destruct s as [|c s]; [discriminate|]. simpl. intros Hc.
  unfold JS.parseInt. simpl. rewrite (digit_not_space c Hc).
  destruct c as [[] [] [] [] [] [] [] []]; try discriminate; reflexivity.
Qed.

Lemma headDigit_numeral (d : Decimal.uint) (rest : string) :
  d <> Decimal.Nil -> headDigit (NilEmpty.string_of_uint d +:+ rest) = true.
Proof.
  destruct d; intros H; try reflexivity. congruence.
Qed.

Lemma toString_pos (p : positive) :
  JS.toString (Z.pos p) = NilEmpty.string_of_uint (Pos.to_uint p).
Proof.
  unfold JS.toString. simpl. pose proof (to_uint_nonnil p) as H.
  destruct (Pos.to_uint p); try reflexivity. congruence.
Qed.



(** ** Part numbers *)

Lemma digitsValue_zeros (k : nat) (s : string) :
  JS.digitsValue (JS.repeatChar "0" k +:+ s) (Some 0) = JS.digitsValue s (Some 0).
Proof.
  induction k as [|k IH]; [reflexivity|]. simpl. exact IH.
Qed.

Lemma headDigit_zeros (k : nat) (s : string) :
  headDigit s = true -> headDigit (JS.repeatChar "0" k +:+ s) = true.
Proof.
  destruct k; [trivial|reflexivity].
Qed.

(** The part number reads back as the index of the batch plus one. *)
Lemma parseInt_partNum (i : nat) (rest : string) :
  stops rest = true ->
  JS.parseInt (TransferService.partNum i +:+ rest) = Some (Z.of_nat i + 1).
Proof.
  intros Hr. unfold TransferService.partNum, JS.padStart.
  destruct (Z.of_nat i + 1) as [|p|p] eqn:Hp; try lia.
  rewrite toString_pos, app_assoc_s.
  rewrite parseInt_headDigit
    by (apply headDigit_zeros, headDigit_numeral, to_uint_nonnil).
  rewrite digitsValue_zeros, digitsValue_numeral, digitsValue_stops by exact Hr.
  rewrite horner_to_uint. reflexivity.
Qed.

Lemma partNum_inj (i j : nat) (rest : string) :
  stops rest = true ->
  TransferService.partNum i +:+ rest = TransferService.partNum j +:+ rest -> i = j.
Proof.
  intros Hr H.
  pose proof (parseInt_partNum i rest Hr) as Hi.
  pose proof (parseInt_partNum j rest Hr) as Hj.
  rewrite H, Hj in Hi. injection Hi as Hi. lia.
Qed.

(** X3: in a run of more than one batch, different batches get different
    archive names and different file ids: no part replaces another one in
    [/tmp], on the drive, in a destination folder or in the list of uploaded
    files. *)
Theorem parts_have_distinct_names (base itemId : string) (nBatches i j : nat) :
  nBatches <> 1%nat -> i <> j ->
  TransferService.partFileName base nBatches i
    <> TransferService.partFileName base nBatches j
  /\ itemId +:+ "_part" +:+ TransferService.partNum i
     <> itemId +:+ "_part" +:+ TransferService.partNum j.
Proof.
  intros Hn Hij. split; intros H; apply Hij.
  - unfold TransferService.partFileName in H.
    destruct (Nat.eqb_spec nBatches 1) as [->|_]; [congruence|].
    apply String.app_inj in H. apply (String.app_inj ".part") in H.
    exact (partNum_inj i j ".zip" eq_refl H).
  - apply String.app_inj in H. apply (String.app_inj "_part") in H.
    apply (partNum_inj i j EmptyString eq_refl).
    rewrite !app_empty_r. exact H.
Qed.

Lemma parts_have_distinct_names_witness :
  TransferService.partFileName "transfer_1" 3 0 = "transfer_1.part001.zip"
  /\ TransferService.partFileName "transfer_1" 3 0
     <> TransferService.partFileName "transfer_1" 3 1.
Proof.
  split; [reflexivity|].
  apply (parts_have_distinct_names "transfer_1" "item_1" 3 0 1); lia.
Defined.

(** ** The listing of the source folder *)

(** No character of the string is [c]. *)
Fixpoint lacks (c : ascii) (s : string) : bool :=
  match s with
  | EmptyString => true
  | String a s' => negb (Ascii.eqb a c) && lacks c s'
  end.


Lemma splitOn_lacks (c : ascii) (s : string) :
  lacks c s = true -> JS.splitOn c s = [s].
Proof.
  induction s as [|a s IH]; [reflexivity|]. simpl. intros H.
  apply andb_true_iff in H as [Ha Hs]. apply negb_true_iff in Ha.
  rewrite Ha, (IH Hs). reflexivity.
Qed.

Lemma splitOn_nonnil (c : ascii) (s : string) : JS.splitOn c s <> [].
Proof.
  destruct s as [|a s]; simpl; [discriminate|].
  destruct (Ascii.eqb a c); [discriminate|].
  destruct (JS.splitOn c s); discriminate.
Qed.







































(** ** The plan is greedy *)

Section Greedy.
Import Planner.
Variable B : Z.

(** The batch [b1] could not have taken the first file of [b2]. *)
Definition overflows (b1 b2 : list FileEntry) : Prop :=
  match b2 with
  | x :: _ => totalSize b1 + size x > B
  | [] => True
  end.

(** Every batch overflows with the first file of the next one. *)
Definition tight (bs : list (list FileEntry)) : Prop :=
  forall i b1 b2, bs !! i = Some b1 -> bs !! S i = Some b2 -> overflows b1 b2.

Definition nonneg (b : list FileEntry) : Prop := Forall (fun f => 0 <= size f) b.

Lemma totalSize_nonneg b : nonneg b -> 0 <= totalSize b.
Proof.
  induction 1 as [|x b Hx Hb IH]; simpl; lia.
Qed.

Lemma tight_snoc bs b :
  tight bs -> (forall b', last bs = Some b' -> overflows b' b) -> tight (bs ++ [b]).
Proof.
  intros Ht Hl i b1 b2 H1 H2.
  destruct (decide (S i < length bs)%nat) as [Hlt|Hge].
  - rewrite lookup_app_l in H1 by lia. rewrite lookup_app_l in H2 by lia.
    exact (Ht i b1 b2 H1 H2).
  - pose proof (lookup_lt_Some _ _ _ H2) as Hlen. rewrite length_app in Hlen.
    simpl in Hlen. assert (Hi : S i = length bs) by lia.
    rewrite lookup_app_r in H2 by lia. rewrite Hi, Nat.sub_diag in H2.
    injection H2 as <-.
    rewrite lookup_app_l in H1 by lia. apply Hl.
    rewrite last_lookup, <- Hi. exact H1.
Qed.

(** The invariant of the loop: the flushed batches are tight, the last of
    them overflows with the first file of the open batch, and is itself
    over the limit when the open batch is empty. *)
Definition greedy (st : Loop) : Prop :=
  tight (batches st)
  /\ Forall nonneg (batches st)
  /\ nonneg (currentBatch st)
  /\ currentBatchSize st = totalSize (currentBatch st)
  /\ (forall b, last (batches st) = Some b ->
        overflows b (currentBatch st)
        /\ (currentBatch st = [] -> totalSize b > B)).


Lemma greedy_flushed st :
  greedy st -> currentBatch st <> [] ->
  tight (batches st ++ [currentBatch st])
  /\ Forall nonneg (batches st ++ [currentBatch st]).
Proof.
  intros (Ht & Hn & Hc & _ & Hl) Hne. split.
  - apply tight_snoc; [exact Ht|]. intros b Hb. apply (Hl b Hb).
  - apply Forall_app. split; [exact Hn|]. constructor; [exact Hc|constructor].
Qed.

Lemma greedy_intro (st : Loop) :
  tight (batches st) -> Forall nonneg (batches st) -> nonneg (currentBatch st) ->
  currentBatchSize st = totalSize (currentBatch st) ->
  (forall b, last (batches st) = Some b -> overflows b (currentBatch st)) ->
  (forall b, last (batches st) = Some b -> currentBatch st = [] -> totalSize b > B) ->
  greedy st.
Proof.
  intros H1 H2 H3 H4 H5 H6. repeat (split; [assumption|]).
  intros b Hb. split; [apply H5, Hb|apply H6, Hb].
Qed.

Lemma greedy_start : greedy start.
Proof.
  apply greedy_intro; simpl.
  - intros i b1 b2 H. discriminate H.
  - constructor.
  - constructor.
  - reflexivity.
  - discriminate.
  - discriminate.
Qed.

Lemma greedy_step st f : 0 <= size f -> greedy st -> greedy (step B st f).
Proof.
  intros Hf Hst. unfold step.
  destruct (size f >? B) eqn:Hbig.
  - assert (Hgt : size f > B) by lia.
    destruct (0 <? length (currentBatch st))%nat eqn:Hne.
    + apply nonempty_ltb in Hne.
      destruct (greedy_flushed st Hst Hne) as [Ht Hn].
      destruct Hst as (_ & _ & Hc & _ & _).
      apply greedy_intro; simpl.
      * apply tight_snoc; [exact Ht|]. intros b Hb.
        rewrite last_snoc in Hb. injection Hb as <-. simpl.
        pose proof (totalSize_nonneg _ Hc). lia.
      * apply Forall_app. split; [exact Hn|]. repeat constructor. exact Hf.
      * constructor.
      * reflexivity.
      * intros b _. exact I.
      * intros b Hb _. rewrite last_snoc in Hb. injection Hb as <-. simpl. lia.
    + apply empty_ltb in Hne.
      destruct Hst as (Ht & Hn & Hc & Hs & Hl).
      apply greedy_intro; simpl.
      * apply tight_snoc; [exact Ht|]. intros b Hb. simpl.
        destruct (Hl b Hb) as [_ Hover]. specialize (Hover Hne). lia.
      * apply Forall_app. split; [exact Hn|]. repeat constructor. exact Hf.
      * exact Hc.
      * exact Hs.
      * intros b _. rewrite Hne. exact I.
      * intros b Hb _. rewrite last_snoc in Hb. injection Hb as <-. simpl. lia.
  - destruct ((currentBatchSize st + size f >? B) && (0 <? length (currentBatch st))%nat)
      eqn:Hfl.
    + apply andb_true_iff in Hfl as [Hover Hne]. apply nonempty_ltb in Hne.
      destruct (greedy_flushed st Hst Hne) as [Ht Hn].
      destruct Hst as (_ & _ & Hc & Hs & _).
      apply greedy_intro; simpl.
      * exact Ht.
      * exact Hn.
      * repeat constructor. exact Hf.
      * lia.
      * intros b Hb. rewrite last_snoc in Hb. injection Hb as <-. simpl. lia.
      * intros b _ He. discriminate He.
    + destruct Hst as (Ht & Hn & Hc & Hs & Hl).
      apply greedy_intro; simpl.
      * exact Ht.
      * exact Hn.
      * apply Forall_app. split; [exact Hc|]. repeat constructor. exact Hf.
      * rewrite totalSize_snoc. lia.
      * intros b Hb. destruct (Hl b Hb) as [Ho He].
        destruct (currentBatch st) as [|x cur]; simpl in *; [|exact Ho].
        specialize (He eq_refl). lia.
      * intros b _ He. destruct (currentBatch st); discriminate He.
Qed.

Lemma greedy_fold files : forall st,
  nonneg files -> greedy st -> greedy (fold_left (step B) files st).
Proof.
  induction files as [|f files IH]; intros st Hn Hst; simpl; [exact Hst|].
  apply Forall_cons in Hn as [Hf Hn]. apply IH; [exact Hn|].
  apply greedy_step; assumption.
Qed.

End Greedy.

(** X1: the plan is greedy.  When no file has a negative size, every batch
    but the last is full: with the first file of the next batch it would
    exceed the limit.  So no two neighbouring batches could have been
    merged. *)
Theorem batches_are_tight (B : Z) (files : list Planner.FileEntry)
    (i : nat) (b1 b2 : list Planner.FileEntry) (x : Planner.FileEntry) :
  Forall (fun f => 0 <= Planner.size f) files ->
  Planner.splitBatches B files !! i = Some b1 ->
  Planner.splitBatches B files !! S i = Some (x :: b2) ->
  Planner.totalSize b1 + Planner.size x > B.
Proof.
  intros Hn H1 H2.
  pose proof (greedy_fold B files Planner.start Hn (greedy_start B))
    as (Ht & _ & _ & _ & Hl).
  unfold Planner.splitBatches in H1, H2. cbv zeta in H1, H2.
  destruct (0 <? length (Planner.currentBatch (fold_left (Planner.step B) files Planner.start)))%nat.
  - refine (tight_snoc B _ _ Ht _ i b1 (x :: b2) H1 H2).
    intros b Hb. apply (Hl b Hb).
  - exact (Ht i b1 (x :: b2) H1 H2).
Qed.

Definition threeFiles : list Planner.FileEntry :=
  [ {| Planner.size := 600; Planner.path := "/data/a"; Planner.relativePath := "a" |};
    {| Planner.size := 300; Planner.path := "/data/b"; Planner.relativePath := "b" |};
    {| Planner.size := 500; Planner.path := "/data/c"; Planner.relativePath := "c" |} ].

Lemma batches_are_tight_witness :
  length (Planner.splitBatches 1000 threeFiles) = 2%nat
  /\ 600 + 300 + 500 > 1000.
Proof.
  split; [reflexivity|].
  refine (batches_are_tight 1000 threeFiles 0
            [ {| Planner.size := 600; Planner.path := "/data/a"; Planner.relativePath := "a" |};
              {| Planner.size := 300; Planner.path := "/data/b"; Planner.relativePath := "b" |} ]
            []
            {| Planner.size := 500; Planner.path := "/data/c"; Planner.relativePath := "c" |}
            _ _ _).
  - repeat constructor; simpl; lia.
  - reflexivity.
  - reflexivity.
Defined.

(** ** The session pool *)

(** What [connect] does, case by case. *)
Lemma connect_cases (W : World) (config : SSHConfig) (s : State) :
  (is_Some (connections s !! srv_id config)
   /\ SSHService.connect W config s = (inr ok, s))
  \/ (connections s !! srv_id config = None
      /\ exists e, SSHService.connect W config s = (inr (failure e), s))
  \/ (connections s !! srv_id config = None
      /\ w_dial W (clock s) config = None
      /\ SSHService.connect W config s
         = (inr ok,
            set_connections
              (fun c => <[srv_id config := {| conn_id := srv_id config;
                                              conn_config := config |}]> c)
              (set_trace (fun t => t ++ [EvDial config]) (set_clock S s))))
  \/ (connections s !! srv_id config = None
      /\ exists e, w_dial W (clock s) config = Some e
         /\ SSHService.connect W config s
            = (inr (failure e),
               set_connections (fun c => delete (srv_id config) c)
                 (set_trace (fun t => t ++ [EvDial config]) (set_clock S s)))).
Proof.
  unfold SSHService.connect, bind, gets.
  destruct (connections s !! srv_id config) as [c|] eqn:Hc.
  { left. split; [eauto|reflexivity]. }
  right.
  set (keyError := match srv_authType config with
                   | AuthKey => _ | _ => _ end).
  destruct keyError as [e|].
  { left. split; [reflexivity|]. exists e. reflexivity. }
  right. unfold tick, emit, modify. simpl.
  destruct (w_dial W (clock s) config) as [e|] eqn:Hd.
  - right. split; [reflexivity|]. exists e. split; reflexivity.
  - left. repeat split; reflexivity.
Qed.

(** X4: [connect] never rejects, and it reports success exactly when a
    session for the server is in the pool afterwards; the sessions of the
    other servers are left as they are. *)
Theorem connect_success_iff_pooled (W : World) (config : SSHConfig) (s : State) :
  exists result s',
    SSHService.connect W config s = (inr result, s')
    /\ (success result = true <-> is_Some (connections s' !! srv_id config))
    /\ (forall id, id <> srv_id config -> connections s' !! id = connections s !! id).
Proof.
  destruct (connect_cases W config s)
    as [[Hin ->]|[[Hout [e ->]]|[(Hout & _ & ->)|(Hout & e & _ & ->)]]];
    eexists _, _; (split; [reflexivity|]); simpl.
  - split; [tauto|reflexivity].
  - rewrite Hout. split; [split; [discriminate|intros [x Hx]; discriminate]|reflexivity].
  - rewrite lookup_insert_eq. split; [split; eauto|].
    intros id Hid. rewrite lookup_insert_ne by congruence. reflexivity.
  - rewrite lookup_delete_eq. split; [split; [discriminate|intros [x Hx]; discriminate]|].
    intros id Hid. rewrite lookup_delete_ne by congruence. reflexivity.
Qed.

(** X5: a session is reused: once [connect] has succeeded, connecting
    again (as [testConnection], [startJob] and the preparation of a
    destination do) succeeds without dialling, reading a key or changing
    anything. *)
Theorem connect_reuses_session (W : World) (config : SSHConfig) (s s1 : State)
    (result : Result) :
  SSHService.connect W config s = (inr result, s1) ->
  success result = true ->
  SSHService.connect W config s1 = (inr ok, s1)
  /\ SSHService.testConnection W config s1 = (inr ok, s1).
Proof.
  intros Hrun Hok.
  assert (Hin : is_Some (connections s1 !! srv_id config)).
  { destruct (connect_cases W config s)
      as [[Hin H]|[[Hout [e H]]|[(Hout & _ & H)|(Hout & e & _ & H)]]];
      rewrite H in Hrun; injection Hrun as <- <-; simpl in *;
      try discriminate; [exact Hin|].
    rewrite lookup_insert_eq. eauto. }
  assert (H : SSHService.connect W config s1 = (inr ok, s1)).
  { destruct (connect_cases W config s1)
      as [[_ H]|[[Hout _]|[(Hout & _)|(Hout & _)]]];
      [exact H|..]; rewrite Hout in Hin; destruct Hin; discriminate. }
  split; exact H.
Qed.

Lemma connect_reuses_session_witness :
  exists s1,
    SSHService.connect Scenario.calm (Scenario.host "source") Scenario.idle = (inr ok, s1)
    /\ trace s1 = [EvDial (Scenario.host "source")]
    /\ SSHService.connect Scenario.calm (Scenario.host "source") s1 = (inr ok, s1).
Proof.
  eexists. split; [vm_compute; reflexivity|]. split; [reflexivity|].
  apply (connect_reuses_session Scenario.calm (Scenario.host "source") Scenario.idle _ ok);
    [vm_compute; reflexivity|reflexivity].
Defined.

(** What [exec] does on a host with a session. *)
Lemma exec_cases (W : World) (id cmd : string) (s : State) :
  is_Some (connections s !! id) ->
  (exists e, w_exec W (clock s) id cmd = ExecError e
             /\ SSHService.exec W id cmd s = (inl e, set_clock S s))
  \/ (exists chunks, w_exec W (clock s) id cmd = ExecClosed chunks
                     /\ SSHService.exec W id cmd s
                        = (inr (SSHService.closed chunks),
                           set_trace (fun t => t ++ [EvExec id cmd]) (set_clock S s))).
Proof.
  intros [c Hc]. unfold SSHService.exec, bind, gets. rewrite Hc.
  unfold tick, emit, modify. simpl.
  destruct (w_exec W (clock s) id cmd) as [e|chunks]; [left|right]; eauto.
Qed.

(** X6: [copyPublicKeyToServer] never rejects.  When it reports success,
    the last thing it sent out is the command that appends the key, and the
    session of the server has been closed, also when it was open before
    the call.  When it reports a failure no command has run, and a session
    that was open before the call is still open. *)
Theorem copyPublicKey_outcome (W : World) (config : SSHConfig) (publicKey : string)
    (s : State) :
  exists result s' evs,
    SSHService.copyPublicKeyToServer W config publicKey s = (inr result, s')
    /\ trace s' = trace s ++ evs
    /\ (success result = true ->
          connections s' !! srv_id config = None
          /\ last evs = Some (EvExec (srv_id config)
                                     (SSHService.appendKeyCommand publicKey)))
    /\ (success result = false ->
          Forall (fun e => exists c, e = EvDial c) evs
          /\ (is_Some (connections s !! srv_id config) ->
              connections s' = connections s)).
Proof.
  unfold SSHService.copyPublicKeyToServer, try_catch, bind.
  destruct (connect_cases W config s)
    as [[Hin ->]|[[Hout [e ->]]|[(Hout & _ & ->)|(Hout & e & _ & ->)]]]; simpl.
  - (* the session is reused *)
    destruct (exec_cases W (srv_id config) (SSHService.appendKeyCommand publicKey) s Hin)
      as [(e & _ & ->)|(chunks & _ & ->)]; simpl.
    + exists (failure e), (set_clock S s), []. rewrite app_nil_r.
      repeat split; try discriminate; auto.
    + eexists ok, _, [_]. split; [reflexivity|]. split; [reflexivity|].
      split; [|discriminate]. intros _. simpl. rewrite lookup_delete_eq. split; reflexivity.
  - (* the key cannot be read *)
    exists (failure e), s, []. rewrite app_nil_r.
    repeat split; try discriminate; auto.
  - (* a new session *)
    match goal with
    | |- context [SSHService.exec W ?id ?cmd ?s1] =>
        destruct (exec_cases W id cmd s1) as [(e & _ & ->)|(chunks & _ & ->)]
    end.
    { simpl. rewrite lookup_insert_eq. eauto. }
    + eexists (failure e), _, [_]. split; [reflexivity|]. split; [reflexivity|].
      split; [discriminate|]. intros _. split.
      * repeat constructor. eauto.
      * rewrite Hout. intros [x Hx]. discriminate.
    + eexists ok, _, [_; _]. split; [reflexivity|]. split.
      { simpl. rewrite <- app_assoc. reflexivity. }
      split; [|discriminate]. intros _. simpl. rewrite lookup_delete_eq.
      split; reflexivity.
  - (* the dial fails *)
    eexists (failure e), _, [_]. split; [reflexivity|]. split; [reflexivity|].
    split; [discriminate|]. intros _. split.
    + repeat constructor. eauto.
    + rewrite Hout. intros [x Hx]. discriminate.
Qed.

(** ** The path browser *)






Lemma slice_init {A} (l : list A) (x : A) : JS.slice (l ++ [x]) 0 (-1) = l.
Proof.
  unfold JS.slice, JS.relIndex. rewrite length_app. simpl.
  replace (0 <? 0) with false by reflexivity.
  replace (-1 <? 0) with true by reflexivity.
  rewrite Z.min_l by lia.
  replace (Z.to_nat (Z.max (Z.of_nat (length l + 1) + -1) 0 - 0)) with (length l) by lia.
  change (Z.to_nat 0) with 0%nat. rewrite drop_0.
  rewrite firstn_app, Nat.sub_diag, firstn_all. simpl. apply app_nil_r.
Qed.

Lemma splitOn_snoc (c : ascii) (s name : string) :
  lacks c name = true ->
  JS.splitOn c (s +:+ String c name) = JS.splitOn c s ++ [name].
Proof.
  intros Hn. induction s as [|a s IH].
  - rewrite app_empty_l. simpl. rewrite Ascii.eqb_refl, splitOn_lacks by exact Hn.
    reflexivity.
  - rewrite app_cons. simpl. rewrite IH.
    destruct (Ascii.eqb a c); [reflexivity|].
    pose proof (splitOn_nonnil c s) as Hne.
    destruct (JS.splitOn c s); [congruence|reflexivity].
Qed.

(** [join] undoes [split]. *)
Lemma join_splitOn (c : ascii) (s : string) :
  JS.join (String c EmptyString) (JS.splitOn c s) = s.
Proof.
  induction s as [|a s IH]; [reflexivity|]. simpl.
  pose proof (splitOn_nonnil c s) as Hne.
  destruct (Ascii.eqb_spec a c) as [->|Hac].
  - destruct (JS.splitOn c s) as [|w ws]; [congruence|].
    change (JS.join (String c EmptyString) (EmptyString :: w :: ws))
      with (EmptyString +:+ String c EmptyString
            +:+ JS.join (String c EmptyString) (w :: ws)).
    rewrite IH. reflexivity.
  - destruct (JS.splitOn c s) as [|w ws]; [congruence|].
    destruct ws as [|w' ws].
    + simpl in *. rewrite IH. reflexivity.
    + change (JS.join (String c EmptyString) (String a w :: w' :: ws))
        with (String a w +:+ String c EmptyString
              +:+ JS.join (String c EmptyString) (w' :: ws)).
      change (JS.join (String c EmptyString) (w :: w' :: ws))
        with (w +:+ String c EmptyString
              +:+ JS.join (String c EmptyString) (w' :: ws)) in IH.
      rewrite app_cons, IH. reflexivity.
Qed.

(** X8: going up undoes opening a folder: from any path that is not
    empty, [handleNavigate] into a folder followed by [handleGoUp] leads
    back to the path. *)
Theorem goUp_undoes_navigate (currentPath name : string) :
  currentPath <> EmptyString -> lacks "/" name = true ->
  PathBrowser.goUp (PathBrowser.navigate currentPath name) = currentPath.
Proof.
  intros Hne Hname. unfold PathBrowser.navigate, PathBrowser.goUp.
  destruct (String.eqb_spec currentPath "/") as [->|Hroot].
  - change ("/" +:+ name) with (EmptyString +:+ String "/" name).
    rewrite splitOn_snoc by exact Hname. rewrite slice_init. reflexivity.
  - change ("/" +:+ name) with (String "/" name).
    rewrite splitOn_snoc by exact Hname. rewrite slice_init, join_splitOn.
    unfold JS.strOr. destruct currentPath; [congruence|reflexivity].
Qed.

Lemma goUp_undoes_navigate_witness :
  PathBrowser.navigate "/srv/in" "my folder" = "/srv/in/my folder"
  /\ PathBrowser.goUp (PathBrowser.navigate "/srv/in" "my folder") = "/srv/in".
Proof.
  split; [reflexivity|].
  apply (goUp_undoes_navigate "/srv/in" "my folder"); [discriminate|reflexivity].
Defined.

(** ** The job store *)

Lemma find_insert_hit {A} (p : A -> bool) (l : list A) (i : nat) (x : A) :
  ConfigService.findIndex p l = Some i -> p x = true ->
  List.find p (<[i := x]> l) = Some x.
Proof.
  revert i. induction l as [|y l IH]; intros i Hi Hx; simpl in *; [discriminate|].
  destruct (p y) eqn:Hy.
  - injection Hi as <-. simpl. rewrite Hx. reflexivity.
  - destruct (ConfigService.findIndex p l) as [j|]; simpl in Hi; [|discriminate].
    injection Hi as <-. simpl. rewrite Hy. apply IH; [reflexivity|exact Hx].
Qed.

Lemma find_insert_miss {A} (q : A -> bool) (l : list A) (i : nat) (x y : A) :
  l !! i = Some y -> q y = false -> q x = false ->
  List.find q (<[i := x]> l) = List.find q l.
Proof.
  revert i. induction l as [|z l IH]; intros i Hi Hy Hx; [discriminate|].
  destruct i as [|i]; simpl in *.
  - injection Hi as ->. rewrite Hx, Hy. reflexivity.
  - destruct (q z); [reflexivity|]. apply (IH i); assumption.
Qed.

Lemma find_snoc_hit {A} (p : A -> bool) (l : list A) (x : A) :
  ConfigService.findIndex p l = None -> p x = true ->
  List.find p (l ++ [x]) = Some x.
Proof.
  intros Hi Hx. apply findIndex_None in Hi.
  induction Hi as [|y l Hy _ IH]; simpl; [rewrite Hx; reflexivity|].
  rewrite Hy. exact IH.
Qed.

Lemma find_snoc_miss {A} (q : A -> bool) (l : list A) (x : A) :
  q x = false -> List.find q (l ++ [x]) = List.find q l.
Proof.
  intros Hx. induction l as [|y l IH]; simpl; [rewrite Hx; reflexivity|].
  destruct (q y); [reflexivity|exact IH].
Qed.

(** The job that the store holds under an id. *)
Definition stored (id : string) (s : State) : option TransferJob :=
  List.find (fun j => String.eqb (job_id j) id) (jobs s).

(** X9: the job store is a map from ids to jobs: after [saveJob(job)],
    [getJobById] gives [job] for the id of [job] and what it gave before
    for every other id. *)
Theorem saveJob_then_getJobById (job : TransferJob) (id : string) (s : State) :
  exists s',
    (ConfigService.saveJob job ;;; ConfigService.getJobById id) s
    = (inr (if String.eqb (job_id job) id then Some job else stored id s), s')
    /\ ConfigService.getJobById id s = (inr (stored id s), s).
Proof.
  eexists. split; [|reflexivity].
  unfold ConfigService.saveJob, ConfigService.getJobById, bind, modify, gets. simpl.
  f_equal. f_equal. unfold stored.
  destruct (String.eqb_spec (job_id job) id) as [<-|Hne].
  - destruct (ConfigService.findIndex _ (jobs s)) as [i|] eqn:Hi.
    + apply find_insert_hit; [exact Hi|apply String.eqb_refl].
    + apply find_snoc_hit; [exact Hi|apply String.eqb_refl].
  - destruct (ConfigService.findIndex _ (jobs s)) as [i|] eqn:Hi.
    + destruct (findIndex_Some _ _ _ Hi) as (y & Hy & Hp).
      apply String.eqb_eq in Hp.
      apply (find_insert_miss _ _ _ _ y Hy); apply String.eqb_neq; congruence.
    + apply find_snoc_miss. apply String.eqb_neq. exact Hne.
Qed.

Lemma find_filter_ne (id id' : string) (js : list TransferJob) :
  List.find (fun j => String.eqb (job_id j) id) (filter (fun j => job_id j <> id') js)
  = if String.eqb id' id then None
    else List.find (fun j => String.eqb (job_id j) id) js.
Proof.
  induction js as [|j js IH]; simpl.
  - destruct (String.eqb id' id); reflexivity.
  - destruct (decide (job_id j <> id')) as [Hne|Heq].
    + rewrite filter_cons_True by exact Hne. simpl. rewrite IH.
      destruct (String.eqb_spec (job_id j) id) as [Hj|_]; [|reflexivity].
      destruct (String.eqb_spec id' id); [congruence|reflexivity].
    + rewrite filter_cons_False by exact Heq. rewrite IH.
      apply dec_stable in Heq.
      destruct (String.eqb_spec id' id) as [_|Hid]; [reflexivity|].
      destruct (String.eqb_spec (job_id j) id); [congruence|reflexivity].
Qed.

(** X10: after [deleteJob(id)] the store holds no job under [id], also
    when several entries carried that id, and holds what it held before
    under every other id. *)
Theorem deleteJob_then_getJobById (deleted id : string) (s : State) :
  exists s',
    (ConfigService.deleteJob deleted ;;; ConfigService.getJobById id) s
    = (inr (if String.eqb deleted id then None else stored id s), s')
    /\ Forall (fun j => job_id j <> deleted) (jobs s').
Proof.
  eexists. split.
  - unfold ConfigService.deleteJob, ConfigService.getJobById, bind, modify, gets. simpl.
    rewrite find_filter_ne. reflexivity.
  - simpl. apply Forall_forall. intros j Hj.
    apply list_elem_of_filter in Hj as [Hj _]. exact Hj.
Qed.

(** ** A frame rule for the services

    Every method of the three services is built from a few primitive
    steps: a consultation of an oracle, an event other than the two that
    carry a file table entry, an update of the pool, of the registry, of
    the queue or of a job object, [saveJob], and the two broadcasts of a
    file table entry.  A preorder on states that these steps respect is
    respected by every method. *)

Definition plainEvent (e : Event) : Prop :=
  match e with
  | EvFileUploaded _ _ | EvFileProgress _ _ => False
  | _ => True
  end.

Section Frame.
Variable W : World.
Context (R : State -> State -> Prop) `{!PreOrder R}.
Hypothesis R_tick : preserves R tick.
Hypothesis R_emit : forall e, plainEvent e -> preserves R (emit e).
Hypothesis R_connections : forall f, preserves R (modify (set_connections f)).
Hypothesis R_activeJobs : forall f, preserves R (modify (set_activeJobs f)).
Hypothesis R_downloadQueue : forall f, preserves R (modify (set_downloadQueue f)).
Hypothesis R_heap : forall f, preserves R (modify (set_heap f)).
Hypothesis R_saveJob : forall job, preserves R (ConfigService.saveJob job).
Hypothesis R_uploaded :
  forall j f, preserves R (TransferService.broadcastFileUploaded j f).
Hypothesis R_progress :
  forall j fileId sid st p e,
    preserves R (TransferService.broadcastFileDestinationProgress j fileId sid st p e).

Lemma frame_alloc (job : TransferJob) : preserves R (TransferService.alloc job).
Proof using R_heap.
  intros s. exact (R_heap (fun h => <[fresh (dom (heap s)) := job]> h) s).
Qed.

Ltac frame_base :=
  first [ apply R_tick | apply R_emit; exact I | apply R_connections
        | apply R_activeJobs | apply R_downloadQueue | apply R_heap
        | apply R_saveJob | apply R_uploaded | apply R_progress
        | apply frame_alloc ].

Lemma frame_pendingSlots (destIds : list string) :
  preserves R (TransferService.pendingSlots destIds).
Proof using PreOrder0.
  induction destIds as [|d ds IH]; simpl; pres_go ltac:(exact IH).
Qed.

Lemma frame_processItem (r idx : nat) : preserves R (TransferService.processItem W r idx).
Proof using All.
  unfold TransferService.processItem.
  pres_go ltac:(first [apply frame_pendingSlots | frame_base]).
Qed.

Lemma frame_cancelJob (jobId : string) : preserves R (TransferService.cancelJob W jobId).
Proof using All.
  unfold TransferService.cancelJob. pres_go frame_base.
Qed.

Lemma frame_downloadFileToDestination (job : TransferJob) (file : UploadedFileInfo)
    (d : string) :
  preserves R (TransferService.downloadFileToDestination W job file d).
Proof using All.
  unfold TransferService.downloadFileToDestination. pres_go frame_base.
Qed.

Lemma frame_downloadLoop (job : TransferJob) (ticks : list TransferService.Tick) :
  forall processed, preserves R (TransferService.downloadLoop W job ticks processed).
Proof using All.
  induction ticks as [|t ticks IH]; intros processed; simpl.
  - apply pres_ret; exact _.
  - pres_go ltac:(first [ apply frame_cancelJob
                        | apply frame_downloadFileToDestination
                        | apply IH
                        | frame_base ]).
Qed.

Lemma frame_uploadWorker (r : nat) (jobId : string) (items : list TransferItem) :
  preserves R (TransferService.uploadWorker W r jobId items).
Proof using All.
  unfold TransferService.uploadWorker.
  pres_go ltac:(first [apply frame_processItem | frame_base]).
Qed.

Lemma frame_downloadWorker (r : nat) (items : list TransferItem)
    (ticks : list TransferService.Tick) :
  preserves R (TransferService.downloadWorker W r items ticks).
Proof using All.
  unfold TransferService.downloadWorker.
  pres_go ltac:(first [apply frame_downloadLoop | frame_base]).
Qed.

Lemma frame_retryItem (jobId itemId : string) :
  preserves R (TransferService.retryItem W jobId itemId).
Proof using All.
  unfold TransferService.retryItem.
  pres_go ltac:(first [apply frame_processItem | frame_base]).
Qed.

(** [startJob] ends with [unregister], which drops the file table of the
    job without a broadcast. *)
Hypothesis R_unregister : forall jobId, preserves R (TransferService.unregister jobId).

Lemma frame_startJob (job : TransferJob) (ticks : list TransferService.Tick) :
  preserves R (TransferService.startJob W job ticks).
Proof using All.
  unfold TransferService.startJob.
  pres_go ltac:(first [ apply R_unregister
                      | apply frame_uploadWorker
                      | apply frame_downloadWorker
                      | frame_base ]).
Qed.

End Frame.

(** *** The ids of the stored jobs stay distinct *)

Definition jobIds (s : State) : list string := job_id <$> jobs s.

Definition uniqueJobs (s s' : State) : Prop := NoDup (jobIds s) -> NoDup (jobIds s').

#[local] Instance uniqueJobs_preorder : PreOrder uniqueJobs.
Proof.
  split; [intros s H; exact H|intros s1 s2 s3 H1 H2 H; exact (H2 (H1 H))].
Qed.

Lemma uniqueJobs_quiet {A} (m : M A) :
  (forall s, jobs (snd (m s)) = jobs s) -> preserves uniqueJobs m.
Proof. intros H s Hnd. unfold jobIds. rewrite H. exact Hnd. Qed.

Lemma saveJob_unique (job : TransferJob) : preserves uniqueJobs (ConfigService.saveJob job).
Proof.
  intros s Hnd. unfold ConfigService.saveJob, modify, jobIds in *. simpl.
  destruct (ConfigService.findIndex _ (jobs s)) as [i|] eqn:Hi.
  - destruct (findIndex_Some _ _ _ Hi) as (x & Hx & Hp). apply String.eqb_eq in Hp.
    rewrite (fmap_insert_same job_id _ i x job Hx) by congruence. exact Hnd.
  - rewrite fmap_app. simpl. apply NoDup_app. split; [exact Hnd|].
    split; [|apply NoDup_singleton].
    intros y Hy Hy'. apply list_elem_of_singleton in Hy'. subst y.
    apply list_elem_of_fmap in Hy as (x & Hid & Hx).
    apply findIndex_None in Hi. rewrite Forall_forall in Hi.
    specialize (Hi x Hx). apply String.eqb_neq in Hi. congruence.
Qed.

Lemma deleteJob_unique (id : string) : preserves uniqueJobs (ConfigService.deleteJob id).
Proof.
  intros s Hnd. unfold ConfigService.deleteJob, modify, jobIds in *. simpl.
  eapply sublist_NoDup; [exact Hnd|apply fmap_sublist, sublist_filter].
Qed.

Ltac unique_base :=
  first [ apply saveJob_unique
        | apply uniqueJobs_quiet; intros; reflexivity ].

Ltac unique_frame :=
  intros;
  first [ unique_base
        | unfold TransferService.broadcastFileUploaded; pres_go unique_base
        | unfold TransferService.broadcastFileDestinationProgress; pres_go unique_base
        | unfold TransferService.unregister; pres_go unique_base ].

(** X11: no method gives two stored jobs the same id.  If the ids of the
    jobs in the store are distinct, they are distinct after [saveJob],
    after [deleteJob], after a retry and after a whole run of [startJob],
    however the hosts answer. *)
Theorem job_ids_stay_distinct (W : World) (s : State) :
  NoDup (jobIds s) ->
  (forall job, NoDup (jobIds (snd (ConfigService.saveJob job s))))
  /\ (forall id, NoDup (jobIds (snd (ConfigService.deleteJob id s))))
  /\ (forall jobId itemId,
        NoDup (jobIds (snd (TransferService.retryItem W jobId itemId s))))
  /\ (forall job ticks, NoDup (jobIds (snd (TransferService.startJob W job ticks s)))).
Proof.
  intros Hnd.
  split; [intros job; exact (saveJob_unique job s Hnd)|].
  split; [intros id; exact (deleteJob_unique id s Hnd)|].
  split.
  - intros jobId itemId.
    refine (frame_retryItem W uniqueJobs _ _ _ _ _ _ _ _ _ jobId itemId s Hnd);
      unique_frame.
  - intros job ticks.
    refine (frame_startJob W uniqueJobs _ _ _ _ _ _ _ _ _ _ job ticks s Hnd);
      unique_frame.
Qed.

Lemma job_ids_stay_distinct_witness :
  jobIds Scenario.afterFailure = ["job-1"]
  /\ NoDup (jobIds (snd (TransferService.retryItem Scenario.calm "job-1" "item-1"
                          Scenario.afterFailure))).
Proof.
  split; [reflexivity|].
  apply (job_ids_stay_distinct Scenario.calm Scenario.afterFailure).
  apply NoDup_singleton.
Defined.

(** *** The ids of the published files stay distinct *)

Definition distinctIds (jobId : string) (s s' : State) : Prop :=
  NoDup (publishedIds jobId s) -> NoDup (publishedIds jobId s').

#[local] Instance distinctIds_preorder (jobId : string) : PreOrder (distinctIds jobId).
Proof.
  split; [intros s H; exact H|intros s1 s2 s3 H1 H2 H; exact (H2 (H1 H))].
Qed.






(** *** The file table of a window *)

(** The files published for a job, as the service holds them. *)
Definition fileTable (jobId : string) (s : State) : list UploadedFileInfo :=
  default [] (uploadedFiles s !! jobId).

(** The store of a window after the events [evs]. *)
Definition received (evs : list Event) (files : gmap string (list UploadedFileInfo))
  : gmap string (list UploadedFileInfo) :=
  fold_left UploadedFilesStore.receive evs files.

(** The events sent between two states take a window that shows the file
    table of the job to the file table of the job. *)
Definition mirrored (jobId : string) (s s' : State) : Prop :=
  exists evs,
    trace s' = trace s ++ evs
    /\ forall files,
         UploadedFilesStore.getFilesForJob jobId files = fileTable jobId s ->
         UploadedFilesStore.getFilesForJob jobId (received evs files)
         = fileTable jobId s'.

#[local] Instance mirrored_preorder (jobId : string) : PreOrder (mirrored jobId).
Proof.
  split.
  - intros s. exists []. split; [symmetry; apply app_nil_r|]. intros files H. exact H.
  - intros s1 s2 s3 (e1 & H1 & M1) (e2 & H2 & M2).
    exists (e1 ++ e2). split; [rewrite H2, H1, app_assoc; reflexivity|].
    intros files H. unfold received. rewrite fold_left_app.
    apply M2, M1, H.
Qed.

Lemma mirrored_quiet {A} (jobId : string) (m : M A) :
  (forall s, trace (snd (m s)) = trace s) ->
  (forall s, uploadedFiles (snd (m s)) = uploadedFiles s) ->
  preserves (mirrored jobId) m.
Proof.
  intros Ht Hu s. exists []. split; [rewrite Ht, app_nil_r; reflexivity|].
  intros files H. unfold fileTable. rewrite Hu. exact H.
Qed.

Lemma mirrored_emit (jobId : string) (e : Event) :
  plainEvent e -> preserves (mirrored jobId) (emit e).
Proof.
  intros He s. exists [e]. split; [reflexivity|].
  intros files H. destruct e; simpl in *; try contradiction; exact H.
Qed.

Lemma mirrored_uploaded (jobId j : string) (f : UploadedFileInfo) :
  preserves (mirrored jobId) (TransferService.broadcastFileUploaded j f).
Proof.
  intros s. exists [EvFileUploaded j f]. split; [reflexivity|].
  intros files H. unfold received, fileTable, UploadedFilesStore.getFilesForJob in *.
  simpl. unfold UploadedFilesStore.addFile.
  destruct (decide (j = jobId)) as [->|Hne].
  - rewrite H.
    destruct (ConfigService.findIndex _ _); rewrite !lookup_insert_eq; reflexivity.
  - destruct (ConfigService.findIndex _ (default [] (files !! j)));
      destruct (ConfigService.findIndex _ (default [] (uploadedFiles s !! j)));
      rewrite !lookup_insert_ne by exact Hne; exact H.
Qed.

Lemma find_id {A} (key : A -> string) (id : string) (l : list A) (x : A) :
  List.find (fun y => String.eqb (key y) id) l = Some x -> key x = id.
Proof.
  intros H. apply find_some in H as [_ H]. apply String.eqb_eq, H.
Qed.

Lemma mirrored_progress (jobId j fileId sid : string) (st : DestStatus) (p : Z)
    (e : option string) :
  preserves (mirrored jobId)
    (TransferService.broadcastFileDestinationProgress j fileId sid st p e).
Proof.
  intros s. unfold TransferService.broadcastFileDestinationProgress, bind, gets.
  destruct (ConfigService.findIndex _ _) as [i|] eqn:Hi;
    [|exists []; split; [symmetry; apply app_nil_r|intros files H; exact H]].
  destruct (List.find _ _) as [fileInfo|] eqn:Hf;
    [|exists []; split; [symmetry; apply app_nil_r|intros files H; exact H]].
  eexists [_]. split; [reflexivity|].
  intros files H. unfold received, fileTable, UploadedFilesStore.getFilesForJob in *.
  simpl. unfold UploadedFilesStore.updateFile. simpl.
  rewrite (find_id file_id fileId _ _ Hf).
  destruct (decide (j = jobId)) as [->|Hne].
  - rewrite H, Hi. rewrite lookup_insert_eq, lookup_alter_eq.
    destruct (uploadedFiles s !! jobId); [reflexivity|discriminate].
  - rewrite lookup_alter_ne by exact Hne.
    destruct (ConfigService.findIndex _ (default [] (files !! j)));
      [rewrite lookup_insert_ne by exact Hne|]; exact H.
Qed.

Ltac mirror_frame :=
  intros;
  first [ apply mirrored_uploaded
        | apply mirrored_progress
        | apply mirrored_emit; assumption
        | apply mirrored_quiet; intros; reflexivity ].

(** X13: a window that subscribes to the two file events ([addFile] on
    "file uploaded", [updateFile] on "file progress") sees the file table
    of the service: if its store shows the table of a job before the
    upload worker, a retry or the download worker runs, then after the
    events of that run it shows the table again, entry for entry. *)
Theorem window_mirrors_file_table (W : World) (jobId : string) (s : State) :
  (forall r j items,
     mirrored jobId s (snd (TransferService.uploadWorker W r j items s)))
  /\ (forall j itemId,
        mirrored jobId s (snd (TransferService.retryItem W j itemId s)))
  /\ (forall r items ticks,
        mirrored jobId s (snd (TransferService.downloadWorker W r items ticks s))).
Proof.
  split; [|split].
  - intros r j its.
    refine (frame_uploadWorker W (mirrored jobId) _ _ _ _ _ _ _ _ _ r j its s);
      mirror_frame.
  - intros j itemId.
    refine (frame_retryItem W (mirrored jobId) _ _ _ _ _ _ _ _ _ j itemId s);
      mirror_frame.
  - intros r its ticks.
    refine (frame_downloadWorker W (mirrored jobId) _ _ _ _ _ _ _ _ _ r its ticks s);
      mirror_frame.
Qed.

(** ** How a run ends *)


Lemma alloc_run (job : TransferJob) (s : State) :
  TransferService.alloc job s
  = (inr (fresh (dom (heap s))),
     set_heap (fun h => <[fresh (dom (heap s)) := job]> h) s).
Proof. reflexivity. Qed.

Lemma startJob_total (W : World) (job : TransferJob)
    (ticks : list TransferService.Tick) (s : State) :
  exists returned s',
    TransferService.startJob W job ticks s = (inr returned, s')
    /\ (returned = true ->
        activeJobs s' !! job_id job = None
        /\ downloadQueue s' !! job_id job = None
        /\ uploadedFiles s' !! job_id job = None).
Proof.
  unfold TransferService.startJob.
  rewrite (bind_run _ _ _ _ _ (alloc_run job s)).
  unfold TransferService.register. unfold bind at 1 2, modify at 1 2. cbv beta iota.
  match goal with
  | |- context [bind (try_catch ?body ?h) ?k ?s0] =>
      destruct (returns_run (try_catch body h) s0) as (b & s1 & Hrun);
        [apply returns_try_catch; intros; apply returns_ret|];
        rewrite (bind_run _ _ _ _ _ Hrun)
  end.
  destruct b.
  - eexists true, _. split; [reflexivity|]. intros _. simpl.
    rewrite !lookup_delete_eq. repeat split.
  - eexists false, _. split; [reflexivity|]. discriminate.
Qed.

(** X14: [startJob] never rejects, whatever goes wrong on the hosts, and
    when it has returned the job is registered nowhere: it has no entry in
    the registry of active jobs, no download queue and no file table. *)
Theorem startJob_returns_and_unregisters (W : World) (job : TransferJob)
    (ticks : list TransferService.Tick) (s : State) :
  exists returned s',
    TransferService.startJob W job ticks s = (inr returned, s')
    /\ (returned = true ->
        activeJobs s' !! job_id job = None
        /\ downloadQueue s' !! job_id job = None
        /\ uploadedFiles s' !! job_id job = None).
Proof. exact (startJob_total W job ticks s). Qed.

(** *** A cancellation ends the run *)

Definition sameActive (s s' : State) : Prop := activeJobs s' = activeJobs s.

#[local] Instance sameActive_preorder : PreOrder sameActive.
Proof.
  split; [intros s; reflexivity|].
  intros s1 s2 s3 H1 H2. unfold sameActive in *. congruence.
Qed.

Lemma exec_sameActive (W : World) (id cmd : string) :
  preserves sameActive (SSHService.exec W id cmd).
Proof.
  unfold SSHService.exec. pres_go ltac:(intros ?; reflexivity).
Qed.

(** After [cancelJob] the job is marked as cancelled, if it is registered. *)
Lemma cancelJob_marks (W : World) (jobId : string) (s : State) :
  match activeJobs (snd (TransferService.cancelJob W jobId s)) !! jobId with
  | Some js => isCancelled js
  | None => true
  end = true.
Proof.
  unfold TransferService.cancelJob. unfold bind at 1, gets at 1.
  destruct (activeJobs s !! jobId) as [js|] eqn:Hjs; [|simpl; rewrite Hjs; reflexivity].
  unfold bind at 1, modify at 1.
  match goal with
  | |- context [snd (?rest ?s0)] =>
      assert (Hp : preserves sameActive rest)
        by pres_go ltac:(first [apply exec_sameActive | intros ?; reflexivity]);
        rewrite (Hp s0)
  end.
  simpl. rewrite lookup_alter_eq, Hjs. reflexivity.
Qed.







(** *** A run that publishes nothing *)

Lemma downloadLoop_idle (W : World) (job : TransferJob)
    (ticks : list TransferService.Tick) (P : gset string) (s : State) (js : JobState) :
  activeJobs s !! job_id job = Some js -> isCancelled js = false ->
  default [] (uploadedFiles s !! job_id job) = [] ->
  Forall (fun t => t <> TransferService.CancelRequested) ticks ->
  TransferService.downloadLoop W job ticks P s = (inr (None, P), s).
Proof.
  intros Hjs Hc Hpub Hticks. induction Hticks as [|t ticks Ht _ IH]; [reflexivity|].
  simpl.
  assert (Hstep : (match t with
                   | TransferService.CancelRequested =>
                       TransferService.cancelJob W (job_id job)
                   | _ => ret tt
                   end) s = (inr tt, s)) by (destruct t; [reflexivity..|congruence]).
  rewrite (bind_run _ _ _ _ _ Hstep).
  unfold bind at 1, gets at 1. rewrite Hjs, Hc.
  unfold bind at 1, gets at 1. rewrite Hpub.
  replace (match t with
           | TransferService.PartsVisible k => take k []
           | _ => []
           end) with (@nil UploadedFileInfo) by (destruct t as [[|k]| |]; reflexivity).
  rewrite andb_false_r. simpl. exact IH.
Qed.

(** X16: a run that has published no file does not end by itself.  While
    the job is registered and not cancelled and its file table is empty,
    the download worker only polls: it sends nothing out, changes nothing
    and has not finished, however often it looks and also once the upload
    worker is done. *)
Theorem empty_run_polls_for_ever (W : World) (r : nat) (job : TransferJob)
    (items : list TransferItem) (ticks : list TransferService.Tick) (s : State)
    (js : JobState) :
  heap s !! r = Some job ->
  activeJobs s !! job_id job = Some js -> isCancelled js = false ->
  default [] (uploadedFiles s !! job_id job) = [] ->
  Forall (fun t => t <> TransferService.CancelRequested) ticks ->
  TransferService.downloadWorker W r items ticks s
  = (inr TransferService.StillPolling, s).
Proof.
  intros Hh Hjs Hc Hpub Hticks. unfold TransferService.downloadWorker.
  rewrite (bind_run _ _ _ _ _ (readJob_run r s job Hh)).
  rewrite (bind_run _ _ _ _ _ (downloadLoop_idle W job ticks ∅ s js Hjs Hc Hpub Hticks)).
  reflexivity.
Qed.

(** The job is registered and its object allocated; nothing is published. *)
Definition waiting : State :=
  set_uploadedFiles (fun _ => ∅) Scenario.staged.

Lemma empty_run_polls_for_ever_witness :
  TransferService.downloadWorker Scenario.calm 0 []
    [TransferService.PartsVisible 3; TransferService.UploadComplete;
     TransferService.UploadComplete] waiting
  = (inr TransferService.StillPolling, waiting).
Proof.
  apply (empty_run_polls_for_ever Scenario.calm 0 Scenario.splitJob [] _ waiting
           {| js_job := Scenario.splitJob; isPaused := false; isCancelled := false |});
    try reflexivity.
  repeat constructor; discriminate.
Defined.

(** ** How an item ends *)

Lemma processSplit_item (W : World) (r idx : nat) (job : TransferJob)
    (sourceId itemId : string) (limitBytes : Z) :
  preserves (onlyItem r idx)
    (TransferService.processSplit W r idx job sourceId itemId limitBytes).
Proof.
  unfold TransferService.processSplit.
  pres_go ltac:(first [apply pendingSlots_item | item_step]).
Qed.

Lemma processSingle_item (W : World) (r idx : nat) (job : TransferJob)
    (sourceId : string) (item : TransferItem) :
  preserves (onlyItem r idx) (TransferService.processSingle W r idx job sourceId item).
Proof.
  unfold TransferService.processSingle.
  pres_go ltac:(first [apply pendingSlots_item | item_step]).
Qed.

(** An item that exists still exists after a computation that works on it
    only. *)
Lemma onlyItem_exists (r idx : nat) (s s' : State) (job : TransferJob)
    (item : TransferItem) :
  onlyItem r idx s s' -> heap s !! r = Some job -> items job !! idx = Some item ->
  exists job' item', heap s' !! r = Some job' /\ items job' !! idx = Some item'.
Proof.
  intros [_ H] Hh Hi. rewrite Hh in H. destruct H as (job' & Hj & Hl & _).
  destruct (lookup_lt_is_Some_2 (items job') idx) as [item' Hi'];
    [rewrite Hl; eapply lookup_lt_Some; exact Hi|].
  eauto.
Qed.

Lemma readItem_run (r idx : nat) (s : State) (job : TransferJob) (item : TransferItem) :
  heap s !! r = Some job -> items job !! idx = Some item ->
  TransferService.readItem r idx s = (inr item, s).
Proof.
  intros Hh Hi. unfold TransferService.readItem.
  rewrite (bind_run _ _ _ _ _ (readJob_run r s job Hh)). rewrite Hi. reflexivity.
Qed.

(** The last steps of [processItem], on success and on failure. *)
Lemma processItem_uploaded (r idx : nat) (jobId itemId : string) (s : State)
    (job : TransferJob) (item : TransferItem) :
  heap s !! r = Some job -> items job !! idx = Some item ->
  exists s' job' item',
    (TransferService.updItem r idx
       (fun it => TransferService.withProgress 100
                    (TransferService.withStatus Uploaded it)) ;;;
     emit (EvProgress jobId itemId 100 Uploaded) ;;;
     saved <- TransferService.readJob r ;;
     ConfigService.saveJob saved) s = (inr tt, s')
    /\ heap s' !! r = Some job' /\ items job' !! idx = Some item'
    /\ status item' = Uploaded /\ progress item' = 100
    /\ last (trace s') = Some (EvProgress jobId itemId 100 Uploaded).
Proof.
  intros Hh Hi.
  unfold TransferService.updItem, TransferService.updJob.
  unfold bind at 1 2, modify at 1, emit, modify at 1. cbv beta iota.
  match goal with
  | |- context [bind (TransferService.readJob r) _ ?s1] =>
      assert (H1 : heap s1 !! r
                   = Some (TransferService.withItems
                             (alter (fun it => TransferService.withProgress 100
                                                 (TransferService.withStatus Uploaded it))
                                    idx (items job)) job))
        by (simpl; rewrite lookup_alter_eq, Hh; reflexivity);
        rewrite (bind_run _ _ _ _ _ (readJob_run r s1 _ H1))
  end.
  eexists _, _, _. split; [reflexivity|]. simpl.
  split; [rewrite lookup_alter_eq, Hh; reflexivity|]. simpl.
  split; [rewrite list_lookup_alter_eq, Hi; reflexivity|].
  split; [reflexivity|]. split; [reflexivity|]. apply last_snoc.
Qed.

Lemma processItem_failed (r idx : nat) (jobId itemId message : string) (s : State)
    (job : TransferJob) (item : TransferItem) :
  heap s !! r = Some job -> items job !! idx = Some item ->
  exists s' job' item',
    (TransferService.updItem r idx
       (fun it => TransferService.withError (Some message)
                    (TransferService.withStatus Failed it)) ;;;
     failed <- TransferService.readItem r idx ;;
     emit (EvProgress jobId itemId (progress failed) Failed)) s = (inr tt, s')
    /\ heap s' !! r = Some job' /\ items job' !! idx = Some item'
    /\ status item' = Failed /\ error item' = Some message
    /\ progress item' = progress item
    /\ last (trace s') = Some (EvProgress jobId itemId (progress item') Failed).
Proof.
  intros Hh Hi.
  unfold TransferService.updItem, TransferService.updJob.
  unfold bind at 1, modify at 1. cbv beta iota.
  match goal with
  | |- context [bind (TransferService.readItem r idx) _ ?s1] =>
      assert (H1 : heap s1 !! r
                   = Some (TransferService.withItems
                             (alter (fun it => TransferService.withError (Some message)
                                                 (TransferService.withStatus Failed it))
                                    idx (items job)) job))
        by (simpl; rewrite lookup_alter_eq, Hh; reflexivity);
        rewrite (bind_run _ _ _ _ _
                   (readItem_run r idx s1 _
                      (TransferService.withError (Some message)
                         (TransferService.withStatus Failed item)) H1
                      ltac:(simpl; rewrite list_lookup_alter_eq, Hi; reflexivity)))
  end.
  eexists _, _, _. split; [reflexivity|]. simpl.
  split; [rewrite lookup_alter_eq, Hh; reflexivity|]. simpl.
  split; [rewrite list_lookup_alter_eq, Hi; reflexivity|].
  repeat split. apply last_snoc.
Qed.

(** X17: [processItem] never rejects, and it leaves its item either
    uploaded with a progress of 100, or failed with the message of the
    error and the progress reached; the last event it sends tells the
    windows this status and this progress.  The source server is in the
    store; without it [processItem] returns at once. *)
Theorem processItem_ends_uploaded_or_failed (W : World) (r idx : nat) (s : State)
    (job : TransferJob) (item : TransferItem) (sourceServer : SSHConfig) :
  heap s !! r = Some job -> items job !! idx = Some item ->
  List.find (fun c => String.eqb (srv_id c) (sourceServerId job)) (servers s)
  = Some sourceServer ->
  exists s' job' item',
    TransferService.processItem W r idx s = (inr tt, s')
    /\ heap s' !! r = Some job' /\ items job' !! idx = Some item'
    /\ ((status item' = Uploaded /\ progress item' = 100)
        \/ (status item' = Failed /\ is_Some (error item')))
    /\ last (trace s')
       = Some (EvProgress (job_id job) (item_id item) (progress item') (status item')).
Proof.
  intros Hh Hi Hsrv. unfold TransferService.processItem.
  rewrite (bind_run _ _ _ _ _ (readJob_run r s job Hh)).
  rewrite (bind_run _ _ _ _ _ (readItem_run r idx s job item Hh Hi)).
  unfold try_catch.
  unfold bind at 1, ConfigService.getServerById, gets at 1. rewrite Hsrv.
  unfold TransferService.updItem at 1, TransferService.updJob at 1.
  unfold bind at 1 2, modify at 1, TransferService.broadcastProgress at 1, emit at 1,
    modify at 1.
  cbv beta iota.
  set (s0 := set_trace _ (set_heap _ s)).
  set (middle := if default false (needsSplit <$> zipInfo job) then _ else _).
  assert (Hmid : preserves (onlyItem r idx) middle).
  { unfold middle. destruct (default false _);
      [apply processSplit_item|apply processSingle_item]. }
  assert (H0 : exists job0 item0, heap s0 !! r = Some job0 /\ items job0 !! idx = Some item0).
  { unfold s0. simpl. rewrite lookup_alter_eq, Hh. simpl.
    eexists _, _. split; [reflexivity|]. simpl.
    rewrite list_lookup_alter_eq, Hi. reflexivity. }
  destruct H0 as (job0 & item0 & Hh0 & Hi0).
  specialize (Hmid s0). unfold bind at 1.
  destruct (middle s0) as [[e|[]] s1]; simpl in Hmid;
    destruct (onlyItem_exists r idx s0 s1 job0 item0 Hmid Hh0 Hi0)
      as (job1 & item1 & Hh1 & Hi1).
  - destruct (processItem_failed r idx (job_id job) (item_id item) e s1 job1 item1 Hh1 Hi1)
      as (s' & job' & item' & Hrun & Hh' & Hi' & Hst & Herr & _ & Hlast).
    exists s', job', item'. unfold TransferService.broadcastProgress.
    rewrite Hrun. repeat split; try assumption.
    + right. split; [exact Hst|]. rewrite Herr. eauto.
    + rewrite Hst. exact Hlast.
  - destruct (processItem_uploaded r idx (job_id job) (item_id item) s1 job1 item1 Hh1 Hi1)
      as (s' & job' & item' & Hrun & Hh' & Hi' & Hst & Hp & Hlast).
    exists s', job', item'. unfold TransferService.broadcastProgress.
    rewrite Hrun. repeat split; try assumption.
    + left. split; assumption.
    + rewrite Hst, Hp. exact Hlast.
Qed.

Lemma processItem_ends_uploaded_or_failed_witness :
  exists s' job' item',
    TransferService.processItem Scenario.calm 0 0
      (set_heap (fun _ => {[0%nat := Scenario.failedJob]}) Scenario.afterFailure)
    = (inr tt, s')
    /\ heap s' !! 0%nat = Some job' /\ items job' !! 0%nat = Some item'
    /\ ((status item' = Uploaded /\ progress item' = 100)
        \/ (status item' = Failed /\ is_Some (error item')))
    /\ last (trace s')
       = Some (EvProgress "job-1" "item-1" (progress item') (status item')).
Proof.
  apply (processItem_ends_uploaded_or_failed Scenario.calm 0 0 _
           Scenario.failedJob Scenario.failedItem (Scenario.host "source"));
    reflexivity.
Defined.

(** ** How a destination slot ends *)

(** The slot of the host [d] in the entry [fileId] of the file table of
    the job: the one that [broadcastFileDestinationProgress] updates. *)
Definition slotOf (jobId fileId d : string) (s : State) : option FileDestinationProgress :=
  List.find (fun f => String.eqb (file_id f) fileId) (fileTable jobId s)
  ≫= fun info => List.find (fun x => String.eqb (serverId x) d) (destinations info).

Lemma find_updateSlot (d d' : string) (st : DestStatus) (p : Z) (e : option string)
    (l : list FileDestinationProgress) :
  List.find (fun x => String.eqb (serverId x) d') (TransferService.updateSlot d st p e l)
  = if String.eqb d d'
    then (fun x => TransferService.withSlot st p
                     (match e with
                      | Some (String a m) => Some (String a m)
                      | _ => derror x
                      end) x)
           <$> List.find (fun x => String.eqb (serverId x) d') l
    else List.find (fun x => String.eqb (serverId x) d') l.
Proof.
  induction l as [|x l IH]; simpl; [destruct (String.eqb d d'); reflexivity|].
  destruct (String.eqb_spec (serverId x) d) as [Hx|Hx]; simpl.
  - subst d. destruct (String.eqb (serverId x) d'); reflexivity.
  - rewrite IH. destruct (String.eqb_spec (serverId x) d') as [Hx'|Hx'].
    + subst d'. destruct (String.eqb_spec d (serverId x)); [congruence|reflexivity].
    + reflexivity.
Qed.

Lemma find_findIndex {A} (p : A -> bool) (l : list A) (x : A) :
  List.find p l = Some x -> exists i, ConfigService.findIndex p l = Some i.
Proof.
  induction l as [|y l IH]; simpl; [discriminate|].
  destruct (p y); [eauto|]. intros H. destruct (IH H) as [i ->]. simpl. eauto.
Qed.

(** What a broadcast of the progress of a slot does to the slots. *)
Lemma progress_slots (j fileId d : string) (st : DestStatus) (p : Z) (e : option string)
    (s : State) :
  exists s',
    TransferService.broadcastFileDestinationProgress j fileId d st p e s = (inr tt, s')
    /\ servers s' = servers s
    /\ (forall j' f' d', is_Some (slotOf j' f' d' s) -> is_Some (slotOf j' f' d' s'))
    /\ (is_Some (slotOf j fileId d s) ->
        exists slot info,
          slotOf j fileId d s' = Some slot
          /\ dstatus slot = st /\ dprogress slot = p
          /\ List.find (fun f => String.eqb (file_id f) fileId) (fileTable j s')
             = Some info
          /\ last (trace s') = Some (EvFileProgress j info)).
Proof.
  unfold TransferService.broadcastFileDestinationProgress, bind, gets.
  fold (fileTable j s).
  destruct (List.find _ (fileTable j s)) as [info|] eqn:Hf.
  2: { assert (Hi : ConfigService.findIndex
                      (fun f => String.eqb (file_id f) fileId) (fileTable j s) = None).
       { destruct (ConfigService.findIndex _ _) as [i|] eqn:Hi; [|reflexivity].
         destruct (findIndex_Some _ _ _ Hi) as (x & Hx & Hp).
         apply list_elem_of_lookup_2, list_elem_of_In in Hx.
         pose proof (find_none _ _ Hf x Hx) as Hn. simpl in Hn. congruence. }
       rewrite Hi. exists s. repeat split; [tauto|].
       unfold slotOf. rewrite Hf. intros [x Hx]. discriminate. }
  destruct (find_findIndex _ _ _ Hf) as [i Hi]. rewrite Hi.
  pose proof (findIndex_find _ _ _ _ Hi Hf) as Hl.
  pose proof (find_id file_id fileId _ _ Hf) as Hid.
  set (info' := TransferService.withDestinations _ info).
  set (s' := set_trace (fun t => t ++ [EvFileProgress j info'])
               (set_uploadedFiles (alter (fun fs => <[i := info']> fs) j) s)).
  exists s'. split; [reflexivity|]. split; [reflexivity|].
  assert (Htab : fileTable j s' = <[i := info']> (fileTable j s)).
  { unfold fileTable in *. simpl. rewrite lookup_alter_eq.
    destruct (uploadedFiles s !! j); [reflexivity|discriminate]. }
  assert (Hother : forall j', j' <> j -> fileTable j' s' = fileTable j' s).
  { intros j' Hj. unfold fileTable. simpl. rewrite lookup_alter_ne by congruence.
    reflexivity. }
  assert (Htrace : last (trace s') = Some (EvFileProgress j info'))
    by apply last_snoc.
  clearbody s'.
  assert (Hnew : List.find (fun f => String.eqb (file_id f) fileId)
                   (<[i := info']> (fileTable j s)) = Some info').
  { apply find_insert_hit; [exact Hi|]. simpl. apply String.eqb_eq, Hid. }
  split.
  - intros j' f' d'. unfold slotOf.
    destruct (decide (j' = j)) as [->|Hj].
    + rewrite Htab. destruct (String.eqb_spec fileId f') as [<-|Hne].
      * rewrite Hnew, Hf. simpl. rewrite find_updateSlot.
        destruct (String.eqb d d'); [|tauto].
        intros [x ->]. simpl. eauto.
      * rewrite (find_insert_miss _ _ _ _ info Hl);
          [tauto|apply String.eqb_neq; congruence
          |simpl; apply String.eqb_neq; congruence].
    + rewrite (Hother j' Hj). tauto.
  - unfold slotOf. rewrite Hf, Htab, Hnew. simpl. intros [x Hx].
    rewrite find_updateSlot, String.eqb_refl, Hx. simpl.
    eexists _, info'. repeat split. exact Htrace.
Qed.

(** [keepsSlot]: a slot that exists still exists. *)
Definition keepsSlots (s s' : State) : Prop :=
  servers s' = servers s
  /\ forall j f d, is_Some (slotOf j f d s) -> is_Some (slotOf j f d s').

#[local] Instance keepsSlots_preorder : PreOrder keepsSlots.
Proof.
  split.
  - intros s. split; [reflexivity|tauto].
  - intros s1 s2 s3 [E1 H1] [E2 H2]. split; [congruence|].
    intros j f d H. apply H2, H1, H.
Qed.

Lemma keepsSlots_quiet {A} (m : M A) :
  (forall s, uploadedFiles (snd (m s)) = uploadedFiles s) ->
  (forall s, servers (snd (m s)) = servers s) ->
  preserves keepsSlots m.
Proof.
  intros Hu Hs s. split; [apply Hs|].
  intros j f d. unfold slotOf, fileTable. rewrite Hu. tauto.
Qed.

Lemma keepsSlots_progress (j fileId d : string) (st : DestStatus) (p : Z)
    (e : option string) :
  preserves keepsSlots (TransferService.broadcastFileDestinationProgress j fileId d st p e).
Proof.
  intros s. destruct (progress_slots j fileId d st p e s) as (s' & -> & Hs & Hk & _).
  split; assumption.
Qed.

Ltac slots_step :=
  first [ apply keepsSlots_progress
        | apply keepsSlots_quiet; intros; reflexivity ].

Lemma seq4_run {A B C D E} (a : M A) (b : M B) (c : M C) (d : M D) (fin : M E)
    (s : State) :
  (a ;;; b ;;; c ;;; d ;;; fin) s = ((a ;;; b ;;; c ;;; d) ;;; fin) s.
Proof.
  unfold bind. destruct (a s) as [[?|?] s1]; [reflexivity|].
  destruct (b s1) as [[?|?] s2]; [reflexivity|].
  destruct (c s2) as [[?|?] s3]; reflexivity.
Qed.

(** The settled states of a slot. *)
Definition settled (slot : FileDestinationProgress) : Prop :=
  (dstatus slot = DCompleted /\ dprogress slot = 100)
  \/ (dstatus slot = DFailed /\ dprogress slot = 0).

Lemma downloadFileToDestination_settles (W : World) (job : TransferJob)
    (file : UploadedFileInfo) (d : string) (s : State) (destServer : SSHConfig) :
  List.find (fun c => String.eqb (srv_id c) d) (servers s) = Some destServer ->
  is_Some (slotOf (job_id job) (file_id file) d s) ->
  exists s' slot info,
    TransferService.downloadFileToDestination W job file d s = (inr tt, s')
    /\ slotOf (job_id job) (file_id file) d s' = Some slot
    /\ settled slot
    /\ List.find (fun f => String.eqb (file_id f) (file_id file))
                 (fileTable (job_id job) s') = Some info
    /\ last (trace s') = Some (EvFileProgress (job_id job) info).
Proof.
  intros Hsrv Hslot. unfold TransferService.downloadFileToDestination.
  unfold bind at 1, ConfigService.getServerById, gets at 1. rewrite Hsrv.
  unfold try_catch. rewrite seq4_run.
  match goal with
  | |- context [bind ?prefix _ s] =>
      assert (Hp : preserves keepsSlots prefix) by pres_go slots_step;
        specialize (Hp s); unfold bind at 1;
        destruct (prefix s) as [[e|x] s1]; simpl in Hp; destruct Hp as [_ Hk]
  end.
  - destruct (progress_slots (job_id job) (file_id file) d DFailed 0 (Some e) s1)
      as (s' & -> & _ & _ & Hset).
    destruct (Hset (Hk _ _ _ Hslot)) as (slot & info & H1 & H2 & H3 & H4 & H5).
    exists s', slot, info. repeat split; try assumption. right. tauto.
  - destruct (progress_slots (job_id job) (file_id file) d DCompleted 100 None s1)
      as (s' & -> & _ & _ & Hset).
    destruct (Hset (Hk _ _ _ Hslot)) as (slot & info & H1 & H2 & H3 & H4 & H5).
    exists s', slot, info. repeat split; try assumption. left. tauto.
Qed.

Lemma find_head_filter (d : string) (l : list FileDestinationProgress) :
  List.find (fun x => String.eqb (serverId x) d) l
  = head (filter (fun x => serverId x = d) l).
Proof.
  induction l as [|x l IH]; [reflexivity|]. simpl. rewrite filter_cons.
  destruct (String.eqb_spec (serverId x) d) as [Hx|Hx];
    destruct (decide (serverId x = d)); try congruence;
    first [reflexivity|exact IH].
Qed.

(** The slot of a host is read off the slots of that host. *)
Lemma slotOf_slotsFor (jobId fileId d : string) (s : State) :
  slotOf jobId fileId d s
  = List.find (fun p => String.eqb (fst p) fileId) (slotsFor d jobId s)
    ≫= fun p => head (snd p).
Proof.
  unfold slotOf, slotsFor, fileTable.
  induction (default [] (uploadedFiles s !! jobId)) as [|f l IH]; [reflexivity|].
  simpl. destruct (String.eqb (file_id f) fileId); [|exact IH].
  simpl. apply find_head_filter.
Qed.

Section Settling.
Variable W : World.
Variable job : TransferJob.
Variable file : UploadedFileInfo.

#[local] Abbreviation slot_of d s := (slotOf (job_id job) (file_id file) d s).
#[local] Abbreviation known d s :=
  (is_Some (List.find (fun c => String.eqb (srv_id c) d) (servers s))).

(** The slot of [d] is there and settled. *)
Definition settledAt (d : string) (s : State) : Prop :=
  exists slot, slot_of d s = Some slot /\ settled slot.

Lemma task_run (x : string) (s : State) :
  exists s1,
    TransferService.downloadFileToDestination W job file x s = (inr tt, s1)
    /\ keepsSlots s s1
    /\ (forall d, settledAt d s -> settledAt d s1)
    /\ (known x s -> is_Some (slot_of x s) -> settledAt x s1).
Proof using Type.
  destruct (returns_run (TransferService.downloadFileToDestination W job file x) s)
    as ([] & s1 & Hrun); [apply downloadFileToDestination_returns|].
  exists s1. split; [exact Hrun|].
  assert (Hk : keepsSlots s s1).
  { assert (Hp : preserves keepsSlots
                   (TransferService.downloadFileToDestination W job file x)).
    { unfold TransferService.downloadFileToDestination. pres_go slots_step. }
    specialize (Hp s). rewrite Hrun in Hp. exact Hp. }
  assert (Hx : known x s -> is_Some (slot_of x s) -> settledAt x s1).
  { intros [srv Hsrv] Hslot.
    destruct (downloadFileToDestination_settles W job file x s srv Hsrv Hslot)
      as (s' & slot & info & Hrun' & Hs & Hset & _).
    rewrite Hrun in Hrun'. injection Hrun' as <-. exists slot. split; assumption. }
  split; [exact Hk|]. split; [|exact Hx].
  intros d (slot & Hs & Hset).
  destruct (decide (d = x)) as [->|Hne].
  - destruct (List.find (fun c => String.eqb (srv_id c) x) (servers s)) as [srv|] eqn:Hsrv.
    + apply Hx; [first [rewrite Hsrv; eauto|eauto]|rewrite Hs; eauto].
    + unfold TransferService.downloadFileToDestination in Hrun.
      unfold bind, ConfigService.getServerById, gets in Hrun. rewrite Hsrv in Hrun.
      injection Hrun as <-. exists slot. split; assumption.
  - pose proof (downloadFileToDestination_others W job file x s) as Ho.
    rewrite Hrun in Ho. simpl in Ho.
    exists slot. split; [|exact Hset].
    rewrite slotOf_slotsFor, (Ho d (job_id job) Hne), <- slotOf_slotsFor. exact Hs.
Qed.

Lemma promiseAll_settles (l : list string) : forall s,
  exists s',
    promiseAll l (TransferService.downloadFileToDestination W job file) s = (inr tt, s')
    /\ keepsSlots s s'
    /\ (forall d, settledAt d s -> settledAt d s')
    /\ (forall d, d ∈ l -> known d s -> is_Some (slot_of d s) -> settledAt d s').
Proof using Type.
  induction l as [|x l IH]; intros s.
  - exists s. split; [reflexivity|]. split; [reflexivity|]. split; [tauto|].
    intros d Hd. apply elem_of_nil in Hd. destruct Hd.
  - destruct (task_run x s) as (s1 & Hrun & [Hsrv Hk] & Hkeep & Hx).
    destruct (IH s1) as (s' & Hrun' & [Hsrv' Hk'] & Hkeep' & Hl).
    exists s'. simpl. rewrite Hrun, Hrun'. split; [reflexivity|].
    split; [split; [congruence|intros j f d H; apply Hk', Hk, H]|].
    split; [intros d H; apply Hkeep', Hkeep, H|].
    intros d Hd Hknown Hslot.
    destruct (decide (d ∈ l)) as [Hin|Hout].
    + apply Hl; [exact Hin|rewrite Hsrv; exact Hknown|apply Hk, Hslot].
    + apply elem_of_cons in Hd as [->|Hd]; [|contradiction].
      apply Hkeep', Hx; assumption.
Qed.

End Settling.

(** X18: when the download worker has handled a part, the slot of every
    destination of the job whose server is in the store is settled:
    completed with a progress of 100, or failed with a progress of 0.  No
    slot is left at "downloading" or "extracting", whatever the hosts
    answered.  The part is then counted as processed. *)
Theorem part_settles_on_every_destination (W : World) (job : TransferJob)
    (file : UploadedFileInfo) (P : gset string) (s : State) (d : string)
    (destServer : SSHConfig) :
  d ∈ destinationServerIds job ->
  List.find (fun c => String.eqb (srv_id c) d) (servers s) = Some destServer ->
  is_Some (slotOf (job_id job) (file_id file) d s) ->
  exists s' slot,
    TransferService.processFile W job file P s = (inr (P ∪ {[file_id file]}), s')
    /\ slotOf (job_id job) (file_id file) d s' = Some slot
    /\ settled slot.
Proof.
  intros Hd Hsrv Hslot. unfold TransferService.processFile.
  destruct (promiseAll_settles W job file (destinationServerIds job) s)
    as (s' & Hrun & _ & _ & Hall).
  rewrite (bind_run _ _ _ _ _ Hrun).
  destruct (Hall d Hd) as (slot & Hs & Hset); [rewrite Hsrv; eauto|exact Hslot|].
  exists s', slot. repeat split; assumption.
Qed.

Lemma part_settles_on_every_destination_witness :
  exists s' slot,
    TransferService.processFile Scenario.flaky Scenario.splitJob Scenario.part1 ∅
      Scenario.staged = (inr (∅ ∪ {["item-1_part001"]}), s')
    /\ slotOf "job-1" "item-1_part001" "dest-1" s' = Some slot
    /\ settled slot.
Proof.
  apply (part_settles_on_every_destination Scenario.flaky Scenario.splitJob
           Scenario.part1 ∅ Scenario.staged "dest-1" (Scenario.host "dest-1")).
  - apply elem_of_cons. left. reflexivity.
  - reflexivity.
  - eexists. reflexivity.
Defined.

(** *** After a cancellation nothing more is uploaded *)

Lemma uploadWorker_stopped (W : World) (r : nat) (jobId : string)
    (items : list TransferItem) (s : State) :
  match activeJobs s !! jobId with
  | Some js => isCancelled js
  | None => true
  end = true ->
  TransferService.uploadWorker W r jobId items s = (inr tt, s).
Proof.
  intros Hc. unfold TransferService.uploadWorker.
  match goal with
  | |- bind (foldM items ?body ?v) _ s = _ =>
      assert (Hloop : forall l i stop,
                exists v', foldM l body (i, stop) s = (inr v', s))
  end.
  { induction l as [|x l IH]; intros i stop; [eexists; reflexivity|].
    simpl. destruct stop.
    - unfold bind at 1. simpl. apply IH.
    - unfold bind at 1, bind at 1, gets at 1.
      destruct (activeJobs s !! jobId) as [js|].
      + rewrite Hc. simpl. apply IH.
      + simpl. apply IH. }
  destruct (Hloop items O false) as [v' Hv].
  rewrite (bind_run _ _ _ _ _ Hv). reflexivity.
Qed.

(** X19: once a job is cancelled, its upload worker does nothing more:
    started after [cancelJob] (or without the job being registered) it
    processes no item, sends no command and no event, and returns with the
    state as it was. *)
Theorem cancelled_job_uploads_nothing (W : World) (r : nat) (jobId : string)
    (items : list TransferItem) (s : State) :
  TransferService.uploadWorker W r jobId items
    (snd (TransferService.cancelJob W jobId s))
  = (inr tt, snd (TransferService.cancelJob W jobId s)).
Proof.
  apply uploadWorker_stopped, cancelJob_marks.
Qed.

(** ** The logs *)

(** The last [n] elements of a list. *)
Definition lastn {A} (n : nat) (l : list A) : list A := drop (length l - n) l.

Lemma sliceFrom_lastn {A} (l : list A) (n : Z) :
  0 < n -> JS.sliceFrom l (- n) = lastn (Z.to_nat n) l.
Proof.
  intros Hn. unfold JS.sliceFrom, JS.slice, JS.relIndex, lastn.
  replace (- n <? 0) with true by (symmetry; apply Z.ltb_lt; lia).
  replace (Z.of_nat (length l) <? 0) with false by (symmetry; apply Z.ltb_ge; lia).
  rewrite Z.min_id.
  replace (Z.to_nat (Z.max (Z.of_nat (length l) + - n) 0))
    with (length l - Z.to_nat n)%nat by lia.
  apply firstn_all2. rewrite length_skipn. lia.
Qed.

Lemma lastn_short {A} (n : nat) (l : list A) : (length l <= n)%nat -> lastn n l = l.
Proof.
  intros H. unfold lastn. replace (length l - n)%nat with 0%nat by lia. reflexivity.
Qed.

Lemma length_lastn {A} (n : nat) (l : list A) : length (lastn n l) = Nat.min n (length l).
Proof. unfold lastn. rewrite length_drop. lia. Qed.

Lemma lastn_snoc {A} (n : nat) (l : list A) (x : A) :
  lastn (S n) (lastn (S n) l ++ [x]) = lastn (S n) (l ++ [x]).
Proof.
  unfold lastn. rewrite !length_app, length_drop. simpl.
  rewrite <- drop_app_le by lia. rewrite drop_drop. f_equal. lia.
Qed.

Lemma lastn_snoc' {A} (n : nat) (l : list A) (x : A) :
  lastn n l ++ [x] = lastn (S n) (l ++ [x]).
Proof.
  unfold lastn. rewrite length_app. simpl.
  rewrite <- drop_app_le by lia. f_equal. lia.
Qed.

Lemma lastn_suffix {A} (n m : nat) (l : list A) :
  (n <= m)%nat -> lastn n l `suffix_of` lastn m l.
Proof.
  intros H. unfold lastn.
  exists (take (length l - n - (length l - m)) (drop (length l - m) l)).
  rewrite <- (take_drop (length l - n - (length l - m)) (drop (length l - m) l)) at 1.
  rewrite drop_drop. do 2 f_equal. lia.
Qed.

(** A call of [log]. *)
Record LogCall := {
  call_level : LoggerService.LogLevel;
  call_message : string;
  call_details : option string;
  call_jobId : option string;
  call_serverId : option string;
}.

Definition logAll (W : World) (calls : list LogCall) (s : LoggerService.Logger)
  : LoggerService.Logger :=
  fold_left (fun s c => LoggerService.log W (call_level c) (call_message c)
                          (call_details c) (call_jobId c) (call_serverId c) s)
            calls s.

Lemma log_window (W : World) (c : LogCall) (s : LoggerService.Logger) :
  let s' := LoggerService.log W (call_level c) (call_message c) (call_details c)
              (call_jobId c) (call_serverId c) s in
  exists entry,
    LoggerService.sent s' = LoggerService.sent s ++ [entry]
    /\ LoggerService.logs s' = lastn 1000 (LoggerService.logs s ++ [entry]).
Proof.
  simpl. eexists. split; [reflexivity|].
  unfold LoggerService.log. cbv zeta. cbn [LoggerService.logs].
  destruct (_ >? LoggerService.maxLogs) eqn:Hbig.
  - rewrite (sliceFrom_lastn _ LoggerService.maxLogs) by reflexivity. reflexivity.
  - rewrite lastn_short; [reflexivity|]. unfold LoggerService.maxLogs in Hbig. lia.
Qed.

Lemma logAll_window (W : World) (calls : list LogCall) : forall s,
  LoggerService.logs s = lastn 1000 (LoggerService.sent s) ->
  LoggerService.logs (logAll W calls s) = lastn 1000 (LoggerService.sent (logAll W calls s))
  /\ length (LoggerService.sent (logAll W calls s))
     = (length (LoggerService.sent s) + length calls)%nat.
Proof.
  induction calls as [|c calls IH]; intros s Hs; simpl; [split; [exact Hs|lia]|].
  destruct (log_window W c s) as (entry & Hsent & Hlogs).
  destruct (IH (LoggerService.log W (call_level c) (call_message c) (call_details c)
                  (call_jobId c) (call_serverId c) s)) as [H1 H2].
  { rewrite Hlogs, Hsent, Hs. apply (lastn_snoc 999). }
  split; [exact H1|]. rewrite H2, Hsent, length_app. simpl. lia.
Qed.

(** X20: the logger keeps the last 1000 entries.  After any sequence of
    calls of [log] (through [info], [warn], [error] or [debug]) the entries
    in memory are the last 1000 of the entries written and sent to the
    windows, in their order; one entry is sent for each call. *)
Theorem logger_keeps_last_1000 (W : World) (calls : list LogCall) :
  let s := logAll W calls LoggerService.start in
  LoggerService.getAllLogs s = lastn 1000 (LoggerService.sent s)
  /\ length (LoggerService.sent s) = length calls
  /\ (length (LoggerService.getAllLogs s) <= 1000)%nat.
Proof.
  cbv zeta. destruct (logAll_window W calls LoggerService.start eq_refl) as [H1 H2].
  unfold LoggerService.getAllLogs. rewrite H1. split; [reflexivity|].
  split; [exact H2|]. rewrite length_lastn. lia.
Qed.

(** The log list of a window that has received the entries [entries]. *)
Definition shown (entries : list LoggerService.LogEntry) : list LoggerService.LogEntry :=
  fold_left (fun logs e => LogStore.addLog e logs) entries [].

Lemma shown_window (entries : list LoggerService.LogEntry) :
  shown entries = lastn 2000 entries.
Proof.
  unfold shown.
  assert (H : forall l, fold_left (fun logs e => LogStore.addLog e logs) entries
                          (lastn 2000 l) = lastn 2000 (l ++ entries)).
  { induction entries as [|e entries IH]; intros l; simpl;
      [rewrite app_nil_r; reflexivity|].
    unfold LogStore.addLog at 2. rewrite (sliceFrom_lastn _ 1999) by reflexivity.
    change (Z.to_nat 1999) with 1999%nat.
    rewrite lastn_snoc', (lastn_snoc 1999), IH, <- app_assoc. reflexivity. }
  exact (H []).
Qed.

(** X21: a window that adds every entry it is sent to its log store
    shows the last 2000 entries sent, and its list ends with the list that
    the logger holds in memory: what [getAllLogs] returns is always on
    display. *)
Theorem window_log_ends_with_service_log (W : World) (calls : list LogCall) :
  let s := logAll W calls LoggerService.start in
  shown (LoggerService.sent s) = lastn 2000 (LoggerService.sent s)
  /\ LoggerService.getAllLogs s `suffix_of` shown (LoggerService.sent s).
Proof.
  cbv zeta. rewrite shown_window. split; [reflexivity|].
  destruct (logAll_window W calls LoggerService.start eq_refl) as [H1 _].
  unfold LoggerService.getAllLogs. rewrite H1. apply lastn_suffix. lia.
Qed.

(** ** The tabs *)

Definition tabIds (st : TabStore.TabState) : list string :=
  TabStore.tab_id <$> TabStore.tabs st.

(** The tabs have distinct ids, [activeTabId] names one of them, the
    active flag is set on that tab and on no other, and every tab has a
    configuration. *)
Definition wellFormed (st : TabStore.TabState) : Prop :=
  NoDup (tabIds st)
  /\ TabStore.activeTabId st ∈ tabIds st
  /\ Forall (fun t => TabStore.isActive t
                      = bool_decide (TabStore.tab_id t = TabStore.activeTabId st))
            (TabStore.tabs st)
  /\ Forall (fun t => is_Some (TabStore.tabConfigs st !! TabStore.tab_id t))
            (TabStore.tabs st).

Lemma wellFormed_initial (initialTabId : string) :
  wellFormed (TabStore.initial initialTabId).
Proof.
  unfold wellFormed, tabIds. simpl. repeat split.
  - apply NoDup_singleton.
  - apply list_elem_of_singleton. reflexivity.
  - repeat constructor. simpl. rewrite bool_decide_eq_true_2; reflexivity.
  - repeat constructor. simpl. rewrite lookup_singleton_eq. eauto.
Qed.

Lemma wellFormed_addTab (newId : string) (st : TabStore.TabState) :
  wellFormed st -> newId ∉ tabIds st -> wellFormed (TabStore.addTab newId st).
Proof.
  intros (Hnd & Hact & Hflag & Hcfg) Hfresh.
  unfold wellFormed, tabIds, TabStore.addTab in *. simpl.
  assert (Hids : TabStore.tab_id <$> map (TabStore.withActive false) (TabStore.tabs st)
                 = TabStore.tab_id <$> TabStore.tabs st).
  { rewrite <- list_fmap_compose. reflexivity. }
  rewrite fmap_app, Hids. simpl. repeat split.
  - apply NoDup_app. split; [exact Hnd|]. split; [|apply NoDup_singleton].
    intros x Hx Hx'. apply list_elem_of_singleton in Hx'. subst x. contradiction.
  - apply elem_of_app. right. apply list_elem_of_singleton. reflexivity.
  - apply Forall_app. split.
    + apply Forall_fmap, Forall_forall. intros t Ht. simpl.
      rewrite bool_decide_eq_false_2; [reflexivity|].
      intros Heq. apply Hfresh. rewrite <- Heq. apply list_elem_of_fmap_2, Ht.
    + repeat constructor. simpl. rewrite bool_decide_eq_true_2; reflexivity.
  - apply Forall_app. split.
    + apply Forall_fmap. eapply Forall_impl; [exact Hcfg|].
      intros t Ht. simpl. apply lookup_insert_is_Some'. right. exact Ht.
    + repeat constructor. simpl. rewrite lookup_insert_eq. eauto.
Qed.

Lemma wellFormed_removeTab (newTabId id : string) (st : TabStore.TabState) :
  wellFormed st -> wellFormed (TabStore.removeTab newTabId id st).
Proof.
  intros (Hnd & Hact & Hflag & Hcfg). unfold TabStore.removeTab.
  set (newTabs := filter (fun t => TabStore.tab_id t <> id) (TabStore.tabs st)).
  assert (Hsub : newTabs `sublist_of` TabStore.tabs st) by apply sublist_filter.
  assert (Hnd' : NoDup (TabStore.tab_id <$> newTabs)).
  { eapply sublist_NoDup; [exact Hnd|]. apply fmap_sublist, Hsub. }
  assert (Hne : Forall (fun t => TabStore.tab_id t <> id) newTabs).
  { apply Forall_forall. intros t Ht. apply list_elem_of_filter in Ht. tauto. }
  assert (Hflag' : Forall (fun t => TabStore.isActive t
                             = bool_decide (TabStore.tab_id t = TabStore.activeTabId st))
                     newTabs).
  { apply Forall_forall. intros t Ht. apply list_elem_of_filter in Ht as [_ Ht].
    rewrite Forall_forall in Hflag. apply Hflag, Ht. }
  assert (Hcfg' : Forall (fun t => is_Some (delete id (TabStore.tabConfigs st)
                                            !! TabStore.tab_id t)) newTabs).
  { apply Forall_forall. intros t Ht. apply list_elem_of_filter in Ht as [Hid Ht].
    rewrite lookup_delete_ne by congruence.
    rewrite Forall_forall in Hcfg. apply Hcfg, Ht. }
  destruct newTabs as [|first rest] eqn:Hnew.
  { exact (wellFormed_initial newTabId). }
  destruct (String.eqb_spec (TabStore.activeTabId st) id) as [Heq|Hneq];
    unfold wellFormed, tabIds; simpl.
  - repeat split.
    + exact Hnd'.
    + apply elem_of_cons. left. reflexivity.
    + constructor; [simpl; rewrite bool_decide_eq_true_2; reflexivity|].
      apply Forall_cons in Hflag' as [_ Hflag']. apply Forall_cons in Hne as [_ Hne].
      simpl in Hnd'. apply NoDup_cons in Hnd' as [Hfirst _].
      apply Forall_forall. intros t Ht.
      rewrite Forall_forall in Hflag', Hne. rewrite (Hflag' t Ht).
      rewrite !bool_decide_eq_false_2; [reflexivity| |].
      * intros Ht'. apply Hfirst. rewrite <- Ht'. apply list_elem_of_fmap_2, Ht.
      * rewrite Heq. apply Hne, Ht.
    + apply Forall_cons in Hcfg' as [Hc Hcfg']. constructor; assumption.
  - repeat split; try assumption.
    apply list_elem_of_fmap in Hact as (t & Ht & Hin).
    rewrite Ht. apply (list_elem_of_fmap_2 TabStore.tab_id (first :: rest)).
    rewrite <- Hnew. unfold newTabs.
    apply list_elem_of_filter. split; [congruence|exact Hin].
Qed.

Lemma wellFormed_setActiveTab (id : string) (st : TabStore.TabState) :
  wellFormed st -> id ∈ tabIds st -> wellFormed (TabStore.setActiveTab id st).
Proof.
  intros (Hnd & _ & _ & Hcfg) Hin.
  unfold wellFormed, tabIds, TabStore.setActiveTab in *. simpl.
  assert (Hids : TabStore.tab_id
                   <$> map (fun t => TabStore.withActive
                                       (String.eqb (TabStore.tab_id t) id) t)
                           (TabStore.tabs st)
                 = TabStore.tab_id <$> TabStore.tabs st).
  { rewrite <- list_fmap_compose. reflexivity. }
  rewrite Hids. repeat split; try assumption.
  - apply Forall_fmap, Forall_forall. intros t _. simpl.
    destruct (String.eqb_spec (TabStore.tab_id t) id) as [Ht|Ht].
    + rewrite bool_decide_eq_true_2; [reflexivity|exact Ht].
    + rewrite bool_decide_eq_false_2; [reflexivity|exact Ht].
  - apply Forall_fmap. eapply Forall_impl; [exact Hcfg|]. intros t Ht. exact Ht.
Qed.

Lemma wellFormed_updateTab (id : string) (updates : TabStore.TabUpdates)
    (st : TabStore.TabState) :
  TabStore.upd_id updates = None -> TabStore.upd_isActive updates = None ->
  wellFormed st -> wellFormed (TabStore.updateTab id updates st).
Proof.
  intros Hid Hact (Hnd & Hin & Hflag & Hcfg).
  unfold wellFormed, tabIds, TabStore.updateTab in *. simpl.
  set (f := fun t => if String.eqb (TabStore.tab_id t) id
                     then TabStore.merge updates t else t).
  assert (Hf : forall t, TabStore.tab_id (f t) = TabStore.tab_id t
                         /\ TabStore.isActive (f t) = TabStore.isActive t).
  { intros t. unfold f. destruct (String.eqb (TabStore.tab_id t) id); [|tauto].
    unfold TabStore.merge. simpl. rewrite Hid, Hact. tauto. }
  assert (Hids : TabStore.tab_id <$> map f (TabStore.tabs st)
                 = TabStore.tab_id <$> TabStore.tabs st).
  { rewrite <- list_fmap_compose. apply list_fmap_ext. intros i t _. apply Hf. }
  rewrite Hids. repeat split; try assumption.
  - apply Forall_fmap. eapply Forall_impl; [exact Hflag|].
    intros t Ht. simpl. destruct (Hf t) as [-> ->]. exact Ht.
  - apply Forall_fmap. eapply Forall_impl; [exact Hcfg|].
    intros t Ht. simpl. destruct (Hf t) as [-> _]. exact Ht.
Qed.

Lemma wellFormed_configs (configs : gmap string TabStore.TransferConfig)
    (st : TabStore.TabState) :
  (forall id, is_Some (TabStore.tabConfigs st !! id) -> is_Some (configs !! id)) ->
  wellFormed st ->
  wellFormed {| TabStore.tabs := TabStore.tabs st;
                TabStore.activeTabId := TabStore.activeTabId st;
                TabStore.tabConfigs := configs |}.
Proof.
  intros Hc (Hnd & Hin & Hflag & Hcfg). repeat split; try assumption.
  simpl. eapply Forall_impl; [exact Hcfg|]. intros t Ht. apply Hc, Ht.
Qed.

(** X22: the tab bar is always well formed.  The store starts well
    formed, and every action keeps it so: adding a tab (with a new id),
    closing any tab, activating a tab of the bar, renaming a tab or
    attaching a job to it, storing a configuration and loading a session.
    So there is always exactly one active tab, the one that [activeTabId]
    names, and every tab has a configuration. *)
Theorem tab_store_stays_well_formed (st : TabStore.TabState) :
  wellFormed st ->
  (forall newId, newId ∉ tabIds st -> wellFormed (TabStore.addTab newId st))
  /\ (forall newTabId id, wellFormed (TabStore.removeTab newTabId id st))
  /\ (forall id, id ∈ tabIds st -> wellFormed (TabStore.setActiveTab id st))
  /\ (forall id updates,
        TabStore.upd_id updates = None -> TabStore.upd_isActive updates = None ->
        wellFormed (TabStore.updateTab id updates st))
  /\ (forall id config, wellFormed (TabStore.setTabConfig id config st))
  /\ (forall configs, wellFormed (TabStore.loadSession configs st)).
Proof.
  intros Hwf. split; [|split; [|split; [|split; [|split]]]].
  - intros newId Hfresh. apply wellFormed_addTab; assumption.
  - intros newTabId id. apply wellFormed_removeTab, Hwf.
  - intros id Hin. apply wellFormed_setActiveTab; assumption.
  - intros id updates Hid Hact. apply wellFormed_updateTab; assumption.
  - intros id config. apply wellFormed_configs; [|exact Hwf].
    intros i Hi. apply lookup_insert_is_Some'. right. exact Hi.
  - intros configs. apply wellFormed_configs; [|exact Hwf].
    intros i Hi. apply lookup_union_is_Some. right. exact Hi.
Qed.

Lemma tab_store_stays_well_formed_witness :
  tabIds (TabStore.removeTab "tab_3" "tab_1"
            (TabStore.addTab "tab_2" (TabStore.initial "tab_1"))) = ["tab_2"]
  /\ wellFormed (TabStore.removeTab "tab_3" "tab_1"
                   (TabStore.addTab "tab_2" (TabStore.initial "tab_1"))).
Proof.
  split; [reflexivity|].
  apply (tab_store_stays_well_formed (TabStore.addTab "tab_2" (TabStore.initial "tab_1"))).
  apply (tab_store_stays_well_formed (TabStore.initial "tab_1")).
  - apply wellFormed_initial.
  - intros Hin. apply list_elem_of_singleton in Hin. discriminate Hin.
Defined.

Lemma filter_inactive (l : list TabStore.TransferTab) :
  Forall (fun t => TabStore.isActive t = false) l ->
  filter (fun t => TabStore.isActive t = true) l = [].
Proof.
  induction 1 as [|x l Hx _ IH]; [reflexivity|].
  rewrite filter_cons, IH, Hx.
  destruct (decide (false = true)) as [Hc|_]; [discriminate Hc|reflexivity].
Qed.

Lemma find_active (a : string) (l : list TabStore.TransferTab) :
  NoDup (TabStore.tab_id <$> l) ->
  a ∈ TabStore.tab_id <$> l ->
  Forall (fun t => TabStore.isActive t = bool_decide (TabStore.tab_id t = a)) l ->
  exists t,
    List.find TabStore.isActive l = Some t
    /\ TabStore.tab_id t = a
    /\ filter (fun t => TabStore.isActive t = true) l = [t].
Proof.
  induction l as [|x l IH]; intros Hnd Hin Hflag.
  { apply elem_of_nil in Hin. destruct Hin. }
  rewrite fmap_cons in Hnd, Hin.
  apply NoDup_cons in Hnd as [Hx Hnd].
  apply Forall_cons in Hflag as [Hfx Hfl].
  rewrite filter_cons. cbn [List.find].
  destruct (decide (TabStore.tab_id x = a)) as [Heq|Hne].
  - rewrite bool_decide_eq_true_2 in Hfx by exact Heq. rewrite Hfx.
    exists x. split; [reflexivity|]. split; [exact Heq|].
    destruct (decide (true = true)) as [_|Hc]; [|destruct Hc; reflexivity].
    f_equal. apply filter_inactive.
    apply Forall_forall. intros t Ht. rewrite Forall_forall in Hfl.
    rewrite (Hfl t Ht), bool_decide_eq_false_2; [reflexivity|].
    intros Ht'. apply Hx. rewrite Heq, <- Ht'. apply list_elem_of_fmap_2, Ht.
  - rewrite bool_decide_eq_false_2 in Hfx by exact Hne. rewrite Hfx.
    destruct (decide (false = true)) as [Hc|_]; [discriminate Hc|].
    apply IH; [exact Hnd| |exact Hfl].
    apply elem_of_cons in Hin as [Hin|Hin]; [congruence|exact Hin].
Qed.

(** X23: the panel on display is the panel of the active tab.  In a well
    formed store, the tab that [TabContainer] shows
    ([tabs.find(t => t.isActive) || tabs[0]]) is the tab that [activeTabId]
    names, and it is the only tab whose active flag is set. *)
Theorem shown_tab_is_the_active_tab (st : TabStore.TabState) :
  wellFormed st ->
  exists t,
    TabStore.activeTab st = Some t
    /\ TabStore.tab_id t = TabStore.activeTabId st
    /\ filter (fun t => TabStore.isActive t = true) (TabStore.tabs st) = [t].
Proof.
  intros (Hnd & Hin & Hflag & _). unfold TabStore.activeTab.
  destruct (find_active _ _ Hnd Hin Hflag) as (t & Hfind & Hid & Honly).
  exists t. rewrite Hfind. auto.
Qed.

Lemma shown_tab_is_the_active_tab_witness :
  exists t,
    TabStore.activeTab (TabStore.initial "tab_1") = Some t
    /\ TabStore.tab_id t = "tab_1"
    /\ filter (fun t => TabStore.isActive t = true)
              (TabStore.tabs (TabStore.initial "tab_1")) = [t].
Proof.
  apply (shown_tab_is_the_active_tab (TabStore.initial "tab_1")).
  apply wellFormed_initial.
Defined.

(** ** The server store *)

Lemma find_withSecrets (f : string -> string) (id : string) (l : list SSHConfig) :
  List.find (fun s => String.eqb (srv_id s) id) (map (ConfigService.withSecrets f) l)
  = ConfigService.withSecrets f <$> List.find (fun s => String.eqb (srv_id s) id) l.
Proof.
  induction l as [|x l IH]; [reflexivity|]. simpl.
  destruct (String.eqb (srv_id x) id); [reflexivity|exact IH].
Qed.

Lemma whenSet_round (enc dec : string -> string) (x : option string) :
  (forall s, dec (enc s) = s) -> (forall s, s <> EmptyString -> enc s <> EmptyString) ->
  ConfigService.whenSet dec (ConfigService.whenSet enc x)
  = ConfigService.whenSet (fun s => s) x.
Proof.
  intros Hround Hvisible. destruct x as [[|a s]|]; try reflexivity. simpl.
  specialize (Hvisible (String a s)). specialize (Hround (String a s)).
  destruct (enc (String a s)) as [|b t]; [exfalso; apply Hvisible; congruence|].
  simpl. rewrite Hround. reflexivity.
Qed.

Lemma decrypt_encrypt (P : CryptoService.Platform) (data : string) :
  (forall s, CryptoService.fromBase64 P (CryptoService.toBase64 P s) = s) ->
  (forall s, CryptoService.decryptString P (CryptoService.encryptString P s) = s) ->
  CryptoService.decrypt P (CryptoService.encrypt P data) = data.
Proof.
  intros Hcodec Hcipher. unfold CryptoService.decrypt, CryptoService.encrypt.
  destruct (CryptoService.isEncryptionAvailable P); simpl.
  - rewrite Hcodec. apply Hcipher.
  - apply Hcodec.
Qed.

(** X24: a saved server is read back with its secrets.  When base64 and
    the cipher of the platform decode what they encode, and the encoding
    of a non-empty string is not empty, then after [saveServer(server)] the
    server read under its id is [server], with an empty password or
    passphrase read back as absent; the servers under the other ids are
    read as before.  This holds with and without [safeStorage]. *)
Theorem saveServer_then_getServerById (P : CryptoService.Platform)
    (server : SSHConfig) (id : string) (stored : list SSHConfig) :
  (forall s, CryptoService.fromBase64 P (CryptoService.toBase64 P s) = s) ->
  (forall s, CryptoService.decryptString P (CryptoService.encryptString P s) = s) ->
  (forall s, s <> EmptyString -> CryptoService.encrypt P s <> EmptyString) ->
  ConfigService.storedServerById P id (ConfigService.saveServer P server stored)
  = if String.eqb (srv_id server) id
    then Some (ConfigService.withSecrets (fun s => s) server)
    else ConfigService.storedServerById P id stored.
Proof.
  intros Hcodec Hcipher Hvisible.
  unfold ConfigService.storedServerById, ConfigService.getServers.
  rewrite !find_withSecrets. unfold ConfigService.saveServer.
  set (encrypted := ConfigService.withSecrets (CryptoService.encrypt P) server).
  assert (Hback : ConfigService.withSecrets (CryptoService.decrypt P) encrypted
                  = ConfigService.withSecrets (fun s => s) server).
  { unfold encrypted, ConfigService.withSecrets. simpl.
    assert (Hround : forall s, CryptoService.decrypt P (CryptoService.encrypt P s) = s)
      by (intros s; apply decrypt_encrypt; assumption).
    rewrite !whenSet_round by assumption. reflexivity. }
  destruct (String.eqb_spec (srv_id server) id) as [<-|Hne].
  - destruct (ConfigService.findIndex _ stored) as [i|] eqn:Hi.
    + rewrite (find_insert_hit _ _ _ encrypted Hi) by apply String.eqb_refl.
      simpl. rewrite Hback. reflexivity.
    + rewrite (find_snoc_hit _ _ encrypted Hi) by apply String.eqb_refl.
      simpl. rewrite Hback. reflexivity.
  - f_equal. destruct (ConfigService.findIndex _ stored) as [i|] eqn:Hi.
    + destruct (findIndex_Some _ _ _ Hi) as (y & Hy & Hp).
      apply String.eqb_eq in Hp.
      apply (find_insert_miss _ _ _ _ y Hy); apply String.eqb_neq; simpl; congruence.
    + apply find_snoc_miss. apply String.eqb_neq. exact Hne.
Qed.

(** A platform without [safeStorage], whose base64 codec is taken as the
    identity. *)
Definition plainPlatform : CryptoService.Platform :=
  {| CryptoService.isEncryptionAvailable := false;
     CryptoService.encryptString := fun s => s;
     CryptoService.decryptString := fun s => s;
     CryptoService.toBase64 := fun s => s;
     CryptoService.fromBase64 := fun s => s |}.

Lemma saveServer_then_getServerById_witness :
  ConfigService.storedServerById plainPlatform "a"
    (ConfigService.saveServer plainPlatform (Scenario.host "a") [Scenario.host "b"])
  = Some (Scenario.host "a").
Proof.
  apply (saveServer_then_getServerById plainPlatform (Scenario.host "a") "a"
           [Scenario.host "b"]).
  - reflexivity.
  - reflexivity.
  - intros s Hs. exact Hs.
Defined.

(** ** Listing a remote, and the remotes of a configuration file *)

Lemma splitOn_pieces (c : ascii) (s : string) :
  Forall (fun l => lacks c l = true) (JS.splitOn c s).
Proof.
  induction s as [|a s IH]; simpl; [repeat constructor|].
  destruct (Ascii.eqb a c) eqn:Ha; [constructor; [reflexivity|exact IH]|].
  destruct (JS.splitOn c s) as [|w ws]; [repeat constructor; simpl; rewrite Ha; reflexivity|].
  apply Forall_cons in IH as [Hw Hws]. constructor; [|exact Hws].
  simpl. rewrite Ha, Hw. reflexivity.
Qed.

(** X25: [list] never rejects.  Every name it returns is a non-empty
    line, without a line feed; without a session to the server it returns
    the empty array and runs nothing. *)
Theorem list_never_rejects (W : World) (connectionId remoteName remotePath : string)
    (s : State) :
  exists names s',
    RcloneService.list W connectionId remoteName remotePath s = (inr names, s')
    /\ Forall (fun l => l <> EmptyString /\ lacks (ascii_of_nat 10) l = true) names
    /\ (connections s !! connectionId = None -> names = [] /\ s' = s).
Proof.
  unfold RcloneService.list, try_catch, bind.
  destruct (connections s !! connectionId) as [c|] eqn:Hc.
  - destruct (exec_cases W connectionId
                (RcloneService.listCommand remoteName remotePath) s)
      as [(e & _ & ->)|(chunks & _ & ->)]; [rewrite Hc; eauto| |].
    + eexists [], _. split; [reflexivity|]. split; [constructor|discriminate].
    + eexists _, _. split; [reflexivity|]. split; [|discriminate].
      apply Forall_forall. intros l Hl. apply list_elem_of_filter in Hl as [Hne Hl].
      split; [intros ->; discriminate Hne|].
      pose proof (splitOn_pieces (ascii_of_nat 10) (stdout (SSHService.closed chunks)))
        as Hall.
      rewrite Forall_forall in Hall. apply Hall, Hl.
  - unfold SSHService.exec, bind, gets. rewrite Hc. simpl.
    exists [], s. split; [reflexivity|]. split; [constructor|auto].
Qed.




(** ** A configuration file, section by section *)


















